(** * docker-registry-checker: the probing engine of [main.go]

    A shallow embedding of the registry checker: the line filter that
    builds the endpoint list, the body of [worker] that classifies one
    probe, the worker pool of [main] as an interleaving of goroutine
    steps over two buffered channels and a wait group, the progress
    indicator, the sorted report, and the functions that talk to the
    machine (the download of the list, the start and the end of [main],
    the configuration of the Docker daemon) as programs over the calls
    they make, run against every possible answer of the machine.

    Part I embeds the program, Part II names what the properties speak
    about, Part III proves them. *)

From Stdlib Require Import ZArith QArith Qround Qpower Lqa.
From Stdlib Require Import String Ascii DecimalString List Bool Lia Permutation Sorted.
From Stdlib Require SpecFloat DecimalZ DecimalPos.
From stdpp Require Import list strings sorting.

Local Open Scope Z_scope.

(* ================================================================== *)
(** * Part I: the embedding *)
(* ================================================================== *)

(** ** Go strings

    A Go string is a sequence of bytes; [string] (a list of [ascii]) is
    that sequence.  The comparison [a < b] of two Go strings is the
    bytewise lexicographic one, [String.ltb]. *)

Definition byte_of (c : ascii) : Z := Z.of_N (N_of_ascii c).

Module utf8.

(** The code point of a two-byte and of a three-byte sequence, when the
    sequence is a well-formed UTF-8 encoding ([DecodeRuneInString]
    accepts exactly these: no overlong form, no surrogate). *)
Definition continuation (b : Z) : bool := (128 <=? b) && (b <=? 191).

Definition rune2 (c1 c2 : ascii) : option Z :=
  let b1 := byte_of c1 in
  let b2 := byte_of c2 in
  if (194 <=? b1) && (b1 <=? 223) && continuation b2
  then Some (Z.lor (Z.shiftl (Z.land b1 31) 6) (Z.land b2 63))
  else None.

Definition rune3 (c1 c2 c3 : ascii) : option Z :=
  let b1 := byte_of c1 in
  let b2 := byte_of c2 in
  let b3 := byte_of c3 in
  let lo := if b1 =? 224 then 160 else 128 in
  let hi := if b1 =? 237 then 159 else 191 in
  if (224 <=? b1) && (b1 <=? 239) && (lo <=? b2) && (b2 <=? hi) && continuation b3
  then Some (Z.lor (Z.shiftl (Z.land b1 15) 12)
               (Z.lor (Z.shiftl (Z.land b2 63) 6) (Z.land b3 63)))
  else None.

End utf8.

Module unicode.

(** [unicode.IsSpace]: the Unicode White_Space property.  No code point
    above U+3000 has it, so four-byte sequences never encode a space. *)
Definition IsSpace (r : Z) : bool :=
  ((9 <=? r) && (r <=? 13)) || (r =? 32) || (r =? 133) || (r =? 160)
  || (r =? 5760) || ((8192 <=? r) && (r <=? 8202))
  || (r =? 8232) || (r =? 8233) || (r =? 8239) || (r =? 8287) || (r =? 12288).

End unicode.

Module strings.

Definition space1 (c : ascii) : bool := unicode.IsSpace (byte_of c) && (byte_of c <? 128).

Definition space2 (c1 c2 : ascii) : bool :=
  match utf8.rune2 c1 c2 with Some r => unicode.IsSpace r | None => false end.

Definition space3 (c1 c2 c3 : ascii) : bool :=
  match utf8.rune3 c1 c2 c3 with Some r => unicode.IsSpace r | None => false end.

(** [strings.TrimLeftFunc(s, unicode.IsSpace)]: drop the encoded white
    space runes the string starts with. *)
Fixpoint TrimLeftSpace (s : string) : string :=
  match s with
  | EmptyString => s
  | String c1 s1 =>
    if space1 c1 then TrimLeftSpace s1 else
    match s1 with
    | EmptyString => s
    | String c2 s2 =>
      if space2 c1 c2 then TrimLeftSpace s2 else
      match s2 with
      | EmptyString => s
      | String c3 s3 => if space3 c1 c2 c3 then TrimLeftSpace s3 else s
      end
    end
  end.

(** The same from the end of the string, on the reversed byte sequence:
    the last rune is read backwards, its last byte first. *)
Fixpoint TrimRightSpace_rev (r : string) : string :=
  match r with
  | EmptyString => r
  | String c1 r1 =>
    if space1 c1 then TrimRightSpace_rev r1 else
    match r1 with
    | EmptyString => r
    | String c2 r2 =>
      if space2 c2 c1 then TrimRightSpace_rev r2 else
      match r2 with
      | EmptyString => r
      | String c3 r3 => if space3 c3 c2 c1 then TrimRightSpace_rev r3 else r
      end
    end
  end.

Definition TrimRightSpace (s : string) : string :=
  String.rev (TrimRightSpace_rev (String.rev s)).

(** [strings.TrimSpace]: all leading and trailing white space removed,
    as defined by Unicode. *)
Definition TrimSpace (s : string) : string := TrimRightSpace (TrimLeftSpace s).

(** [strings.HasPrefix(s, prefix)]. *)
Definition HasPrefix (s p : string) : bool := String.prefix p s.

(** [strings.Contains(s, substr)]: [substr] occurs somewhere in [s]. *)
Fixpoint Contains (s substr : string) : bool :=
  String.prefix substr s ||
  match s with
  | EmptyString => false
  | String _ s' => Contains s' substr
  end.

(** [strings.Repeat]. *)
Fixpoint Repeat (s : string) (count : nat) : string :=
  match count with
  | O => EmptyString
  | S n => s +:+ Repeat s n
  end.

End strings.

(** ** float64 arithmetic

    The values [showProgress] and the report print are float64 results.
    A finite float64 is a rational; [round] is IEEE-754 binary64
    rounding to nearest, ties to even, of a rational (53-bit significand,
    least exponent -1074), and every operation is the exact operation
    followed by [round].  All values of this program lie between 0 and
    2^70 in magnitude, far from overflow, so infinities and NaN are not
    modelled; a division needs a non-zero divisor. *)

Module float64.

(** Floor of the binary logarithm of a positive rational. *)
Definition ilog2 (x : Q) : Z :=
  let k := Z.log2 (Qnum x) - Z.log2 (Zpos (Qden x)) in
  if Qle_bool (2 ^ k) x then k else k - 1.

(** Nearest integer, ties to even. *)
Definition rne (x : Q) : Z :=
  let f := Qfloor x in
  match (x - inject_Z f ?= 1 # 2)%Q with
  | Lt => f
  | Gt => f + 1
  | Eq => if Z.even f then f else f + 1
  end.

(** The exponent of the last place of the float64 nearest to a positive
    rational: 53 significant bits, and never below the subnormal
    exponent. *)
Definition expo (x : Q) : Z := Z.max (ilog2 x - 52) (-1074).

Definition round_pos (x : Q) : Q :=
  (inject_Z (rne (x / 2 ^ expo x)) * 2 ^ expo x)%Q.

Definition round (x : Q) : Q :=
  Qred match Qnum x with
       | Z0 => 0
       | Zpos _ => round_pos x
       | Zneg _ => - round_pos (- x)
       end.

(** [float64(n)] for an integer [n]. *)
Definition of_int (n : Z) : Q := round (inject_Z n).
Definition div (x y : Q) : Q := round (x / y).
Definition mul (x y : Q) : Q := round (x * y).
Definition add (x y : Q) : Q := round (x + y).

(** [int(x)]: the fraction is discarded. *)
Definition to_int (x : Q) : Z := Z.quot (Qnum x) (Zpos (Qden x)).

End float64.

(** ** Formatting verbs of [fmt] *)

Module fmt.

(** [%d]. *)
Definition d (n : Z) : string := NilZero.string_of_int (Z.to_int n).

Fixpoint zeros (n : nat) : string :=
  match n with
  | O => EmptyString
  | S k => String "0" (zeros k)
  end.

(** The decimal exponent of [%.1f] and [%.2f]. *)
Definition scale (prec : nat) : Z := 10 ^ Z.of_nat prec.

(** The value printed by [%.<prec>f], in units of [10^-prec]: the exact
    binary value rounded to [prec] decimals, ties to even. *)
Definition fixed (prec : nat) (x : Q) : Z :=
  float64.rne (x * inject_Z (scale prec)).

(** [%.<prec>f]. *)
Definition f (prec : nat) (x : Q) : string :=
  let t := fixed prec x in
  let a := Z.abs t in
  let frac := d (a mod scale prec) in
  (if Qnum x <? 0 then "-" else "") +:+ d (a / scale prec) +:+ "." +:+
  zeros (prec - String.length frac) +:+ frac.

End fmt.

(** ** The result of one check *)

(** [time.Duration]: a count of nanoseconds. *)
Definition Duration := Z.

(** [Duration.Seconds]. *)
Definition Seconds (t : Duration) : Q :=
  float64.add (float64.of_int (Z.quot t 1000000000))
              (float64.div (float64.of_int (Z.rem t 1000000000))
                           (float64.of_int 1000000000)).

Record CheckResult := {
  Host : string;
  Available : bool;
  Time : Duration;
  StatusCode : Z;
  IsTimeout : bool
}.

Definition set_Available (v : bool) (r : CheckResult) : CheckResult :=
  {| Host := Host r; Available := v; Time := Time r;
     StatusCode := StatusCode r; IsTimeout := IsTimeout r |}.
Definition set_Time (v : Duration) (r : CheckResult) : CheckResult :=
  {| Host := Host r; Available := Available r; Time := v;
     StatusCode := StatusCode r; IsTimeout := IsTimeout r |}.
Definition set_StatusCode (v : Z) (r : CheckResult) : CheckResult :=
  {| Host := Host r; Available := Available r; Time := Time r;
     StatusCode := v; IsTimeout := IsTimeout r |}.
Definition set_IsTimeout (v : bool) (r : CheckResult) : CheckResult :=
  {| Host := Host r; Available := Available r; Time := Time r;
     StatusCode := StatusCode r; IsTimeout := v |}.

(** An [error] value, as far as [worker] looks at it: whether it reports
    a timeout ([os.IsTimeout(err)]) and its text ([err.Error()]). *)
Record error := {
  os_IsTimeout : bool;
  Error : string
}.

(** What [client.Get(url)] returned: an error, or a response with its
    status code, together with the time [time.Since(start)] then reads. *)
Inductive GetResult :=
| GetError (err : error)
| GetResponse (resp_StatusCode : Z) (since_start : Duration).

(** [fmt.Sprintf("https://%s/v2/", host)]. *)
Definition probe_url (host : string) : string := "https://" +:+ host +:+ "/v2/".

(** The body of the loop of [worker]: the [CheckResult] sent on
    [results] for [host], given what [client.Get] returned. *)
Definition worker_body (host : string) (got : GetResult) : CheckResult :=
  let result := {| Host := host; Available := false; Time := 0;
                   StatusCode := 0; IsTimeout := false |} in
  match got with
  | GetError err =>
    let result := set_Available false result in
    let result :=
      if os_IsTimeout err || strings.Contains (Error err) "timeout"
      then set_IsTimeout true result
      else result in
    result
  | GetResponse code elapsed =>
    let result := set_StatusCode code result in
    let result := set_Time elapsed result in
    let result :=
      set_Available (((200 <=? code) && (code <? 400)) || (code =? 401)) result in
    result
  end.

(** ** Reading the endpoint list

    The loop of [main] over [scanner.Scan()]: [lines] are the texts
    [scanner.Text()] returns, in file order. *)
Definition scan_step (hosts : list string) (text : string) : list string :=
  let host := strings.TrimSpace text in
  if negb (host =? "")%string && negb (strings.HasPrefix host "#")
  then hosts ++ [host]
  else hosts.

Definition scan_hosts (lines : list string) : list string :=
  fold_left scan_step lines [].

(** ** Sorting

    [sort.Slice(x, less)] is a library routine whose documentation
    promises a sorted rearrangement of [x] and no stability.  The report
    is written against that contract: a [Sorter] is any implementation
    of it. *)

Module sort.

(** What [sort.Slice] asks of [less]: a strict weak ordering. *)
Record StrictWeak {A : Type} (less : A -> A -> bool) : Prop := {
  less_irrefl : forall a, less a a = false;
  less_trans : forall a b c, less a b = true -> less b c = true -> less a c = true;
  less_neg_trans :
    forall a b c, less a b = false -> less b c = false -> less a c = false
}.

(** No element is less than the one before it. *)
Definition ascending {A : Type} (less : A -> A -> bool) : list A -> Prop :=
  Sorted (fun a b => less b a = false).

Record Sorter := {
  Slice : forall A : Type, (A -> A -> bool) -> list A -> list A;
  Slice_Permutation :
    forall A less (x : list A), Permutation (Slice A less x) x;
  Slice_ascending :
    forall A less (x : list A), StrictWeak less -> ascending less (Slice A less x)
}.

(** Insertion sort, which is what [sort.Slice] runs on short slices. *)
Fixpoint insert {A : Type} (less : A -> A -> bool) (a : A) (x : list A) : list A :=
  match x with
  | [] => [a]
  | b :: x' => if less a b then a :: x else b :: insert less a x'
  end.

Definition insertion {A : Type} (less : A -> A -> bool) (x : list A) : list A :=
  fold_left (fun sorted a => insert less a sorted) x [].

End sort.

(** ** The report *)

(** The comparison given to [sort.Slice]:
    [displayResults[i].Host < displayResults[j].Host]. *)
Definition less_Host (a b : CheckResult) : bool := (Host a <? Host b)%string.

(** [result.Available && !result.IsTimeout]. *)
Definition succeeded (result : CheckResult) : bool :=
  Available result && negb (IsTimeout result).

(** The loop that fills [displayResults] under [-l]. *)
Definition select_success (allResults : list CheckResult) : list CheckResult :=
  fold_left (fun display result =>
               if succeeded result then display ++ [result] else display)
            allResults [].

Section Report.

Variable sorter : sort.Sorter.

(** [displayResults] after [sort.Slice]. *)
Definition displayResults (listSuccess : bool) (allResults : list CheckResult)
  : list CheckResult :=
  sort.Slice sorter CheckResult less_Host
    (if listSuccess then select_success allResults else allResults).

(** Without [-l], [displayResults] is the slice [allResults] itself, so
    sorting it reorders [allResults] too; with [-l] it is a new slice. *)
Definition allResults_after_sort (listSuccess : bool) (allResults : list CheckResult)
  : list CheckResult :=
  if listSuccess then allResults else displayResults false allResults.

End Report.

(** The literal printed in the time column of a timed-out check. *)
Definition timeout_literal : string := "超时".

(** The four cells of a row of the table, the arguments of the row's
    [Printf]. *)
Record Row := {
  cell_Host : string;
  cell_status : string;
  cell_statusCode : string;
  cell_timeStr : string
}.

Definition render_row (result : CheckResult) : Row :=
  let status := if negb (Available result) then "✗" else "✓" in
  let statusCode :=
    if StatusCode result =? 0 then "-" else fmt.d (StatusCode result) in
  let timeStr :=
    if negb (IsTimeout result)
    then fmt.f 2 (Seconds (Time result)) +:+ "s"
    else timeout_literal in
  {| cell_Host := Host result; cell_status := status;
     cell_statusCode := statusCode; cell_timeStr := timeStr |}.

(** The counting loop behind the summary line. *)
Definition successCount (allResults : list CheckResult) : Z :=
  fold_left (fun n result => if succeeded result then n + 1 else n) allResults 0.

Record Report := {
  rows : list Row;
  summary_success : Z;
  summary_total : Z
}.

Definition report (sorter : sort.Sorter) (listSuccess : bool)
  (allResults : list CheckResult) : Report :=
  let display := displayResults sorter listSuccess allResults in
  let allResults := allResults_after_sort sorter listSuccess allResults in
  {| rows := map render_row display;
     summary_success := successCount allResults;
     summary_total := Z.of_nat (length allResults) |}.

(** ** The progress indicator *)

(** [float64(current) / float64(total)]. *)
Definition percentage (current total : Z) : Q :=
  float64.div (float64.of_int current) (float64.of_int total).

(** The number [showProgress] prints with [%.1f], in tenths of a percent. *)
Definition progress_tenths (current total : Z) : Z :=
  fmt.fixed 1 (float64.mul (percentage current total) (float64.of_int 100)).

(** The text of the percentage, as printed. *)
Definition progress_text (current total : Z) : string :=
  fmt.f 1 (float64.mul (percentage current total) (float64.of_int 100)).

(** [showProgress]: the line it prints, or [None] when [strings.Repeat]
    panics on a negative count. *)
Definition showProgress (current total : Z) : option string :=
  let width := 40 in
  let filled :=
    float64.to_int (float64.mul (float64.of_int width) (percentage current total)) in
  if (filled <? 0) || (width - filled <? 0) then None
  else
    let bar := strings.Repeat "█" (Z.to_nat filled) +:+
               strings.Repeat "░" (Z.to_nat (width - filled)) in
    Some (String "013" ("检测进度: [" +:+ bar +:+ "] " +:+ fmt.d current +:+ "/" +:+
                        fmt.d total +:+ " (" +:+ progress_text current total +:+ "%)")).

(** ** The worker pool of [main]

    The goroutines of a run are [main], the workers it starts and the
    goroutine that waits for them and closes [results].  A state holds
    where each of them stands and what they share; a step runs one of
    them up to its next operation on shared state. *)

(** A buffered channel.  Both channels of [main] are made with the
    capacity [len(hosts)], which is at least 1. *)
Record Chan (A : Type) := {
  buf : list A;
  cap : nat;
  closed : bool
}.
Arguments buf {A} _.
Arguments cap {A} _.
Arguments closed {A} _.

Definition make (A : Type) (capacity : nat) : Chan A :=
  {| buf := []; cap := capacity; closed := false |}.

Inductive SendOutcome (A : Type) :=
| Sent (c : Chan A)
| SendBlocked
| SendPanic.
Arguments Sent {A} _.
Arguments SendBlocked {A}.
Arguments SendPanic {A}.

(** [c <- v]: a send on a closed channel panics, a send on a full one
    waits. *)
Definition send {A : Type} (c : Chan A) (v : A) : SendOutcome A :=
  if closed c then SendPanic
  else if (length (buf c) <? cap c)%nat
       then Sent {| buf := buf c ++ [v]; cap := cap c; closed := closed c |}
       else SendBlocked.

Inductive RecvOutcome (A : Type) :=
| Received (v : A) (c : Chan A)
| RecvClosed
| RecvBlocked.
Arguments Received {A} _ _.
Arguments RecvClosed {A}.
Arguments RecvBlocked {A}.

(** One turn of [for v := range c]: the oldest value, the end of the
    loop once the channel is closed and drained, or a wait. *)
Definition recv {A : Type} (c : Chan A) : RecvOutcome A :=
  match buf c with
  | v :: rest => Received v {| buf := rest; cap := cap c; closed := closed c |}
  | [] => if closed c then RecvClosed else RecvBlocked
  end.

(** Where [main] stands. *)
Inductive MainPC :=
| MSpawn (i : Z)                (* [for i := 0; i < numWorkers; i++] *)
| MSend (rest : list string)    (* [for _, host := range hosts { jobs <- host }] *)
| MClose                        (* [close(jobs)] *)
| MGo                           (* [go func() { wg.Wait(); close(results) }()] *)
| MCollect                      (* [for result := range results] *)
| MDone.                        (* the loop over [results] has ended *)

(** Where a worker stands. *)
Inductive WorkerPC :=
| WRange                        (* [for host := range jobs] *)
| WGet (host : string)          (* [client.Get(url)] *)
| WSend (result : CheckResult)  (* [results <- result] *)
| WReturned.                    (* after the deferred [wg.Done()] *)

(** Where the closing goroutine stands. *)
Inductive CloserPC :=
| CNotStarted
| CWait                         (* [wg.Wait()] *)
| CClose                        (* [close(results)] *)
| CReturned.

Record State := {
  pc : MainPC;
  workers : list WorkerPC;
  closer : CloserPC;
  jobs : Chan string;
  results : Chan CheckResult;
  wg : Z;
  allResults : list CheckResult;
  resultCount : Z;
  (** the lines [showProgress] has printed *)
  progress : list string;
  (** the calls of [client.Get] that have returned: worker and host *)
  probed : list (nat * string);
  panicked : bool
}.

Definition set_pc (v : MainPC) (s : State) : State :=
  {| pc := v; workers := workers s; closer := closer s; jobs := jobs s;
     results := results s; wg := wg s; allResults := allResults s;
     resultCount := resultCount s; progress := progress s; probed := probed s;
     panicked := panicked s |}.
Definition set_workers (v : list WorkerPC) (s : State) : State :=
  {| pc := pc s; workers := v; closer := closer s; jobs := jobs s;
     results := results s; wg := wg s; allResults := allResults s;
     resultCount := resultCount s; progress := progress s; probed := probed s;
     panicked := panicked s |}.
Definition set_closer (v : CloserPC) (s : State) : State :=
  {| pc := pc s; workers := workers s; closer := v; jobs := jobs s;
     results := results s; wg := wg s; allResults := allResults s;
     resultCount := resultCount s; progress := progress s; probed := probed s;
     panicked := panicked s |}.
Definition set_jobs (v : Chan string) (s : State) : State :=
  {| pc := pc s; workers := workers s; closer := closer s; jobs := v;
     results := results s; wg := wg s; allResults := allResults s;
     resultCount := resultCount s; progress := progress s; probed := probed s;
     panicked := panicked s |}.
Definition set_results (v : Chan CheckResult) (s : State) : State :=
  {| pc := pc s; workers := workers s; closer := closer s; jobs := jobs s;
     results := v; wg := wg s; allResults := allResults s;
     resultCount := resultCount s; progress := progress s; probed := probed s;
     panicked := panicked s |}.
Definition set_wg (v : Z) (s : State) : State :=
  {| pc := pc s; workers := workers s; closer := closer s; jobs := jobs s;
     results := results s; wg := v; allResults := allResults s;
     resultCount := resultCount s; progress := progress s; probed := probed s;
     panicked := panicked s |}.
Definition record_result (result : CheckResult) (line : string) (s : State) : State :=
  {| pc := pc s; workers := workers s; closer := closer s; jobs := jobs s;
     results := results s; wg := wg s; allResults := allResults s ++ [result];
     resultCount := resultCount s + 1; progress := progress s ++ [line];
     probed := probed s; panicked := panicked s |}.
Definition log_probe (id : nat) (host : string) (s : State) : State :=
  {| pc := pc s; workers := workers s; closer := closer s; jobs := jobs s;
     results := results s; wg := wg s; allResults := allResults s;
     resultCount := resultCount s; progress := progress s;
     probed := probed s ++ [(id, host)]; panicked := panicked s |}.
Definition panic (s : State) : State :=
  {| pc := pc s; workers := workers s; closer := closer s; jobs := jobs s;
     results := results s; wg := wg s; allResults := allResults s;
     resultCount := resultCount s; progress := progress s; probed := probed s;
     panicked := true |}.

(** [close(c)]. *)
Definition close {A : Type} (c : Chan A) : Chan A :=
  {| buf := buf c; cap := cap c; closed := true |}.

(** Who runs next.  [GetReturns id got] is the network answering the
    pending [client.Get] of worker [id]; every call returns, after at
    most the timeout. *)
Inductive Action :=
| RunMain
| RunWorker (id : nat)
| GetReturns (id : nat) (got : GetResult)
| RunCloser.

Section Pool.

Variable numWorkers : Z.
Variable hosts : list string.

Definition start : State :=
  {| pc := MSpawn 0; workers := []; closer := CNotStarted;
     jobs := make string (length hosts);
     results := make CheckResult (length hosts);
     wg := 0; allResults := []; resultCount := 0; progress := [];
     probed := []; panicked := false |}.

Definition step_main (s : State) : option State :=
  match pc s with
  | MSpawn i =>
    if i <? numWorkers
    then Some (set_pc (MSpawn (i + 1))
                 (set_workers (workers s ++ [WRange]) (set_wg (wg s + 1) s)))
    else Some (set_pc (MSend hosts) s)
  | MSend (host :: rest) =>
    match send (jobs s) host with
    | Sent c => Some (set_pc (MSend rest) (set_jobs c s))
    | SendBlocked => None
    | SendPanic => Some (panic s)
    end
  | MSend [] => Some (set_pc MClose s)
  | MClose =>
    if closed (jobs s) then Some (panic s)
    else Some (set_pc MGo (set_jobs (close (jobs s)) s))
  | MGo => Some (set_pc MCollect (set_closer CWait s))
  | MCollect =>
    match recv (results s) with
    | Received result c =>
      match showProgress (resultCount s + 1) (Z.of_nat (length hosts)) with
      | Some line => Some (record_result result line (set_results c s))
      | None => Some (panic s)
      end
    | RecvClosed => Some (set_pc MDone s)
    | RecvBlocked => None
    end
  | MDone => None
  end.

Definition step_worker (id : nat) (s : State) : option State :=
  match workers s !! id with
  | Some WRange =>
    match recv (jobs s) with
    | Received host c =>
      Some (set_workers (<[id := WGet host]> (workers s)) (set_jobs c s))
    | RecvClosed =>
      if wg s - 1 <? 0 then Some (panic s)
      else Some (set_workers (<[id := WReturned]> (workers s)) (set_wg (wg s - 1) s))
    | RecvBlocked => None
    end
  | Some (WSend result) =>
    match send (results s) result with
    | Sent c => Some (set_workers (<[id := WRange]> (workers s)) (set_results c s))
    | SendBlocked => None
    | SendPanic => Some (panic s)
    end
  | _ => None
  end.

Definition step_get (id : nat) (got : GetResult) (s : State) : option State :=
  match workers s !! id with
  | Some (WGet host) =>
    Some (set_workers (<[id := WSend (worker_body host got)]> (workers s))
            (log_probe id host s))
  | _ => None
  end.

Definition step_closer (s : State) : option State :=
  match closer s with
  | CWait => if wg s =? 0 then Some (set_closer CClose s) else None
  | CClose =>
    if closed (results s) then Some (panic s)
    else Some (set_closer CReturned (set_results (close (results s)) s))
  | _ => None
  end.

(** The program is over when [main] has left its last loop or some
    goroutine has panicked. *)
Definition exec (a : Action) (s : State) : option State :=
  if panicked s then None
  else match pc s with
       | MDone => None
       | _ =>
         match a with
         | RunMain => step_main s
         | RunWorker id => step_worker id s
         | GetReturns id got => step_get id got s
         | RunCloser => step_closer s
         end
       end.

Fixpoint run (schedule : list Action) (s : State) : option State :=
  match schedule with
  | [] => Some s
  | a :: rest =>
    match exec a s with
    | Some s' => run rest s'
    | None => None
    end
  end.

End Pool.

(** ** [main], from the scanned file to the pool *)

Inductive Start :=
| ReadFailed               (* [scanner.Err() != nil] *)
| EmptyInput               (* [len(hosts) == 0] *)
| Probing (hosts : list string) (s : State).

Definition main_start (lines : list string) (scanner_Err : bool) : Start :=
  if scanner_Err then ReadFailed
  else match scan_hosts lines with
       | [] => EmptyInput
       | hosts => Probing hosts (start hosts)
       end.

(** ** The environment of [main.go]

    Everything outside the worker pool talks to the operating system:
    it starts processes, reads and writes files, fetches a URL, prints
    and reads the terminal.  A [Call] is one such request, [Resp] the type
    of what comes back.  The two [encoding/json] routines and the Unicode
    case mapping are calls too: their result is taken as given, not
    computed. *)

(** The [error] of [os.Stat], as [os.IsNotExist] sees it. *)
Inductive StatError :=
| stat_nil
| stat_NotExist
| stat_other.

(** [DaemonConfig]: the one key of [daemon.json] the program knows. *)
Record DaemonConfig := {
  RegistryMirrors : list string
}.

Inductive Call :=
| exec_Run (name : string) (arg : list string) (attached : bool)
    (* [exec.Command(name, arg...).Run()]; [attached]: the command writes to
       the terminal of the program *)
| os_Stat (name : string)
| os_ReadFile (name : string)
| os_MkdirAll (path : string) (perm : Z)
| os_WriteFile (name : string) (data : string) (perm : Z)
| os_Create (name : string)
| os_Open (name : string)
| file_Close (name : string)
| http_Get (url : string)
| Body_Close                                  (* [resp.Body.Close()] *)
| io_Copy (name : string)                     (* [io.Copy(file, resp.Body)] *)
| json_Unmarshal (data : string)
| json_MarshalIndent (v : DaemonConfig)       (* no prefix, indent of four spaces *)
| unicode_ToLower (s : string)                (* [strings.Map(unicode.ToLower, s)] *)
| Print (text : string)                       (* [fmt.Print], [Println], [Printf] *)
| Printf_row (row : Row)                      (* the [Printf] of one row of the table *)
| ReadString                                  (* [reader.ReadString('\n')] on the terminal *)
| ReadBytes                                   (* [reader.ReadBytes('\n')] on the terminal *)
| Scanln                                      (* [fmt.Scanln(&index)] *)
| Scanner_Scan (name : string).               (* the loop over [scanner.Scan()] *)

(** An [error] is [None] for [nil] and otherwise its text, which is all
    the program ever does with one: it prints it with [%v]. *)
Definition Resp (c : Call) : Type :=
  match c with
  | exec_Run _ _ _ => option string
  | os_Stat _ => StatError
  | os_ReadFile _ => string + string            (* the data, or the error *)
  | os_MkdirAll _ _ => option string
  | os_WriteFile _ _ _ => option string
  | os_Create _ => option string
  | os_Open _ => option string
  | file_Close _ => unit
  | http_Get _ => Z + string                    (* [resp.StatusCode], or the error *)
  | Body_Close => unit
  | io_Copy _ => option string
  | json_Unmarshal _ => DaemonConfig + string
  | json_MarshalIndent _ => string + string
  | unicode_ToLower _ => string
  | Print _ => unit
  | Printf_row _ => unit
  | ReadString => string                        (* the line read, its error dropped *)
  | ReadBytes => unit
  | Scanln => Z                                 (* [index] after the call *)
  | Scanner_Scan _ => list string * option string
      (* the texts [scanner.Text()] returned, and [scanner.Err()] *)
  end.

(** A program: it returns, asks the environment and goes on with the
    answer, or panics. *)
Inductive Prog (A : Type) : Type :=
| Ret (a : A)
| Do (c : Call) (k : Resp c -> Prog A)
| Panic.
Arguments Ret {A} _.
Arguments Do {A} _ _.
Arguments Panic {A}.

Fixpoint bind {A B : Type} (p : Prog A) (f : A -> Prog B) : Prog B :=
  match p with
  | Ret a => f a
  | Do c k => Do c (fun r => bind (k r) f)
  | Panic => Panic
  end.

#[export] Instance Prog_ret : MRet Prog := @Ret.
#[export] Instance Prog_bind : MBind Prog := fun A B f p => bind p f.

Definition call (c : Call) : Prog (Resp c) := Do c Ret.

(** [for _, x := range l { body }] and [for i, x := range l { body }]. *)
Fixpoint range {A : Type} (l : list A) (body : A -> Prog unit) : Prog unit :=
  match l with
  | [] => Ret tt
  | x :: l' => body x ;; range l' body
  end.

Fixpoint range_from {A : Type} (i : Z) (l : list A) (body : Z -> A -> Prog unit)
  : Prog unit :=
  match l with
  | [] => Ret tt
  | x :: l' => body i x ;; range_from (i + 1) l' body
  end.

(** The line feed, and [fmt.Println] of one string. *)
Definition nl : string := String "010" EmptyString.

Definition Println (text : string) : Prog unit := call (Print (text +:+ nl)).

(** [strings.ToLower]: the bytes [A]..[Z] become [a]..[z] when the
    string is ASCII, and otherwise every rune is mapped by
    [unicode.ToLower]. *)
Definition isASCII (s : string) : bool :=
  forallb (fun c => byte_of c <? 128) (list_ascii_of_string s).

Definition lower (c : ascii) : ascii :=
  if (65 <=? byte_of c) && (byte_of c <=? 90)
  then ascii_of_N (N_of_ascii c + 32)
  else c.

Definition ToLower (s : string) : Prog string :=
  if isASCII s
  then Ret (string_of_list_ascii (map lower (list_ascii_of_string s)))
  else call (unicode_ToLower s).

(** [answer == "y" || answer == "yes"]. *)
Definition yes (answer : string) : bool :=
  (answer =? "y")%string || (answer =? "yes")%string.

(** ** [checkDockerInstalled], [readDaemonConfig], [writeDaemonConfig],
       [execCommand] *)

Definition checkDockerInstalled : Prog bool :=
  err ← call (exec_Run "docker" ["--version"] false);
  Ret (if err is None then true else false).

Definition configPath : string := "/etc/docker/daemon.json".

Definition readDaemonConfig : Prog (DaemonConfig + string) :=
  let config := {| RegistryMirrors := [] |} in
  err ← call (os_Stat configPath);
  if err is stat_NotExist then Ret (inl config)
  else
    read ← call (os_ReadFile configPath);
    match read with
    | inr err => Ret (inr ("读取daemon.json失败: " +:+ err))
    | inl data =>
      if (String.length data =? 0)%nat then Ret (inl config)
      else
        parsed ← call (json_Unmarshal data);
        match parsed with
        | inr err => Ret (inr ("解析daemon.json失败: " +:+ err))
        | inl config => Ret (inl config)
        end
    end.

Definition writeDaemonConfig (config : DaemonConfig) : Prog (option string) :=
  marshalled ← call (json_MarshalIndent config);
  match marshalled with
  | inr err => Ret (Some ("序列化配置失败: " +:+ err))
  | inl data =>
    err ← call (os_MkdirAll "/etc/docker" 493);
    match err with
    | Some err => Ret (Some ("创建目录失败: " +:+ err))
    | None =>
      err ← call (os_WriteFile "/etc/docker/daemon.json" data 420);
      match err with
      | Some err => Ret (Some ("写入配置文件失败: " +:+ err))
      | None => Ret None
      end
    end
  end.

Definition execCommand (command : string) : Prog (option string) :=
  call (exec_Run "sh" ["-c"; command] true).

(** ** [handleLinuxSystem] *)

(** The mirror written for a result. *)
Definition mirror (result : CheckResult) : string := "https://" +:+ Host result.

(** The line of the menu for entry [i] (counted from 0). *)
Definition menu_line (i : Z) (result : CheckResult) : string :=
  fmt.d (i + 1) +:+ ". " +:+ Host result +:+ " (响应时间: " +:+
  fmt.f 2 (Seconds (Time result)) +:+ "s)" +:+ nl.

(** The [switch choice]: the new mirrors, or the error returned. *)
Definition choose (choice : string) (successResults : list CheckResult)
  : Prog (list string + string) :=
  if (choice =? "1")%string then
    Ret (inl (fold_left (fun newMirrors result => newMirrors ++ [mirror result])
                        successResults []))
  else if (choice =? "2")%string then
    Println (nl +:+ "可用的镜像源：");;
    range_from 0 successResults (fun i result => call (Print (menu_line i result)));;
    call (Print "请选择镜像源编号: ");;
    index ← call Scanln;
    if (index <? 1) || (index >? Z.of_nat (length successResults))
    then Ret (inr "无效的选择")
    else match successResults !! Z.to_nat (index - 1) with
         | Some result => Ret (inl [mirror result])
         | None => Panic
         end
  else Ret (inr "无效的选择").

Definition handleLinuxSystem (successResults : list CheckResult) : Prog (option string) :=
  installed ← checkDockerInstalled;
  if negb installed then Ret (Some "未检测到Docker，请先安装Docker")
  else
    read ← readDaemonConfig;
    match read with
    | inr err => Ret (Some err)
    | inl config =>
      Println (nl +:+ "请选择操作：");;
      Println "1. 替换全部镜像源";;
      Println "2. 选择单个镜像源";;
      call (Print "请输入选项 (1/2): ");;
      choice ← call ReadString;
      let choice := strings.TrimSpace choice in
      chosen ← choose choice successResults;
      match chosen with
      | inr err => Ret (Some err)
      | inl newMirrors =>
        let config := {| RegistryMirrors := newMirrors |} in
        err ← writeDaemonConfig config;
        match err with
        | Some err => Ret (Some err)
        | None =>
          Println (nl +:+ "新的daemon.json配置：");;
          configData ← call (json_MarshalIndent config);
          Println (match configData with inl data => data | inr _ => "" end);;
          Println (nl +:+ "正在重载Docker daemon...");;
          err ← execCommand "systemctl daemon-reload";
          match err with
          | Some err => Ret (Some ("重载Docker daemon失败: " +:+ err))
          | None =>
            call (Print (nl +:+ "是否重启Docker服务? (y/n): "));;
            restart ← call ReadString;
            restart ← ToLower restart;
            let restart := strings.TrimSpace restart in
            if yes restart then
              Println "正在重启Docker服务...";;
              err ← execCommand "systemctl restart docker";
              match err with
              | Some err => Ret (Some ("重启Docker服务失败: " +:+ err))
              | None => Println "Docker服务已重启";; Ret None
              end
            else Ret None
          end
        end
      end
    end.

(** ** [downloadFromGithub] and [waitForKeyPress] *)

Definition docker_txt_url : string :=
  "https://raw.githubusercontent.com/YMingPro/docker-register-check/main/docker.txt".

(** The deferred [Close] calls run when the function returns, the last
    deferred first. *)
Definition downloadFromGithub : Prog (option string) :=
  got ← call (http_Get docker_txt_url);
  match got with
  | inr err => Ret (Some ("下载失败: " +:+ err))
  | inl StatusCode =>
    if negb (StatusCode =? 200) then
      call Body_Close;;
      Ret (Some ("下载失败，状态码: " +:+ fmt.d StatusCode))
    else
      err ← call (os_Create "docker.txt");
      match err with
      | Some err =>
        call Body_Close;;
        Ret (Some ("创建文件失败: " +:+ err))
      | None =>
        err ← call (io_Copy "docker.txt");
        call (file_Close "docker.txt");;
        call Body_Close;;
        match err with
        | Some err => Ret (Some ("保存文件失败: " +:+ err))
        | None => Ret None
        end
      end
  end.

Definition waitForKeyPress : Prog unit :=
  Println (nl +:+ "按回车键退出...");;
  call ReadBytes.

(** ** [main] before and after the pool *)

(** [main] up to the creation of the channels: the endpoints to check,
    or [None] when [main] has returned. *)
Definition main_open (timeout : Duration) (numWorkers : Z) (update : bool)
  : Prog (option (list string)) :=
  call (Print ("启动检测 (并发数: " +:+ fmt.d numWorkers +:+ ", 超时: " +:+
               fmt.f 1 (Seconds timeout) +:+ "s)" +:+ nl));;
  fetched ←
    (if update then
       Println "正在从GitHub更新docker.txt...";;
       err ← downloadFromGithub;
       match err with
       | Some err =>
         call (Print ("更新失败: " +:+ err +:+ nl));; waitForKeyPress;; Ret false
       | None => Println "更新成功!";; Ret true
       end
     else
       err ← call (os_Stat "docker.txt");
       if err is stat_NotExist then
         Println "本地未找到docker.txt，正在从GitHub下载...";;
         err ← downloadFromGithub;
         match err with
         | Some err =>
           call (Print ("下载失败: " +:+ err +:+ nl));; waitForKeyPress;; Ret false
         | None => Println "下载成功!";; Ret true
         end
       else Ret true);
  if negb fetched then Ret None
  else
    err ← call (os_Open "docker.txt");
    match err with
    | Some err =>
      call (Print ("无法打开docker.txt文件: " +:+ err +:+ nl));; waitForKeyPress;;
      Ret None
    | None =>
      '(lines, err) ← call (Scanner_Scan "docker.txt");
      match err with
      | Some err =>
        call (Print ("读取文件出错: " +:+ err +:+ nl));; waitForKeyPress;;
        call (file_Close "docker.txt");;
        Ret None
      | None =>
        match scan_hosts lines with
        | [] =>
          Println "docker.txt 文件为空或没有有效的主机地址";; waitForKeyPress;;
          call (file_Close "docker.txt");;
          Ret None
        | hosts => Ret (Some hosts)
        end
      end
    end.

(** [main] from the end of the loop over [results]: the table, the
    summary, the configuration of the mirrors on Linux. *)
Definition main_report (sorter : sort.Sorter) (listSuccess : bool) (GOOS : string)
  (allResults : list CheckResult) : Prog unit :=
  let displayResults := displayResults sorter listSuccess allResults in
  let allResults := allResults_after_sort sorter listSuccess allResults in
  Println (nl +:+ nl +:+
           "Registry                        状态       状态码     响应时间");;
  Println (strings.Repeat "-" 65);;
  range displayResults (fun result => call (Printf_row (render_row result)));;
  let totalCount := Z.of_nat (length allResults) in
  let successCount := successCount allResults in
  let successResults := select_success allResults in
  call (Print (nl +:+ "检测完成! (成功: " +:+ fmt.d successCount +:+ ", 总计: " +:+
               fmt.d totalCount +:+ ")" +:+ nl));;
  (if (GOOS =? "linux")%string then
     Println (nl +:+ "检测到Linux系统，是否进行镜像源配置？(y/n)");;
     answer ← call ReadString;
     answer ← ToLower answer;
     let answer := strings.TrimSpace answer in
     if yes answer then
       err ← handleLinuxSystem successResults;
       match err with
       | Some err => call (Print ("配置失败: " +:+ err +:+ nl))
       | None => Ret tt
       end
     else Ret tt
   else Ret tt);;
  waitForKeyPress;;
  call (file_Close "docker.txt").

(** ** Running a program

    A [World] answers the n-th call of a run.  [interp] runs a program
    in a world: the calls made with their answers, in order, and how the
    program ended. *)

Record Event := {
  called : Call;
  answer : Resp called
}.

Inductive Outcome (A : Type) :=
| Returned (a : A)
| Panicked.
Arguments Returned {A} _.
Arguments Panicked {A}.

Definition World := nat -> forall c : Call, Resp c.

Fixpoint interp {A : Type} (p : Prog A) (w : World) (n : nat) : list Event * Outcome A :=
  match p with
  | Ret a => ([], Returned a)
  | Do c k =>
    let r := w n c in
    let (events, outcome) := interp (k r) w (S n) in
    ({| called := c; answer := r |} :: events, outcome)
  | Panic => ([], Panicked)
  end.

Definition trace {A : Type} (p : Prog A) (w : World) : list Event := fst (interp p w 0).
Definition outcome {A : Type} (p : Prog A) (w : World) : Outcome A := snd (interp p w 0).


(* ================================================================== *)
(** * Part II: the vocabulary of the properties *)
(* ================================================================== *)

(** ** Results, lines and order *)

(** A result is [produced] when it is what [worker] builds for some
    endpoint and some outcome of [client.Get]. *)
Definition produced (result : CheckResult) : Prop :=
  exists host got, result = worker_body host got.

(** A line is [ignored] when it is empty after trimming or when what is
    left after trimming starts with the comment marker. *)
Definition ignored (line : string) : bool :=
  let host := strings.TrimSpace line in
  (host =? "")%string || strings.HasPrefix host "#".

(** Ascending order of endpoints: ordinary string comparison. *)
Definition string_le (a b : string) : Prop := (a <=? b)%string = true.
Definition Host_le (a b : CheckResult) : Prop := string_le (Host a) (Host b).

(** ** The endpoint list, in the words of the design *)

(** The white space of Unicode, each code point in its UTF-8 encoding:
    U+0009 to U+000D, U+0020, U+0085, U+00A0, U+1680, U+2000 to U+200A,
    U+2028, U+2029, U+202F, U+205F and U+3000. *)
Definition white_space : list string :=
  [ String "009" ""; String "010" ""; String "011" ""; String "012" "";
    String "013" ""; String "032" "";
    String "194" (String "133" ""); String "194" (String "160" "");
    String "225" (String "154" (String "128" ""));
    String "226" (String "128" (String "128" ""));
    String "226" (String "128" (String "129" ""));
    String "226" (String "128" (String "130" ""));
    String "226" (String "128" (String "131" ""));
    String "226" (String "128" (String "132" ""));
    String "226" (String "128" (String "133" ""));
    String "226" (String "128" (String "134" ""));
    String "226" (String "128" (String "135" ""));
    String "226" (String "128" (String "136" ""));
    String "226" (String "128" (String "137" ""));
    String "226" (String "128" (String "138" ""));
    String "226" (String "128" (String "168" ""));
    String "226" (String "128" (String "169" ""));
    String "226" (String "128" (String "175" ""));
    String "226" (String "129" (String "159" ""));
    String "227" (String "128" (String "128" "")) ].

(** A [blank] string is made of white space only. *)
Inductive blank : string -> Prop :=
| blank_empty : blank ""
| blank_space w s : In w white_space -> blank s -> blank (w +:+ s).

Definition starts_with_space (s : string) : Prop :=
  exists w rest, In w white_space /\ s = w +:+ rest.

Definition ends_with_space (s : string) : Prop :=
  exists w front, In w white_space /\ s = front +:+ w.

(** A line is [dropped] when it is empty after trimming white space, or
    when its first character that is no white space is '#'. *)
Definition dropped (line : string) : Prop :=
  blank line \/ exists pre rest, blank pre /\ line = pre +:+ String "#" rest.

(** [host] is the line [trimmed]: the line without the white space
    around it. *)
Definition trimmed (line host : string) : Prop :=
  ~ starts_with_space host /\ ~ ends_with_space host /\
  exists pre post, blank pre /\ blank post /\ line = pre +:+ host +:+ post.

(** The endpoints of a file: the lines that are not dropped, each
    trimmed, in the order of the file. *)
Inductive endpoints : list string -> list string -> Prop :=
| endpoints_end : endpoints [] []
| endpoints_drop line lines hosts :
    dropped line -> endpoints lines hosts -> endpoints (line :: lines) hosts
| endpoints_keep line host lines hosts :
    ~ dropped line -> trimmed line host -> endpoints lines hosts ->
    endpoints (line :: lines) (host :: hosts).

(** The first rune of [s] is no white space, and neither is the last
    rune of the string whose reversal is [r]. *)
Definition clean_start (s : string) : bool :=
  match s with
  | EmptyString => true
  | String c1 s1 =>
    negb (strings.space1 c1) &&
    match s1 with
    | EmptyString => true
    | String c2 s2 =>
      negb (strings.space2 c1 c2) &&
      match s2 with
      | EmptyString => true
      | String c3 _ => negb (strings.space3 c1 c2 c3)
      end
    end
  end.

Definition clean_end_rev (r : string) : bool :=
  match r with
  | EmptyString => true
  | String c1 r1 =>
    negb (strings.space1 c1) &&
    match r1 with
    | EmptyString => true
    | String c2 r2 =>
      negb (strings.space2 c2 c1) &&
      match r2 with
      | EmptyString => true
      | String c3 _ => negb (strings.space3 c3 c2 c1)
      end
    end
  end.

(** Every byte, and the test that a string is in [white_space]. *)
Definition all_bytes : list ascii := map ascii_of_nat (seq 0 256).

Definition white (w : string) : bool := existsb (String.eqb w) white_space.

(** The first byte of a three-byte sequence. *)
Definition lead3 (c : ascii) : bool := (224 <=? byte_of c) && (byte_of c <=? 239).

(** ** The progress bar *)

(** The number of filled cells [showProgress] computes, and the bar it
    draws for that number. *)
Definition filled (current total : Z) : Z :=
  float64.to_int (float64.mul (float64.of_int 40) (percentage current total)).

Definition bar (cells : Z) : string :=
  strings.Repeat "█" (Z.to_nat cells) +:+ strings.Repeat "░" (Z.to_nat (40 - cells)).

(** The line of [showProgress] around the bar. *)
Definition progress_line (cells current total : Z) : string :=
  String "013" ("检测进度: [" +:+ bar cells +:+ "] " +:+ fmt.d current +:+ "/" +:+
                fmt.d total +:+ " (" +:+ progress_text current total +:+ "%)").


(** ** States of the pool *)

(** Views of a state: the endpoints a worker holds, the endpoints whose
    check has been made, the workers still running. *)
Definition holding (w : WorkerPC) : list string :=
  match w with
  | WGet host => [host]
  | WSend result => [Host result]
  | _ => []
  end.

Definition sending (w : WorkerPC) : list string :=
  match w with
  | WSend result => [Host result]
  | _ => []
  end.

Definition live (w : WorkerPC) : Z :=
  match w with
  | WReturned => 0
  | _ => 1
  end.

Definition live_count (ws : list WorkerPC) : Z :=
  fold_right (fun w n => live w + n) 0 ws.

Definition unsent (hosts : list string) (p : MainPC) : list string :=
  match p with
  | MSpawn _ => hosts
  | MSend rest => rest
  | _ => []
  end.

Definition jobs_open (p : MainPC) : bool :=
  match p with
  | MSpawn _ | MSend _ | MClose => true
  | _ => false
  end.

Definition collecting (p : MainPC) : bool :=
  match p with
  | MCollect | MDone => true
  | _ => false
  end.

Definition closer_past_wait (c : CloserPC) : bool :=
  match c with
  | CClose | CReturned => true
  | _ => false
  end.

Definition in_flight (s : State) : list string :=
  buf (jobs s) ++ flat_map holding (workers s) ++
  map Host (buf (results s)) ++ map Host (allResults s).

Definition answered (s : State) : list string :=
  flat_map sending (workers s) ++
  map Host (buf (results s)) ++ map Host (allResults s).

Section Invariant.
Variable numWorkers : Z.
Variable hosts : list string.

(** What holds in every state a run reaches. *)
Record Inv (s : State) : Prop := {
  (** every endpoint is in one place: still to send, in the job queue,
      held by a worker, in the result queue, or collected *)
  inv_hosts : Permutation hosts (unsent hosts (pc s) ++ in_flight s);
  (** the checks made are those whose result is on its way or collected *)
  inv_probed : Permutation (map snd (probed s)) (answered s);
  (** each of them was made by a started worker *)
  inv_probed_id : Forall (fun p => (fst p < length (workers s))%nat) (probed s);
  (** both channels have room for every endpoint *)
  inv_cap_jobs : cap (jobs s) = length hosts;
  inv_cap_results : cap (results s) = length hosts;
  (** [jobs] is closed once [main] is past [close(jobs)] *)
  inv_jobs_closed : closed (jobs s) = negb (jobs_open (pc s));
  (** the wait group counts the workers that have not returned *)
  inv_wg : wg s = live_count (workers s);
  (** the workers started so far *)
  inv_spawned :
    match pc s with
    | MSpawn i => 0 <= i <= Z.max 0 numWorkers /\ Z.of_nat (length (workers s)) = i
    | _ => Z.of_nat (length (workers s)) = Z.max 0 numWorkers
    end;
  (** the closing goroutine exists once [main] collects *)
  inv_closer : collecting (pc s) = negb (if closer s is CNotStarted then true else false);
  (** [wg.Wait()] returned only after every worker had *)
  inv_closer_waited :
    closer_past_wait (closer s) = true -> Forall (fun w => w = WReturned) (workers s);
  (** only the closing goroutine closes [results] *)
  inv_results_closed :
    closed (results s) = (if closer s is CReturned then true else false);
  (** a worker returns only on the closed and drained job queue *)
  inv_returned :
    In WReturned (workers s) -> closed (jobs s) = true /\ buf (jobs s) = [];
  (** [main] leaves its loop only on the closed and drained result queue *)
  inv_done : pc s = MDone -> closed (results s) = true /\ buf (results s) = [];
  inv_no_panic : panicked s = false;
  inv_count : resultCount s = Z.of_nat (length (allResults s));
  (** the n-th line printed is the one for the count n *)
  inv_progress :
    Forall2 (fun n line => showProgress (Z.of_nat n) (Z.of_nat (length hosts)) = Some line)
            (seq 1 (length (allResults s))) (progress s)
}.

End Invariant.

(** The rank of a state bounds the number of steps it can still take. *)
Definition rank_worker (w : WorkerPC) : nat :=
  match w with
  | WRange => 1
  | WGet _ => 4
  | WSend _ => 3
  | WReturned => 0
  end.

Definition rank_workers (ws : list WorkerPC) : nat :=
  fold_right (fun w n => rank_worker w + n)%nat 0%nat ws.

Definition rank_closer (c : CloserPC) : nat :=
  match c with
  | CNotStarted | CWait => 2
  | CClose => 1
  | CReturned => 0
  end.

Definition rank_main (numWorkers : Z) (hosts : list string) (p : MainPC) : nat :=
  match p with
  | MSpawn i => 8 + 2 * Z.to_nat (numWorkers - i) + 5 * length hosts
  | MSend rest => 7 + 5 * length rest
  | MClose => 6
  | MGo => 5
  | MCollect => 2
  | MDone => 0
  end.

Definition rank (numWorkers : Z) (hosts : list string) (s : State) : nat :=
  (if panicked s then 0 else 1) + rank_main numWorkers hosts (pc s) +
  4 * length (buf (jobs s)) + rank_workers (workers s) +
  length (buf (results s)) + rank_closer (closer s).


(** Every result in the pool was built by [worker]. *)
Definition sends_produced (w : WorkerPC) : Prop :=
  match w with
  | WSend result => produced result
  | _ => True
  end.

Record Produced (s : State) : Prop := {
  produced_collected : Forall produced (allResults s);
  produced_buffered : Forall produced (buf (results s));
  produced_sending : Forall sends_produced (workers s)
}.


(** ** Sample errors

    Errors as [client.Get] returns them: a [url.Error], whose text is
    the operation, the quoted URL and the text of the error underneath,
    and which reports a timeout when the error underneath does. *)

(** [Client.Timeout] expired while the answer of mirror-b.example was
    awaited. *)
Definition deadline_exceeded : error :=
  {| os_IsTimeout := true;
     Error := "Get " +:+ String "034" "https://mirror-b.example/v2/" +:+
              String "034" ": context deadline exceeded (Client.Timeout exceeded while awaiting headers)" |}.

(** The name timeout.example.com resolved to 192.0.2.1, where nothing
    listens on port 443: the connection was refused at once. *)
Definition refused_at_timeout_example : error :=
  {| os_IsTimeout := false;
     Error := "Get " +:+ String "034" "https://timeout.example.com/v2/" +:+
              String "034" ": dial tcp 192.0.2.1:443: connect: connection refused" |}.

(** The same refusal for the name mirror-b.example. *)
Definition refused_at_mirror_b : error :=
  {| os_IsTimeout := false;
     Error := "Get " +:+ String "034" "https://mirror-b.example/v2/" +:+
              String "034" ": dial tcp 192.0.2.1:443: connect: connection refused" |}.

(** ** Sample runs *)

(** The report of the design's scenario: the check of [mirror-b] timed
    out and arrived first, the check of [mirror-a] answered 200. *)
Definition scenario_results : list CheckResult :=
  [worker_body "mirror-b.example" (GetError deadline_exceeded);
   worker_body "mirror-a.example" (GetResponse 200 50000000)].


(** A run on two endpoints with two workers: the first check answers
    200, the second runs into the deadline. *)
Definition demo_hosts : list string := ["mirror-a.example"; "mirror-b.example"].

Definition demo_schedule : list Action :=
  [RunMain; RunMain; RunMain; RunMain; RunWorker 0; RunMain; RunMain;
   GetReturns 0 (GetResponse 200 50000000); RunWorker 1; RunMain; RunWorker 0;
   RunMain; RunMain;
   GetReturns 1 (GetError deadline_exceeded);
   RunWorker 1; RunWorker 0; RunMain; RunWorker 1; RunCloser; RunCloser; RunMain].

(** The same endpoints with no worker at all. *)
Definition idle_schedule : list Action :=
  [RunMain; RunMain; RunMain; RunMain; RunMain; RunMain; RunCloser; RunCloser;
   RunMain].


(** ** The IEEE-754 specification of the library

    [SpecFloat] is the library's specification of binary floating-point
    arithmetic; [ieee] is its binary64 instance, with the checks that
    compare it with [float64] on given operands. *)

Module ieee.
Import SpecFloat.

Definition value (x : spec_float) : option Q :=
  match x with
  | S754_zero _ => Some 0%Q
  | S754_finite s m e =>
    Some (Qred ((if s then -1 else 1) * inject_Z (Zpos m) * 2 ^ e)%Q)
  | _ => None
  end.

Definition of_int (n : Z) : spec_float := binary_normalize 53 1024 n 0 false.
Definition div : spec_float -> spec_float -> spec_float := SFdiv 53 1024.
Definition mul : spec_float -> spec_float -> spec_float := SFmul 53 1024.
Definition add : spec_float -> spec_float -> spec_float := SFadd 53 1024.

Definition same (x : spec_float) (y : Q) : bool :=
  match value x with
  | Some q => Qeq_bool q y
  | None => false
  end.

Definition agree_percent (current total : Z) : bool :=
  same (mul (div (of_int current) (of_int total)) (of_int 100))
       (float64.mul (percentage current total) (float64.of_int 100)).

Definition agree_Seconds (t : Duration) : bool :=
  same (add (of_int (Z.quot t 1000000000))
            (div (of_int (Z.rem t 1000000000)) (of_int 1000000000)))
       (Seconds t).

Definition upto (n : nat) : list Z := map Z.of_nat (seq 1 n).

End ieee.


(** ** The progress bar, the time column, the counts *)

(** The largest float64 below 1. *)
Definition below_one : Q := (1 - 1 / 2 ^ 53)%Q.

(** The float64 fraction of [j] hundredths of a second is [j/100] up to
    2^-50. *)
Definition fraction_ok (j : Z) : bool :=
  let f := float64.div (float64.of_int (j * 10000000)) (float64.of_int 1000000000) in
  Qle_bool (inject_Z j / 100 - 2 ^ (-50))%Q f && Qle_bool f (inject_Z j / 100 + 2 ^ (-50))%Q.

(** Reading a decimal text back. *)
Definition read_decimal (text : string) : option Z :=
  option_map Z.of_int (NilZero.int_of_string text).

(** The mark of a reachable endpoint in the status column. *)
Definition marked_reachable (row : Row) : bool := (cell_status row =? "✓")%string.

(** ** One worker, and workers at work *)

(** A worker whose [client.Get] is under way. *)
Definition getting (w : WorkerPC) : bool :=
  match w with
  | WGet _ => true
  | _ => false
  end.

(** The endpoints in the order they run through the pool when only one
    worker takes them: collected, in the result queue, with the worker,
    in the job queue, still to send. *)
Definition pipeline (hosts : list string) (s : State) : list string :=
  map Host (allResults s) ++ map Host (buf (results s)) ++
  flat_map holding (workers s) ++ buf (jobs s) ++ unsent hosts (pc s).

(** ** Runs of a program *)

(** The runs a program can make: a call may be answered in any way. *)
Fixpoint Runs {A : Type} (p : Prog A) (events : list Event) (o : Outcome A) : Prop :=
  match p with
  | Ret a => events = [] /\ o = Returned a
  | Do c k =>
    exists r rest, events = {| called := c; answer := r |} :: rest /\ Runs (k r) rest o
  | Panic => events = [] /\ o = Panicked
  end.

(** What a trace shows: the commands run with how they ended, the files
    written, the configurations marshalled with the text made of them,
    the lines printed and read. *)
Definition executed (e : Event) : list (string * list string * option string) :=
  match e with
  | {| called := c; answer := r |} =>
    match c return Resp c -> list (string * list string * option string) with
    | exec_Run name arg _ => fun r => [(name, arg, r)]
    | _ => fun _ => []
    end r
  end.

Definition written (e : Event) : list (string * string * Z * option string) :=
  match e with
  | {| called := c; answer := r |} =>
    match c return Resp c -> list (string * string * Z * option string) with
    | os_WriteFile name data perm => fun r => [(name, data, perm, r)]
    | _ => fun _ => []
    end r
  end.

Definition read (e : Event) : list string :=
  match e with
  | {| called := c; answer := r |} =>
    match c return Resp c -> list string with
    | ReadString => fun r => [r]
    | _ => fun _ => []
    end r
  end.

Definition marshalled (e : Event) : list (DaemonConfig * (string + string)) :=
  match e with
  | {| called := c; answer := r |} =>
    match c return Resp c -> list (DaemonConfig * (string + string)) with
    | json_MarshalIndent v => fun r => [(v, r)]
    | _ => fun _ => []
    end r
  end.

Definition printed (e : Event) : list string :=
  match called e with
  | Print text => [text]
  | _ => []
  end.

Definition printed_row (e : Event) : list Row :=
  match called e with
  | Printf_row row => [row]
  | _ => []
  end.

Definition scanned (e : Event) : list Z :=
  match e with
  | {| called := c; answer := r |} =>
    match c return Resp c -> list Z with
    | Scanln => fun r => [r]
    | _ => fun _ => []
    end r
  end.

Definition fetched (e : Event) : list (string * (Z + string)) :=
  match e with
  | {| called := c; answer := r |} =>
    match c return Resp c -> list (string * (Z + string)) with
    | http_Get url => fun r => [(url, r)]
    | _ => fun _ => []
    end r
  end.

(** A call that changes the machine: it writes below the file system or
    runs a shell command. *)
Definition changes (c : Call) : bool :=
  match c with
  | os_MkdirAll _ _ | os_WriteFile _ _ _ | os_Create _ | io_Copy _ => true
  | exec_Run name _ _ => (name =? "sh")%string
  | _ => false
  end.


(** The new mirrors [handleLinuxSystem] can make of the successful
    results: all of them, or one of them. *)
Definition selection (successResults : list CheckResult) (mirrors : list string) : Prop :=
  mirrors = map mirror successResults \/
  exists i result, successResults !! i = Some result /\ mirrors = [mirror result].

(** A line read from the terminal consents: lowered and trimmed it is
    [y] or [yes].  The lowered form is computed for ASCII lines only. *)
Definition lower_line (line : string) : string :=
  string_of_list_ascii (map lower (list_ascii_of_string line)).

Definition consents (line : string) : Prop :=
  isASCII line = true -> yes (strings.TrimSpace (lower_line line)) = true.


(** An event that runs no command, writes no file, marshals and scans
    nothing. *)
Definition harmless (e : Event) : Prop :=
  executed e = [] /\ written e = [] /\ marshalled e = [] /\ scanned e = [] /\
  fetched e = [] /\ read e = [] /\ printed_row e = [] /\ changes (called e) = false.

Fixpoint menu_events (i : Z) (successResults : list CheckResult) : list Event :=
  match successResults with
  | [] => []
  | result :: rest =>
    {| called := Print (menu_line i result); answer := tt |} :: menu_events (i + 1) rest
  end.


Definition copied (e : Event) : list (string * option string) :=
  match e with
  | {| called := c; answer := r |} =>
    match c return Resp c -> list (string * option string) with
    | io_Copy name => fun r => [(name, r)]
    | _ => fun _ => []
    end r
  end.

Definition opened (e : Event) : list (string * option string) :=
  match e with
  | {| called := c; answer := r |} =>
    match c return Resp c -> list (string * option string) with
    | os_Open name => fun r => [(name, r)]
    | _ => fun _ => []
    end r
  end.

Definition stat (e : Event) : list (string * StatError) :=
  match e with
  | {| called := c; answer := r |} =>
    match c return Resp c -> list (string * StatError) with
    | os_Stat name => fun r => [(name, r)]
    | _ => fun _ => []
    end r
  end.

Definition scans (e : Event) : list (list string * option string) :=
  match e with
  | {| called := c; answer := r |} =>
    match c return Resp c -> list (list string * option string) with
    | Scanner_Scan _ => fun r => [r]
    | _ => fun _ => []
    end r
  end.


(** The line that ends the report. *)
Definition summary_line (r : Report) : string :=
  nl +:+ "检测完成! (成功: " +:+ fmt.d (summary_success r) +:+ ", 总计: " +:+
  fmt.d (summary_total r) +:+ ")" +:+ nl.

Definition row_events (l : list CheckResult) : list Event :=
  map (fun result => {| called := Printf_row (render_row result); answer := tt |}) l.

(** ** Sample runs of the programs *)

(** A run with a single worker: the first check runs into the deadline,
    the second answers 200. *)
Definition single_schedule : list Action :=
  [RunMain; RunMain; RunMain; RunWorker 0;
   GetReturns 0 (GetError
     {| os_IsTimeout := true;
        Error := "Get " +:+ String "034" "https://mirror-a.example/v2/" +:+
                 String "034" ": context deadline exceeded (Client.Timeout exceeded while awaiting headers)" |});
   RunMain; RunMain; RunMain; RunWorker 0; RunMain; RunWorker 0;
   GetReturns 0 (GetResponse 200 50000000); RunWorker 0; RunWorker 0;
   RunCloser; RunMain; RunCloser; RunMain; RunMain].

(** The text [json.MarshalIndent] makes of a configuration whose mirrors
    need no escaping. *)
Definition quote : string := String "034" EmptyString.

Fixpoint json_items (mirrors : list string) : string :=
  match mirrors with
  | [] => ""
  | [m] => "        " +:+ quote +:+ m +:+ quote +:+ nl
  | m :: rest => "        " +:+ quote +:+ m +:+ quote +:+ "," +:+ nl +:+ json_items rest
  end.

Definition json_text (v : DaemonConfig) : string :=
  match RegistryMirrors v with
  | [] => "{}"
  | mirrors =>
    "{" +:+ nl +:+ "    " +:+ quote +:+ "registry-mirrors" +:+ quote +:+ ": [" +:+ nl +:+
    json_items mirrors +:+ "    ]" +:+ nl +:+ "}"
  end.

(** A machine on which every call succeeds: Docker is installed, there
    is no [daemon.json] yet, the download answers 200. *)
Definition willing (c : Call) : Resp c :=
  match c with
  | exec_Run _ _ _ => None
  | os_Stat _ => stat_NotExist
  | os_ReadFile _ => inl ""
  | os_MkdirAll _ _ => None
  | os_WriteFile _ _ _ => None
  | os_Create _ => None
  | os_Open _ => None
  | file_Close _ => tt
  | http_Get _ => inl 200
  | Body_Close => tt
  | io_Copy _ => None
  | json_Unmarshal _ => inl {| RegistryMirrors := [] |}
  | json_MarshalIndent v => inl (json_text v)
  | unicode_ToLower s => s
  | Print _ => tt
  | Printf_row _ => tt
  | ReadString => ""
  | ReadBytes => tt
  | Scanln => 0
  | Scanner_Scan _ => ([], None)
  end.

(** The same machine with a user who types [typed n] when the n-th call
    reads a line, and the number [number] at the menu. *)
Definition typing (typed : nat -> string) (number : Z) : World :=
  fun n c =>
    match c as c0 return Resp c0 with
    | ReadString => typed n +:+ nl
    | Scanln => number
    | c0 => willing c0
    end.

(** On Linux with two rows in the table: yes to the configuration, then
    the choice, then no to the restart. *)
Definition user (choice : string) : nat -> string :=
  fun n => if (n =? 6)%nat then "Y" else if (n =? 13)%nat then choice else "n".


(* ================================================================== *)
(** * Part III: properties *)
(* ================================================================== *)

(** ** Strings *)

Lemma append_cons c (s t : string) : String c s +:+ t = String c (s +:+ t).
Proof. reflexivity. Qed.

Lemma append_nil_l (s : string) : "" +:+ s = s.
Proof. reflexivity. Qed.

Lemma append_nil_r (s : string) : s +:+ "" = s.
Proof.
  induction s as [|c s IH]; [reflexivity|]. rewrite append_cons, IH. reflexivity.
Qed.

Lemma append_assoc (s1 s2 s3 : string) : (s1 +:+ s2) +:+ s3 = s1 +:+ (s2 +:+ s3).
Proof.
  induction s1 as [|c s1 IH]; [reflexivity|]. rewrite !append_cons, IH. reflexivity.
Qed.

(** ** One check *)

Lemma Host_worker_body host got : Host (worker_body host got) = host.
Proof.
  destruct got as [err|code elapsed]; simpl; [|reflexivity].
  destruct (os_IsTimeout err || strings.Contains (Error err) "timeout"); reflexivity.
Qed.

Lemma worker_body_error host err :
  worker_body host (GetError err) =
  {| Host := host; Available := false; Time := 0; StatusCode := 0;
     IsTimeout := os_IsTimeout err || strings.Contains (Error err) "timeout" |}.
Proof.
  simpl. destruct (os_IsTimeout err || strings.Contains (Error err) "timeout");
    reflexivity.
Qed.

Lemma worker_body_response host code elapsed :
  worker_body host (GetResponse code elapsed) =
  {| Host := host;
     Available := ((200 <=? code) && (code <? 400)) || (code =? 401);
     Time := elapsed; StatusCode := code; IsTimeout := false |}.
Proof. reflexivity. Qed.

(** C2.  A probe that obtains a response is reachable exactly when its
    status code lies in [200, 400) or is 401, and records that code; a
    probe that fails without a response has status code 0 and is not
    reachable. *)
Theorem worker_classifies_status (host : string) :
  (forall code elapsed,
      let result := worker_body host (GetResponse code elapsed) in
      StatusCode result = code /\
      (Available result = true <-> 200 <= code < 400 \/ code = 401)) /\
  (forall err,
      let result := worker_body host (GetError err) in
      StatusCode result = 0 /\ Available result = false).
Proof.
  split.
  - intros code elapsed result. subst result.
    rewrite worker_body_response. simpl. split; [reflexivity|].
    rewrite orb_true_iff, andb_true_iff, Z.leb_le, Z.ltb_lt, Z.eqb_eq. tauto.
  - intros err result. subst result. rewrite worker_body_error. simpl. tauto.
Qed.

(** The same at sample status codes. *)
Example status_200 :
  worker_body "mirror-a.example" (GetResponse 200 50000000) =
  {| Host := "mirror-a.example"; Available := true; Time := 50000000;
     StatusCode := 200; IsTimeout := false |}.
Proof. reflexivity. Qed.

Example status_401 : Available (worker_body "mirror-a.example" (GetResponse 401 1)) = true.
Proof. reflexivity. Qed.

Example status_500 :
  worker_body "mirror-a.example" (GetResponse 500 7) =
  {| Host := "mirror-a.example"; Available := false; Time := 7;
     StatusCode := 500; IsTimeout := false |}.
Proof. reflexivity. Qed.

Example status_400 : Available (worker_body "mirror-a.example" (GetResponse 400 1)) = false.
Proof. reflexivity. Qed.

(** C3.  What [worker] makes of a failed probe.  Whatever the error,
    the result is unreachable, has status code 0 and no elapsed time,
    and an error that reports a timeout is flagged as one.  The flag is
    also set when the word "timeout" stands anywhere in the text of the
    error, and that text quotes the URL: the connection to
    timeout.example.com that is refused at once reports no timeout and
    is flagged all the same, while the same refusal at mirror-b.example
    is not. *)
Theorem failed_probe_timeout_flag :
  (forall host err,
      let result := worker_body host (GetError err) in
      Available result = false /\ StatusCode result = 0 /\ Time result = 0 /\
      (IsTimeout result = true <->
       os_IsTimeout err = true \/ strings.Contains (Error err) "timeout" = true)) /\
  os_IsTimeout refused_at_timeout_example = false /\
  strings.Contains (Error refused_at_timeout_example) "connection refused" = true /\
  IsTimeout (worker_body "timeout.example.com" (GetError refused_at_timeout_example))
  = true /\
  IsTimeout (worker_body "mirror-b.example" (GetError refused_at_mirror_b)) = false.
Proof.
  split; [|repeat split].
  intros host err result. subst result. rewrite worker_body_error. simpl.
  rewrite orb_true_iff. tauto.
Qed.

Lemma produced_not_both result :
  produced result -> Available result && IsTimeout result = false.
Proof.
  intros (host & [err|code elapsed] & ->).
  - rewrite worker_body_error. reflexivity.
  - rewrite worker_body_response. simpl. apply andb_false_r.
Qed.

Lemma produced_status_zero result :
  produced result -> StatusCode result = 0 -> Available result = false.
Proof.
  intros (host & [err|code elapsed] & ->).
  - rewrite worker_body_error. reflexivity.
  - rewrite worker_body_response. simpl. intros ->. reflexivity.
Qed.

Lemma produced_timeout result :
  produced result -> IsTimeout result = true ->
  StatusCode result = 0 /\ Time result = 0.
Proof.
  intros (host & [err|code elapsed] & ->).
  - rewrite worker_body_error. simpl. tauto.
  - rewrite worker_body_response. simpl. discriminate.
Qed.

(** ** Reading the endpoint list *)

(** Strings are reversed as expected. *)
Lemma rev_app_append (s1 : string) : forall s2,
  String.rev_app s1 s2 = String.rev s1 +:+ s2.
Proof.
  unfold String.rev. induction s1 as [|c s1 IH]; intros s2; [reflexivity|].
  cbn [String.rev_app].
  rewrite (IH (String c s2)), (IH (String c "")), append_assoc. reflexivity.
Qed.

Lemma rev_cons c (s : string) : String.rev (String c s) = String.rev s +:+ String c "".
Proof. unfold String.rev at 1. cbn [String.rev_app]. apply rev_app_append. Qed.

Lemma rev_append (s1 s2 : string) :
  String.rev (s1 +:+ s2) = String.rev s2 +:+ String.rev s1.
Proof.
  induction s1 as [|c s1 IH].
  - rewrite append_nil_l, append_nil_r. reflexivity.
  - rewrite append_cons, !rev_cons, IH, append_assoc. reflexivity.
Qed.

Lemma rev_involutive (s : string) : String.rev (String.rev s) = s.
Proof.
  induction s as [|c s IH]; [reflexivity|].
  rewrite rev_cons, rev_append, IH. reflexivity.
Qed.

(** Trimming at the end only removes an end of the string. *)
Lemma TrimRightSpace_rev_suffix (n : nat) : forall r,
  (String.length r <= n)%nat ->
  exists cut, r = cut +:+ strings.TrimRightSpace_rev r.
Proof.
  induction n as [|n IH]; intros r Hn.
  - destruct r; [exists ""; reflexivity | simpl in Hn; lia].
  - destruct r as [|c1 r1]; [exists ""; reflexivity|]. simpl in Hn.
    cbn [strings.TrimRightSpace_rev].
    destruct (strings.space1 c1).
    { destruct (IH r1 ltac:(lia)) as [cut E]. exists (String c1 cut).
      rewrite !append_cons, <- E. reflexivity. }
    destruct r1 as [|c2 r2]; [exists ""; reflexivity|]. simpl in Hn.
    destruct (strings.space2 c2 c1).
    { destruct (IH r2 ltac:(lia)) as [cut E]. exists (String c1 (String c2 cut)).
      rewrite !append_cons, <- E. reflexivity. }
    destruct r2 as [|c3 r3]; [exists ""; reflexivity|]. simpl in Hn.
    destruct (strings.space3 c3 c2 c1).
    { destruct (IH r3 ltac:(lia)) as [cut E].
      exists (String c1 (String c2 (String c3 cut))).
      rewrite !append_cons, <- E. reflexivity. }
    exists "". reflexivity.
Qed.

Lemma TrimRightSpace_prefix (s : string) :
  exists cut, s = strings.TrimRightSpace s +:+ cut.
Proof.
  unfold strings.TrimRightSpace.
  destruct (TrimRightSpace_rev_suffix _ (String.rev s) (le_n _)) as [cut E].
  exists (String.rev cut).
  rewrite <- rev_append, <- E, rev_involutive. reflexivity.
Qed.

(** The comment marker is no part of an encoded white space rune. *)
Lemma hash_not_space2_l c : strings.space2 "#" c = false.
Proof. reflexivity. Qed.

Lemma hash_not_space3_l c2 c3 : strings.space3 "#" c2 c3 = false.
Proof. reflexivity. Qed.

(** Trimming at the end never reaches a comment marker. *)
Lemma TrimRightSpace_rev_hash (n : nat) : forall r0,
  (String.length r0 <= n)%nat ->
  exists r1, strings.TrimRightSpace_rev (r0 +:+ "#") = r1 +:+ "#".
Proof.
  induction n as [|n IH]; intros r0 Hn.
  - destruct r0; [exists ""; reflexivity | simpl in Hn; lia].
  - destruct r0 as [|c1 r]; [exists ""; reflexivity|]. simpl in Hn.
    rewrite append_cons. cbn [strings.TrimRightSpace_rev].
    destruct (strings.space1 c1); [apply IH; lia|].
    destruct r as [|c2 r].
    { rewrite append_nil_l, hash_not_space2_l. exists (String c1 ""). reflexivity. }
    simpl in Hn. rewrite append_cons.
    destruct (strings.space2 c2 c1); [apply IH; lia|].
    destruct r as [|c3 r].
    { rewrite append_nil_l, hash_not_space3_l.
      exists (String c1 (String c2 "")). reflexivity. }
    rewrite append_cons.
    simpl in Hn.
    destruct (strings.space3 c3 c2 c1); [apply IH; lia|].
    exists (String c1 (String c2 (String c3 r))). reflexivity.
Qed.

Lemma TrimRightSpace_hash (s : string) :
  exists rest, strings.TrimRightSpace (String "#" s) = String "#" rest.
Proof.
  unfold strings.TrimRightSpace. rewrite rev_cons.
  destruct (TrimRightSpace_rev_hash _ (String.rev s) (le_n _)) as [r1 E].
  rewrite E, rev_append. exists (String.rev r1). reflexivity.
Qed.

(** After trimming, a line starts with the comment marker exactly when
    its first character after the leading white space is the marker. *)
Lemma TrimSpace_hash (line : string) :
  (exists rest, strings.TrimSpace line = String "#" rest) <->
  (exists rest, strings.TrimLeftSpace line = String "#" rest).
Proof.
  unfold strings.TrimSpace. split.
  - intros [rest E].
    destruct (TrimRightSpace_prefix (strings.TrimLeftSpace line)) as [cut Hc].
    rewrite E, append_cons in Hc. eauto.
  - intros [rest E]. rewrite E. apply TrimRightSpace_hash.
Qed.

Lemma HasPrefix_hash host :
  strings.HasPrefix host "#" = true <-> exists rest, host = String "#" rest.
Proof.
  unfold strings.HasPrefix. destruct host as [|c rest]; cbn [String.prefix].
  - split; [discriminate | intros [? ?]; discriminate].
  - destruct (ascii_dec "#" c) as [<-|Hne].
    + split; [eauto|]. intros _. destruct rest; reflexivity.
    + split; [discriminate|]. intros [rest' E]. congruence.
Qed.

Lemma ignored_iff line :
  ignored line = true <->
  strings.TrimSpace line = "" \/
  exists rest, strings.TrimLeftSpace line = String "#" rest.
Proof.
  unfold ignored. cbv zeta.
  rewrite orb_true_iff, String.eqb_eq, HasPrefix_hash, TrimSpace_hash. tauto.
Qed.

Lemma scan_step_ignored hosts line :
  scan_step hosts line =
  if ignored line then hosts else hosts ++ [strings.TrimSpace line].
Proof.
  unfold scan_step, ignored. cbv zeta.
  destruct (strings.TrimSpace line =? "")%string; simpl; [reflexivity|].
  destruct (strings.HasPrefix (strings.TrimSpace line) "#"); reflexivity.
Qed.

Lemma scan_hosts_acc lines : forall hosts,
  fold_left scan_step lines hosts =
  hosts ++ map strings.TrimSpace (List.filter (fun line => negb (ignored line)) lines).
Proof.
  induction lines as [|line lines IH]; intros hosts; simpl.
  - rewrite app_nil_r. reflexivity.
  - rewrite IH, scan_step_ignored.
    destruct (ignored line); simpl; [reflexivity|].
    rewrite <- app_assoc. reflexivity.
Qed.


Lemma all_bytes_complete c : In c all_bytes.
Proof.
  unfold all_bytes. rewrite <- (ascii_nat_embedding c).
  apply in_map, in_seq. pose proof (nat_ascii_bounded c). lia.
Qed.

Lemma white_In w : white w = true -> In w white_space.
Proof.
  unfold white. intros H. apply existsb_exists in H. destruct H as (x & Hx & E).
  apply String.eqb_eq in E. subst x. exact Hx.
Qed.

Lemma space1_white c : strings.space1 c = true -> In (String c "") white_space.
Proof.
  assert (H : forallb (fun c => if strings.space1 c then white (String c "") else true)
                      all_bytes = true) by (vm_compute; reflexivity).
  intros E. rewrite forallb_forall in H. specialize (H c (all_bytes_complete c)).
  rewrite E in H. apply white_In, H.
Qed.

Lemma space2_continuation c1 c2 :
  strings.space2 c1 c2 = true -> utf8.continuation (byte_of c2) = true.
Proof.
  unfold strings.space2, utf8.rune2. cbv zeta.
  destruct (utf8.continuation (byte_of c2)); [reflexivity|].
  rewrite andb_false_r. discriminate.
Qed.

Lemma space3_continuation c1 c2 c3 :
  strings.space3 c1 c2 c3 = true ->
  lead3 c1 = true /\ utf8.continuation (byte_of c2) = true /\
  utf8.continuation (byte_of c3) = true.
Proof.
  unfold strings.space3, utf8.rune3, lead3. cbv zeta.
  destruct (_ && _ && _ && _ && utf8.continuation (byte_of c3)) eqn:E; [|discriminate].
  intros _. rewrite !andb_true_iff in E. destruct E as [[[[H1 H2] H3] H4] H5].
  rewrite H1, H2, H5. repeat split. unfold utf8.continuation.
  apply andb_true_iff. rewrite !Z.leb_le in *.
  destruct (byte_of c1 =? 224), (byte_of c1 =? 237); lia.
Qed.

Lemma space2_white c1 c2 :
  strings.space2 c1 c2 = true -> In (String c1 (String c2 "")) white_space.
Proof.
  assert (H : forallb (fun c1 => forallb (fun c2 =>
                if strings.space2 c1 c2 then white (String c1 (String c2 "")) else true)
                all_bytes) all_bytes = true) by (vm_compute; reflexivity).
  intros E. rewrite forallb_forall in H. specialize (H c1 (all_bytes_complete c1)).
  rewrite forallb_forall in H. specialize (H c2 (all_bytes_complete c2)).
  rewrite E in H. apply white_In, H.
Qed.

Lemma space3_white c1 c2 c3 :
  strings.space3 c1 c2 c3 = true ->
  In (String c1 (String c2 (String c3 ""))) white_space.
Proof.
  assert (H : forallb (fun c1 => if lead3 c1 then forallb (fun c2 =>
                if utf8.continuation (byte_of c2) then forallb (fun c3 =>
                  if strings.space3 c1 c2 c3
                  then white (String c1 (String c2 (String c3 ""))) else true) all_bytes
                else true) all_bytes else true) all_bytes = true)
    by (vm_compute; reflexivity).
  intros E. destruct (space3_continuation _ _ _ E) as (H1 & H2 & _).
  rewrite forallb_forall in H. specialize (H c1 (all_bytes_complete c1)).
  rewrite H1 in H.
  rewrite forallb_forall in H. specialize (H c2 (all_bytes_complete c2)).
  rewrite H2 in H.
  rewrite forallb_forall in H. specialize (H c3 (all_bytes_complete c3)).
  rewrite E in H. apply white_In, H.
Qed.

(** Going through the white space, one code point at a time. *)
Ltac each_space H :=
  unfold white_space in H; cbn [In] in H;
  repeat (destruct H as [H|H]; [symmetry in H; subst|]);
  try contradiction.

Lemma blank_one w : In w white_space -> blank w.
Proof.
  intros H. rewrite <- (append_nil_r w). apply blank_space; [exact H | constructor].
Qed.

Lemma blank_app a b : blank a -> blank b -> blank (a +:+ b).
Proof.
  intros Ha Hb. induction Ha as [|w s Hw _ IH]; [exact Hb|].
  rewrite append_assoc. apply blank_space; assumption.
Qed.

(** A blank string does not start with the second or third byte of an
    encoded rune. *)
Lemma blank_head c s : blank (String c s) -> utf8.continuation (byte_of c) = false.
Proof.
  intros H. remember (String c s) as t eqn:E. destruct H as [|w s' Hw _]; [discriminate|].
  each_space Hw; injection E as <- _; reflexivity.
Qed.

(** *** The start of a line *)

Lemma TrimLeftSpace_space w s :
  In w white_space -> strings.TrimLeftSpace (w +:+ s) = strings.TrimLeftSpace s.
Proof. intros H. each_space H; reflexivity. Qed.

Lemma TrimLeftSpace_blank pre s :
  blank pre -> strings.TrimLeftSpace (pre +:+ s) = strings.TrimLeftSpace s.
Proof.
  induction 1 as [|w p Hw _ IH]; [reflexivity|].
  rewrite append_assoc, TrimLeftSpace_space by exact Hw. exact IH.
Qed.

Lemma TrimLeftSpace_cut (n : nat) : forall s,
  (String.length s <= n)%nat ->
  exists pre, blank pre /\ s = pre +:+ strings.TrimLeftSpace s.
Proof.
  induction n as [|n IH]; intros s Hn.
  - destruct s; [exists ""; split; [constructor | reflexivity] | simpl in Hn; lia].
  - destruct s as [|c1 s1]; [exists ""; split; [constructor | reflexivity]|].
    simpl in Hn. cbn [strings.TrimLeftSpace].
    destruct (strings.space1 c1) eqn:E1.
    { destruct (IH s1 ltac:(lia)) as (pre & Hb & E).
      exists (String c1 "" +:+ pre). split.
      - apply blank_space; [apply space1_white, E1 | exact Hb].
      - rewrite append_assoc, <- E. reflexivity. }
    destruct s1 as [|c2 s2]; [exists ""; split; [constructor | reflexivity]|].
    simpl in Hn.
    destruct (strings.space2 c1 c2) eqn:E2.
    { destruct (IH s2 ltac:(lia)) as (pre & Hb & E).
      exists (String c1 (String c2 "") +:+ pre). split.
      - apply blank_space; [apply space2_white, E2 | exact Hb].
      - rewrite append_assoc, <- E. reflexivity. }
    destruct s2 as [|c3 s3]; [exists ""; split; [constructor | reflexivity]|].
    simpl in Hn.
    destruct (strings.space3 c1 c2 c3) eqn:E3.
    { destruct (IH s3 ltac:(lia)) as (pre & Hb & E).
      exists (String c1 (String c2 (String c3 "")) +:+ pre). split.
      - apply blank_space; [apply space3_white, E3 | exact Hb].
      - rewrite append_assoc, <- E. reflexivity. }
    exists "". split; [constructor | reflexivity].
Qed.

Lemma clean_start_fixed s : clean_start s = true -> strings.TrimLeftSpace s = s.
Proof.
  destruct s as [|c1 [|c2 [|c3 s3]]]; simpl; intros H; try reflexivity.
  - apply andb_true_iff in H. destruct H as [H _]. apply negb_true_iff in H.
    rewrite H. reflexivity.
  - apply andb_true_iff in H. destruct H as [H1 H]. apply andb_true_iff in H.
    destruct H as [H2 _]. apply negb_true_iff in H1, H2. rewrite H1, H2. reflexivity.
  - apply andb_true_iff in H. destruct H as [H1 H]. apply andb_true_iff in H.
    destruct H as [H2 H3]. apply negb_true_iff in H1, H2, H3. rewrite H1, H2, H3.
    reflexivity.
Qed.

Lemma clean_start_TrimLeftSpace (n : nat) : forall s,
  (String.length s <= n)%nat -> clean_start (strings.TrimLeftSpace s) = true.
Proof.
  induction n as [|n IH]; intros s Hn.
  - destruct s; [reflexivity | simpl in Hn; lia].
  - destruct s as [|c1 s1]; [reflexivity|]. simpl in Hn.
    cbn [strings.TrimLeftSpace].
    destruct (strings.space1 c1) eqn:E1; [apply IH; lia|].
    destruct s1 as [|c2 s2]; [simpl; rewrite E1; reflexivity|]. simpl in Hn.
    destruct (strings.space2 c1 c2) eqn:E2; [apply IH; lia|].
    destruct s2 as [|c3 s3]; [simpl; rewrite E1, E2; reflexivity|]. simpl in Hn.
    destruct (strings.space3 c1 c2 c3) eqn:E3; [apply IH; lia|].
    simpl. rewrite E1, E2, E3. reflexivity.
Qed.

Lemma clean_start_prefix s cut : clean_start (s +:+ cut) = true -> clean_start s = true.
Proof.
  destruct s as [|c1 [|c2 [|c3 s3]]]; try reflexivity.
  - rewrite append_cons, append_nil_l. simpl. intros H.
    apply andb_true_iff in H. destruct H as [-> _]. reflexivity.
  - rewrite !append_cons, append_nil_l. simpl. intros H.
    apply andb_true_iff in H. destruct H as [-> H]. simpl.
    destruct cut; [exact H|]. apply andb_true_iff in H. destruct H as [-> _]. reflexivity.
  - rewrite !append_cons. simpl. tauto.
Qed.

(** [clean_start] says that the string does not start with white space. *)
Lemma clean_start_spec s : clean_start s = true <-> ~ starts_with_space s.
Proof.
  split.
  - intros H (w & rest & Hw & ->). each_space Hw; vm_compute in H; discriminate H.
  - intros H. destruct s as [|c1 s1]; [reflexivity|]. cbn [clean_start].
    destruct (strings.space1 c1) eqn:E1.
    { exfalso. apply H. exists (String c1 ""), s1. split; [apply space1_white, E1 | reflexivity]. }
    destruct s1 as [|c2 s2]; [reflexivity|].
    destruct (strings.space2 c1 c2) eqn:E2.
    { exfalso. apply H. exists (String c1 (String c2 "")), s2.
      split; [apply space2_white, E2 | reflexivity]. }
    destruct s2 as [|c3 s3]; [reflexivity|].
    destruct (strings.space3 c1 c2 c3) eqn:E3; [|reflexivity].
    exfalso. apply H. exists (String c1 (String c2 (String c3 ""))), s3.
    split; [apply space3_white, E3 | reflexivity].
Qed.

(** White space after a string does not make the string start with
    white space. *)
Lemma clean_start_app e post :
  clean_start e = true -> e <> "" -> blank post -> clean_start (e +:+ post) = true.
Proof.
  intros H He Hb. destruct post as [|d1 post]; [rewrite append_nil_r; exact H|].
  pose proof (blank_head _ _ Hb) as Hd.
  assert (H2 : forall c, strings.space2 c d1 = false).
  { intros c. destruct (strings.space2 c d1) eqn:E; [|reflexivity].
    apply space2_continuation in E. congruence. }
  assert (H3 : forall c c', strings.space3 c d1 c' = false).
  { intros c c'. destruct (strings.space3 c d1 c') eqn:E; [|reflexivity].
    apply space3_continuation in E. destruct E as (_ & E & _). congruence. }
  assert (H3' : forall c c', strings.space3 c c' d1 = false).
  { intros c c'. destruct (strings.space3 c c' d1) eqn:E; [|reflexivity].
    apply space3_continuation in E. destruct E as (_ & _ & E). congruence. }
  destruct e as [|c1 [|c2 [|c3 e3]]]; [congruence| | |].
  - rewrite append_cons, append_nil_l. simpl in H |- *.
    rewrite andb_true_r in H. rewrite H, H2. simpl.
    destruct post; [reflexivity|]. rewrite H3. reflexivity.
  - rewrite !append_cons, append_nil_l. simpl in H |- *.
    rewrite andb_true_r in H. apply andb_true_iff in H. destruct H as [-> ->].
    rewrite H3'. reflexivity.
  - rewrite !append_cons. exact H.
Qed.

(** *** The end of a line *)

Lemma TrimRightSpace_rev_space w r :
  In w white_space ->
  strings.TrimRightSpace_rev (String.rev w +:+ r) = strings.TrimRightSpace_rev r.
Proof. intros H. each_space H; reflexivity. Qed.

Lemma TrimRightSpace_rev_blank post : forall r,
  blank post ->
  strings.TrimRightSpace_rev (String.rev post +:+ r) = strings.TrimRightSpace_rev r.
Proof.
  intros r H. revert r. induction H as [|w p Hw _ IH]; intros r; [reflexivity|].
  rewrite rev_append, append_assoc, IH. apply TrimRightSpace_rev_space, Hw.
Qed.

Lemma TrimRightSpace_rev_cut (n : nat) : forall r,
  (String.length r <= n)%nat ->
  exists post, blank post /\ r = String.rev post +:+ strings.TrimRightSpace_rev r.
Proof.
  induction n as [|n IH]; intros r Hn.
  - destruct r; [exists ""; split; [constructor | reflexivity] | simpl in Hn; lia].
  - destruct r as [|c1 r1]; [exists ""; split; [constructor | reflexivity]|].
    simpl in Hn. cbn [strings.TrimRightSpace_rev].
    destruct (strings.space1 c1) eqn:E1.
    { destruct (IH r1 ltac:(lia)) as (post & Hb & E).
      exists (post +:+ String c1 ""). split.
      - apply blank_app; [exact Hb | apply blank_one, space1_white, E1].
      - rewrite rev_append, append_assoc, <- E. reflexivity. }
    destruct r1 as [|c2 r2]; [exists ""; split; [constructor | reflexivity]|].
    simpl in Hn.
    destruct (strings.space2 c2 c1) eqn:E2.
    { destruct (IH r2 ltac:(lia)) as (post & Hb & E).
      exists (post +:+ String c2 (String c1 "")). split.
      - apply blank_app; [exact Hb | apply blank_one, space2_white, E2].
      - rewrite rev_append, append_assoc, <- E. reflexivity. }
    destruct r2 as [|c3 r3]; [exists ""; split; [constructor | reflexivity]|].
    simpl in Hn.
    destruct (strings.space3 c3 c2 c1) eqn:E3.
    { destruct (IH r3 ltac:(lia)) as (post & Hb & E).
      exists (post +:+ String c3 (String c2 (String c1 ""))). split.
      - apply blank_app; [exact Hb | apply blank_one, space3_white, E3].
      - rewrite rev_append, append_assoc, <- E. reflexivity. }
    exists "". split; [constructor | reflexivity].
Qed.

Lemma clean_end_rev_fixed r : clean_end_rev r = true -> strings.TrimRightSpace_rev r = r.
Proof.
  destruct r as [|c1 [|c2 [|c3 r3]]]; simpl; intros H; try reflexivity.
  - apply andb_true_iff in H. destruct H as [H _]. apply negb_true_iff in H.
    rewrite H. reflexivity.
  - apply andb_true_iff in H. destruct H as [H1 H]. apply andb_true_iff in H.
    destruct H as [H2 _]. apply negb_true_iff in H1, H2. rewrite H1, H2. reflexivity.
  - apply andb_true_iff in H. destruct H as [H1 H]. apply andb_true_iff in H.
    destruct H as [H2 H3]. apply negb_true_iff in H1, H2, H3. rewrite H1, H2, H3.
    reflexivity.
Qed.

Lemma clean_end_TrimRightSpace_rev (n : nat) : forall r,
  (String.length r <= n)%nat -> clean_end_rev (strings.TrimRightSpace_rev r) = true.
Proof.
  induction n as [|n IH]; intros r Hn.
  - destruct r; [reflexivity | simpl in Hn; lia].
  - destruct r as [|c1 r1]; [reflexivity|]. simpl in Hn.
    cbn [strings.TrimRightSpace_rev].
    destruct (strings.space1 c1) eqn:E1; [apply IH; lia|].
    destruct r1 as [|c2 r2]; [simpl; rewrite E1; reflexivity|]. simpl in Hn.
    destruct (strings.space2 c2 c1) eqn:E2; [apply IH; lia|].
    destruct r2 as [|c3 r3]; [simpl; rewrite E1, E2; reflexivity|]. simpl in Hn.
    destruct (strings.space3 c3 c2 c1) eqn:E3; [apply IH; lia|].
    simpl. rewrite E1, E2, E3. reflexivity.
Qed.

(** [clean_end_rev], on the reversed string, says that the string does
    not end with white space. *)
Lemma clean_end_spec s : clean_end_rev (String.rev s) = true <-> ~ ends_with_space s.
Proof.
  split.
  - intros H (w & front & Hw & ->). rewrite rev_append in H.
    revert H. generalize (String.rev front). intros r H.
    each_space Hw; vm_compute in H; discriminate H.
  - intros H. rewrite <- (rev_involutive s) in H.
    revert H. generalize (String.rev s). intros r H.
    destruct r as [|c1 r1]; [reflexivity|]. cbn [clean_end_rev].
    destruct (strings.space1 c1) eqn:E1.
    { exfalso. apply H. exists (String c1 ""), (String.rev r1).
      split; [apply space1_white, E1 | apply rev_cons]. }
    destruct r1 as [|c2 r2]; [reflexivity|].
    destruct (strings.space2 c2 c1) eqn:E2.
    { exfalso. apply H. exists (String c2 (String c1 "")), (String.rev r2).
      split; [apply space2_white, E2|]. rewrite !rev_cons, append_assoc. reflexivity. }
    destruct r2 as [|c3 r3]; [reflexivity|].
    destruct (strings.space3 c3 c2 c1) eqn:E3; [|reflexivity].
    exfalso. apply H. exists (String c3 (String c2 (String c1 ""))), (String.rev r3).
    split; [apply space3_white, E3|]. rewrite !rev_cons, !append_assoc. reflexivity.
Qed.

(** *** Trimming, in the words of the design *)

Lemma TrimSpace_blank line : blank line -> strings.TrimSpace line = "".
Proof.
  intros H. unfold strings.TrimSpace.
  rewrite <- (append_nil_r line), (TrimLeftSpace_blank line "" H). reflexivity.
Qed.

(** What [strings.TrimSpace] returns is the line trimmed. *)
Lemma trimmed_TrimSpace line : trimmed line (strings.TrimSpace line).
Proof.
  unfold strings.TrimSpace, strings.TrimRightSpace.
  set (l := strings.TrimLeftSpace line).
  destruct (TrimLeftSpace_cut _ line (le_n _)) as (pre & Hpre & E). fold l in E.
  destruct (TrimRightSpace_rev_cut _ (String.rev l) (le_n _)) as (post & Hpost & Er).
  assert (El : l = String.rev (strings.TrimRightSpace_rev (String.rev l)) +:+ post).
  { rewrite <- (rev_involutive l) at 1. rewrite Er at 1.
    rewrite rev_append, rev_involutive. reflexivity. }
  split; [|split].
  - apply clean_start_spec. apply (clean_start_prefix _ post). rewrite <- El.
    apply (clean_start_TrimLeftSpace _ _ (le_n _)).
  - apply clean_end_spec. rewrite rev_involutive.
    apply (clean_end_TrimRightSpace_rev _ _ (le_n _)).
  - exists pre, post. split; [exact Hpre|]. split; [exact Hpost|].
    rewrite <- El. exact E.
Qed.

(** And nothing else is. *)
Lemma TrimSpace_trimmed line host : trimmed line host -> strings.TrimSpace line = host.
Proof.
  intros (Hs & He & pre & post & Hpre & Hpost & ->).
  destruct host as [|c host'] eqn:Eh.
  { rewrite append_nil_l. apply TrimSpace_blank, blank_app; assumption. }
  rewrite <- Eh in *. assert (Hne : host <> "") by (rewrite Eh; discriminate).
  clear Eh. apply clean_start_spec in Hs. apply clean_end_spec in He.
  unfold strings.TrimSpace, strings.TrimRightSpace.
  rewrite (TrimLeftSpace_blank pre _ Hpre).
  rewrite (clean_start_fixed _ (clean_start_app host post Hs Hne Hpost)).
  rewrite rev_append, (TrimRightSpace_rev_blank post _ Hpost).
  rewrite (clean_end_rev_fixed _ He). apply rev_involutive.
Qed.

Lemma TrimLeftSpace_hash rest :
  strings.TrimLeftSpace (String "#" rest) = String "#" rest.
Proof.
  destruct rest as [|c2 [|c3 rest]]; cbn [strings.TrimLeftSpace];
    rewrite ?hash_not_space2_l, ?hash_not_space3_l; reflexivity.
Qed.

(** The lines the loop skips are the lines the design drops. *)
Lemma ignored_dropped line : ignored line = true <-> dropped line.
Proof.
  rewrite ignored_iff. unfold dropped. split.
  - intros [E|[rest E]].
    + left. destruct (trimmed_TrimSpace line) as (_ & _ & pre & post & Hpre & Hpost & El).
      rewrite E, append_nil_l in El. rewrite El. apply blank_app; assumption.
    + right. destruct (TrimLeftSpace_cut _ line (le_n _)) as (pre & Hpre & El).
      rewrite E in El. eauto.
  - intros [H|(pre & rest & Hpre & ->)].
    + left. apply TrimSpace_blank, H.
    + right. exists rest. rewrite (TrimLeftSpace_blank pre _ Hpre).
      apply TrimLeftSpace_hash.
Qed.

(** The list the loop builds is the list of endpoints of the file. *)
Lemma endpoints_scan_hosts lines hosts :
  endpoints lines hosts <-> hosts = scan_hosts lines.
Proof.
  unfold scan_hosts. rewrite (scan_hosts_acc lines []). cbn [app]. split.
  - induction 1 as [|line lines hosts Hd _ IH|line host lines hosts Hd Ht _ IH].
    + reflexivity.
    + apply ignored_dropped in Hd. cbn [List.filter]. rewrite Hd. exact IH.
    + cbn [List.filter]. destruct (ignored line) eqn:E.
      { exfalso. apply Hd, ignored_dropped, E. }
      cbn [negb map]. rewrite (TrimSpace_trimmed line host Ht), IH. reflexivity.
  - intros ->. induction lines as [|line lines IH]; [constructor|].
    cbn [List.filter]. destruct (ignored line) eqn:E; cbn [negb map].
    + apply endpoints_drop; [apply ignored_dropped, E | exact IH].
    + apply endpoints_keep; [|apply trimmed_TrimSpace | exact IH].
      intros Hd. apply ignored_dropped in Hd. congruence.
Qed.

(** An endpoint is never empty, carries no white space at either end,
    and does not start with the comment marker. *)
Lemma scan_hosts_clean lines :
  Forall (fun host => host <> "" /\ ~ starts_with_space host /\ ~ ends_with_space host /\
                      forall rest, host <> String "#" rest)
         (scan_hosts lines).
Proof.
  unfold scan_hosts. rewrite (scan_hosts_acc lines []). cbn [app].
  induction lines as [|line lines IH]; [constructor|].
  cbn [List.filter]. destruct (ignored line) eqn:E; cbn [negb map]; [exact IH|].
  constructor; [|exact IH].
  destruct (trimmed_TrimSpace line) as (Hs & He & _).
  unfold ignored in E. cbv zeta in E. apply orb_false_iff in E. destruct E as [E1 E2].
  split; [apply String.eqb_neq, E1|]. split; [exact Hs|]. split; [exact He|].
  intros rest Hr.
  assert (H : strings.HasPrefix (strings.TrimSpace line) "#" = true)
    by (apply HasPrefix_hash; eauto).
  congruence.
Qed.

(** C5.  The endpoint list is the input lines that are not ignored, each
    trimmed, in their original order and with their duplicates.  A line
    is ignored exactly when it is empty after trimming or its first
    character after the leading white space is '#'.  When no endpoint is
    left, [main] stops on the empty input before any channel or worker
    exists; otherwise it starts the pool on that list with nothing probed
    yet.  In the words of the design, with the white space of Unicode
    written out: the ignored lines are the [dropped] ones, made of white
    space only or with '#' as their first character that is no white
    space; trimming a line takes white space, and nothing else, from
    both ends until none is left there; the list is the list of
    [endpoints] of the file and no other; and no endpoint is empty,
    starts or ends with white space, or starts with '#'. *)
Theorem scan_hosts_keeps_endpoints (lines : list string) :
  scan_hosts lines =
    map strings.TrimSpace (List.filter (fun line => negb (ignored line)) lines) /\
  (forall line,
      ignored line = true <->
      strings.TrimSpace line = "" \/
      exists rest, strings.TrimLeftSpace line = String "#" rest) /\
  (scan_hosts lines = [] -> main_start lines false = EmptyInput) /\
  (forall hosts s,
      main_start lines false = Probing hosts s ->
      hosts = scan_hosts lines /\ hosts <> [] /\ s = start hosts /\ probed s = []) /\
  (forall line, ignored line = true <-> dropped line) /\
  (forall line host, strings.TrimSpace line = host <-> trimmed line host) /\
  (forall hosts, endpoints lines hosts <-> hosts = scan_hosts lines) /\
  Forall (fun host => host <> "" /\ ~ starts_with_space host /\ ~ ends_with_space host /\
                      forall rest, host <> String "#" rest)
         (scan_hosts lines).
Proof.
  split; [apply (scan_hosts_acc lines [])|].
  split; [apply ignored_iff|].
  unfold main_start. split; [|split].
  - intros ->. reflexivity.
  - intros hosts s. destruct (scan_hosts lines) as [|host rest] eqn:E; [discriminate|].
    intros H. simpl in H. injection H as <- <-. repeat split. discriminate.
  - split; [apply ignored_dropped|]. split; [|split].
    + intros line host. split; [intros <-; apply trimmed_TrimSpace | apply TrimSpace_trimmed].
    + apply endpoints_scan_hosts.
    + apply scan_hosts_clean.
Qed.

(** Tabs, carriage returns and the multi-byte spaces U+00A0 and U+3000
    are trimmed on both sides; a byte that only looks like the tail of
    such a rune is kept. *)
Example TrimSpace_unicode :
  strings.TrimSpace
    (String "009" (String "194" (String "160" ("mirror-a.example" +:+
       String "227" (String "128" (String "128" (String "013" "")))))))
  = "mirror-a.example".
Proof. reflexivity. Qed.

Example TrimSpace_stray_byte :
  strings.TrimSpace (" a" +:+ String "160" " ") = "a" +:+ String "160" "".
Proof. reflexivity. Qed.

(** The dispatch of the design's first scenario, with padded and
    repeated lines added. *)
Example scan_scenario :
  scan_hosts ["mirror-a.example"; "# comment"; ""; "  mirror-b.example ";
              "   #x"; "mirror-a.example"]
  = ["mirror-a.example"; "mirror-b.example"; "mirror-a.example"].
Proof. reflexivity. Qed.

(** The same list, as the endpoints of that file. *)
Example endpoints_scenario :
  endpoints ["mirror-a.example"; "# comment"; ""; "  mirror-b.example ";
             "   #x"; "mirror-a.example"]
            ["mirror-a.example"; "mirror-b.example"; "mirror-a.example"].
Proof. apply endpoints_scan_hosts. reflexivity. Qed.

(** ** The order on Go strings *)
Lemma ascii_compare_refl c : Ascii.compare c c = Eq.
Proof. unfold Ascii.compare. apply N.compare_refl. Qed.

Lemma ascii_compare_trans c1 c2 c3 :
  Ascii.compare c1 c2 = Lt -> Ascii.compare c2 c3 = Lt -> Ascii.compare c1 c3 = Lt.
Proof.
  unfold Ascii.compare. rewrite !N.compare_lt_iff. lia.
Qed.

Lemma string_compare_refl s : String.compare s s = Eq.
Proof.
  induction s as [|c s IH]; simpl; [reflexivity|].
  rewrite ascii_compare_refl. exact IH.
Qed.

Lemma string_compare_trans s1 : forall s2 s3,
  String.compare s1 s2 = Lt -> String.compare s2 s3 = Lt -> String.compare s1 s3 = Lt.
Proof.
  induction s1 as [|c1 s1 IH]; intros [|c2 s2] [|c3 s3]; simpl; try congruence.
  destruct (Ascii.compare c1 c2) eqn:E12; try discriminate;
  destruct (Ascii.compare c2 c3) eqn:E23; try discriminate; intros H1 H2.
  - apply Ascii.compare_eq_iff in E12, E23. subst.
    rewrite ascii_compare_refl. eapply IH; eassumption.
  - apply Ascii.compare_eq_iff in E12. subst. rewrite E23. reflexivity.
  - apply Ascii.compare_eq_iff in E23. subst. rewrite E12. reflexivity.
  - rewrite (ascii_compare_trans _ _ _ E12 E23). reflexivity.
Qed.

Lemma string_ltb_irrefl s : (s <? s)%string = false.
Proof. unfold String.ltb. rewrite string_compare_refl. reflexivity. Qed.

Lemma string_ltb_trans s1 s2 s3 :
  (s1 <? s2)%string = true -> (s2 <? s3)%string = true -> (s1 <? s3)%string = true.
Proof.
  unfold String.ltb. intros H1 H2.
  destruct (String.compare s1 s2) eqn:E1; try discriminate.
  destruct (String.compare s2 s3) eqn:E2; try discriminate.
  rewrite (string_compare_trans _ _ _ E1 E2). reflexivity.
Qed.

Lemma string_leb_ltb s1 s2 : (s1 <=? s2)%string = negb (s2 <? s1)%string.
Proof.
  unfold String.leb, String.ltb. rewrite (String.compare_antisym s2 s1).
  destruct (String.compare s1 s2); reflexivity.
Qed.

Lemma string_leb_trans s1 s2 s3 :
  (s1 <=? s2)%string = true -> (s2 <=? s3)%string = true -> (s1 <=? s3)%string = true.
Proof.
  unfold String.leb. intros H1 H2.
  destruct (String.compare s1 s2) eqn:E1; try discriminate;
  destruct (String.compare s2 s3) eqn:E2; try discriminate.
  - apply String.compare_eq_iff in E1, E2. subst. rewrite string_compare_refl. reflexivity.
  - apply String.compare_eq_iff in E1. subst. rewrite E2. reflexivity.
  - apply String.compare_eq_iff in E2. subst. rewrite E1. reflexivity.
  - rewrite (string_compare_trans _ _ _ E1 E2). reflexivity.
Qed.

Lemma less_Host_StrictWeak : sort.StrictWeak less_Host.
Proof.
  split; unfold less_Host.
  - intros a. apply string_ltb_irrefl.
  - intros a b c. apply string_ltb_trans.
  - intros a b c H1 H2.
    assert (L1 : (Host b <=? Host a)%string = true) by (rewrite string_leb_ltb, H1; reflexivity).
    assert (L2 : (Host c <=? Host b)%string = true) by (rewrite string_leb_ltb, H2; reflexivity).
    pose proof (string_leb_trans _ _ _ L2 L1) as L.
    rewrite string_leb_ltb in L. destruct (Host a <? Host c)%string; [discriminate | reflexivity].
Qed.

(** ** Insertion sort meets the contract of [sort.Slice] *)
Section Insertion.
Context {A : Type} (less : A -> A -> bool).

Lemma insert_Permutation a x : Permutation (sort.insert less a x) (a :: x).
Proof.
  induction x as [|b x IH]; simpl; [reflexivity|].
  destruct (less a b); [reflexivity|].
  rewrite IH. apply perm_swap.
Qed.

Lemma insertion_Permutation_acc x : forall acc,
  Permutation (fold_left (fun sorted a => sort.insert less a sorted) x acc) (x ++ acc).
Proof.
  induction x as [|a x IH]; intros acc; simpl; [reflexivity|].
  rewrite IH, insert_Permutation. symmetry. apply Permutation_middle.
Qed.

Lemma insertion_Permutation x : Permutation (sort.insertion less x) x.
Proof.
  unfold sort.insertion. rewrite insertion_Permutation_acc, app_nil_r. reflexivity.
Qed.

Hypothesis SW : sort.StrictWeak less.

Lemma less_asym a b : less a b = true -> less b a = false.
Proof.
  intros H. destruct (less b a) eqn:E; [|reflexivity].
  pose proof (sort.less_trans less SW _ _ _ H E) as T.
  rewrite (sort.less_irrefl less SW) in T. discriminate.
Qed.

Lemma insert_ascending a x :
  sort.ascending less x -> sort.ascending less (sort.insert less a x).
Proof.
  unfold sort.ascending. induction 1 as [|b x Hs IH Hd]; simpl.
  - repeat constructor.
  - destruct (less a b) eqn:E.
    + constructor; [constructor; assumption|]. constructor. apply less_asym, E.
    + constructor; [exact IH|].
      destruct Hd as [|c x Hbc]; simpl.
      * constructor. exact E.
      * destruct (less a c); constructor; assumption.
Qed.

Lemma insertion_ascending_acc x : forall acc,
  sort.ascending less acc ->
  sort.ascending less (fold_left (fun sorted a => sort.insert less a sorted) x acc).
Proof.
  induction x as [|a x IH]; intros acc Hacc; simpl; [exact Hacc|].
  apply IH, insert_ascending, Hacc.
Qed.

End Insertion.

Lemma insertion_ascending {A : Type} (less : A -> A -> bool) (x : list A) :
  sort.StrictWeak less -> sort.ascending less (sort.insertion less x).
Proof.
  intros SW. apply insertion_ascending_acc; [exact SW | constructor].
Qed.

Definition insertion_sorter : sort.Sorter :=
  {| sort.Slice := fun A less x => sort.insertion less x;
     sort.Slice_Permutation := fun A less x => insertion_Permutation less x;
     sort.Slice_ascending := fun A less x => insertion_ascending less x |}.

(** ** The report *)

#[local] Instance string_le_trans : Transitive string_le.
Proof. intros a b c. apply string_leb_trans. Qed.

#[local] Instance string_le_antisym : AntiSymm (=) string_le.
Proof. intros a b. apply String.leb_antisym. Qed.

#[local] Instance Host_le_trans : Transitive Host_le.
Proof. intros a b c. apply string_leb_trans. Qed.

Lemma select_success_acc l : forall acc,
  fold_left (fun display result =>
               if succeeded result then display ++ [result] else display) l acc
  = acc ++ List.filter succeeded l.
Proof.
  induction l as [|r l IH]; intros acc; simpl.
  - rewrite app_nil_r. reflexivity.
  - rewrite IH. destruct (succeeded r); [|reflexivity].
    rewrite <- app_assoc. reflexivity.
Qed.

Lemma select_success_filter l : select_success l = List.filter succeeded l.
Proof. unfold select_success. apply select_success_acc. Qed.

Lemma filter_Permutation' {A} (p : A -> bool) l1 l2 :
  Permutation l1 l2 -> Permutation (List.filter p l1) (List.filter p l2).
Proof.
  induction 1 as [|x l1 l2 H IH|x y l|l1 l2 l3 H1 IH1 H2 IH2]; simpl.
  - constructor.
  - destruct (p x); [constructor|]; exact IH.
  - destruct (p x), (p y); try reflexivity. apply perm_swap.
  - etransitivity; eassumption.
Qed.

Lemma filter_StronglySorted {A} (R : A -> A -> Prop) (p : A -> bool) l :
  StronglySorted R l -> StronglySorted R (List.filter p l).
Proof.
  induction 1 as [|x l Hs IH Hf]; simpl; [constructor|].
  destruct (p x); [|exact IH].
  constructor; [exact IH|].
  apply List.Forall_forall. intros y Hy.
  apply filter_In in Hy. destruct Hy as [Hy _].
  revert y Hy. apply List.Forall_forall, Hf.
Qed.

Lemma map_StronglySorted {A B} (f : A -> B) (R : B -> B -> Prop) l :
  StronglySorted (fun a b => R (f a) (f b)) l -> StronglySorted R (map f l).
Proof.
  induction 1 as [|x l Hs IH Hf]; simpl; constructor; [exact IH|].
  apply List.Forall_forall. intros y Hy.
  apply in_map_iff in Hy. destruct Hy as [z [<- Hz]].
  revert z Hz. apply List.Forall_forall, Hf.
Qed.

Lemma ascending_Host_le l : sort.ascending less_Host l -> StronglySorted Host_le l.
Proof.
  intros H. apply Sorted_StronglySorted; [apply Host_le_trans|].
  unfold sort.ascending in H. 
  eapply Sorted_ind with (P := fun l => Sorted Host_le l); [constructor| |exact H].
  intros a l' Hs IH Hd. constructor; [exact IH|].
  destruct Hd as [|b l'' Hab]; constructor.
  unfold Host_le, string_le. rewrite string_leb_ltb. unfold less_Host in Hab.
  rewrite Hab. reflexivity.
Qed.

Lemma sorted_hosts_unique (l1 l2 : list CheckResult) :
  Permutation l1 l2 -> StronglySorted Host_le l1 -> StronglySorted Host_le l2 ->
  map Host l1 = map Host l2.
Proof.
  intros HP H1 H2.
  apply (StronglySorted_unique string_le).
  - apply map_StronglySorted, H1.
  - apply map_StronglySorted, H2.
  - apply Permutation_map, HP.
Qed.

Lemma same_hosts_same_rows (l1 l2 : list CheckResult) :
  (forall a b, In a l1 -> In b l2 -> Host a = Host b -> a = b) ->
  map Host l1 = map Host l2 -> l1 = l2.
Proof.
  revert l2. induction l1 as [|a l1 IH]; intros [|b l2] Hinj E; simpl in *; try discriminate.
  - reflexivity.
  - injection E as E1 E2. f_equal.
    + apply Hinj; auto.
    + apply IH; [|exact E2]. intros; apply Hinj; auto.
Qed.

Lemma NoDup_map_inj {A B} (f : A -> B) l a b :
  List.NoDup (map f l) -> In a l -> In b l -> f a = f b -> a = b.
Proof.
  induction l as [|x l IH]; simpl; intros ND Ha Hb E; [tauto|].
  apply NoDup_cons_iff in ND. destruct ND as [Hnin ND].
  destruct Ha as [->|Ha], Hb as [->|Hb].
  - reflexivity.
  - exfalso. apply Hnin. rewrite E. apply in_map, Hb.
  - exfalso. apply Hnin. rewrite <- E. apply in_map, Ha.
  - apply IH; assumption.
Qed.

Section ReportFacts.
Variable sorter : sort.Sorter.

Lemma displayResults_Permutation listSuccess l :
  Permutation (displayResults sorter listSuccess l)
              (if listSuccess then List.filter succeeded l else l).
Proof.
  unfold displayResults. rewrite sort.Slice_Permutation.
  destruct listSuccess; [rewrite select_success_filter|]; reflexivity.
Qed.

Lemma displayResults_sorted listSuccess l :
  StronglySorted Host_le (displayResults sorter listSuccess l).
Proof.
  apply ascending_Host_le, sort.Slice_ascending, less_Host_StrictWeak.
Qed.

Lemma successes_of_full l :
  Permutation (displayResults sorter true l)
              (List.filter succeeded (displayResults sorter false l)).
Proof.
  rewrite (displayResults_Permutation true l). simpl.
  apply filter_Permutation'. symmetry. apply (displayResults_Permutation false l).
Qed.

End ReportFacts.

Lemma rows_hosts (l : list CheckResult) : map cell_Host (map render_row l) = map Host l.
Proof. rewrite map_map. reflexivity. Qed.

(** C6.  With [-l] the displayed results are exactly the collected
    results that are reachable and not timed out, each as often as it was
    collected; they are the successful part of the full view, and they
    stand in the same ascending order of endpoints: their endpoint
    column is the endpoint column of the full view's successful rows, and
    the two lists are equal when no endpoint was collected twice.  The
    code filters before it sorts; the statement compares with filtering
    the sorted full view. *)
Theorem successes_view_sorted_subset (sorter : sort.Sorter) (arrived : list CheckResult) :
  let full := displayResults sorter false arrived in
  let shown := displayResults sorter true arrived in
  Permutation shown (List.filter succeeded arrived) /\
  (forall result,
      In result shown <->
      In result arrived /\ Available result = true /\ IsTimeout result = false) /\
  Permutation shown (List.filter succeeded full) /\
  StronglySorted Host_le shown /\
  StronglySorted Host_le full /\
  map Host shown = map Host (List.filter succeeded full) /\
  (List.NoDup (map Host arrived) -> shown = List.filter succeeded full).
Proof.
  intros full shown.
  pose proof (displayResults_Permutation sorter true arrived) as Hshown.
  pose proof (displayResults_Permutation sorter false arrived) as Hfull.
  pose proof (successes_of_full sorter arrived) as Hsub.
  pose proof (displayResults_sorted sorter true arrived) as Ss.
  pose proof (displayResults_sorted sorter false arrived) as Sf.
  fold shown in Hshown, Hsub, Ss. fold full in Hfull, Hsub, Sf. simpl in Hshown, Hfull.
  assert (Hcol : map Host shown = map Host (List.filter succeeded full)).
  { apply sorted_hosts_unique; [exact Hsub | exact Ss |].
    apply filter_StronglySorted, Sf. }
  assert (Hmem : forall result,
             In result shown <->
             In result arrived /\ Available result = true /\ IsTimeout result = false).
  { intros result. split.
    - intros Hin. apply (Permutation_in _ Hshown), filter_In in Hin.
      destruct Hin as [Hin Hok]. unfold succeeded in Hok.
      apply andb_true_iff in Hok. destruct Hok as [Ha Ht].
      apply negb_true_iff in Ht. tauto.
    - intros (Hin & Ha & Ht). apply (Permutation_in _ (Permutation_sym Hshown)).
      apply filter_In. split; [exact Hin|]. unfold succeeded. rewrite Ha, Ht. reflexivity. }
  split; [exact Hshown|]. split; [exact Hmem|]. split; [exact Hsub|].
  split; [exact Ss|]. split; [exact Sf|]. split; [exact Hcol|].
  intros ND. apply same_hosts_same_rows; [|exact Hcol].
  intros a b Ha Hb. apply (NoDup_map_inj Host arrived); [exact ND | |].
  - apply (Permutation_in _ Hshown), filter_In in Ha. tauto.
  - apply filter_In in Hb. destruct Hb as [Hb _].
    apply (Permutation_in _ Hfull), Hb.
Qed.

(** C7.  Whatever order the results arrived in, the rows of the report
    stand in non-decreasing order of endpoint, every row before every
    later one, and the endpoint column does not depend on the arrival
    order. *)
Theorem report_rows_ascending (sorter : sort.Sorter) (listSuccess : bool)
  (arrived : list CheckResult) :
  StronglySorted (fun r1 r2 => string_le (cell_Host r1) (cell_Host r2))
                 (rows (report sorter listSuccess arrived)) /\
  (forall arrived',
      Permutation arrived arrived' ->
      map cell_Host (rows (report sorter listSuccess arrived')) =
      map cell_Host (rows (report sorter listSuccess arrived))).
Proof.
  unfold report. cbn [rows]. split.
  - pose proof (displayResults_sorted sorter listSuccess arrived) as S.
    induction S as [|r l Hs IH Hf]; simpl; constructor; [exact IH|].
    apply List.Forall_forall. intros row Hrow.
    apply in_map_iff in Hrow. destruct Hrow as (r' & <- & Hr').
    simpl. revert r' Hr'. apply List.Forall_forall, Hf.
  - intros arrived' HP. rewrite !rows_hosts.
    apply sorted_hosts_unique; try apply displayResults_sorted.
    rewrite !displayResults_Permutation.
    destruct listSuccess; [apply filter_Permutation'|]; symmetry; exact HP.
Qed.

(** The report of the design's scenario, without and with [-l]. *)
Example scenario_report :
  report insertion_sorter false scenario_results =
  {| rows := [ {| cell_Host := "mirror-a.example"; cell_status := "✓";
                  cell_statusCode := "200"; cell_timeStr := "0.05s" |};
               {| cell_Host := "mirror-b.example"; cell_status := "✗";
                  cell_statusCode := "-"; cell_timeStr := timeout_literal |} ];
     summary_success := 1; summary_total := 2 |}.
Proof. vm_compute. reflexivity. Qed.

Example scenario_report_successes :
  report insertion_sorter true scenario_results =
  {| rows := [ {| cell_Host := "mirror-a.example"; cell_status := "✓";
                  cell_statusCode := "200"; cell_timeStr := "0.05s" |} ];
     summary_success := 1; summary_total := 2 |}.
Proof. vm_compute. reflexivity. Qed.
(** ** float64 rounding is monotone *)

Module float64_facts.
Import float64.

Abbreviation pow2 k := (2 ^ k)%Q.

Lemma inject_Z_succ n : (inject_Z (n + 1) == inject_Z n + 1)%Q.
Proof. rewrite inject_Z_plus. reflexivity. Qed.

Lemma pow2_pos k : (0 < pow2 k)%Q.
Proof. apply Qpower_0_lt. reflexivity. Qed.

Lemma pow2_add a b : (pow2 (a + b) == pow2 a * pow2 b)%Q.
Proof. apply Qpower_plus. discriminate. Qed.

Lemma pow2_mono a b : a <= b -> (pow2 a <= pow2 b)%Q.
Proof. intros H. apply Qpower_le_compat_l; [exact H | discriminate]. Qed.

Lemma pow2_lt_inv a b : (pow2 a < pow2 b)%Q -> a < b.
Proof. intros H. apply (Qpower_lt_compat_l_inv 2); [exact H | reflexivity]. Qed.

Lemma pow2_Z k : 0 <= k -> (pow2 k == inject_Z (2 ^ k))%Q.
Proof. intros H. symmetry. apply (Zpower_Qpower 2 k H). Qed.

(** rne *)
Lemma rne_bounds x : (x - (1#2) <= inject_Z (rne x) <= x + (1#2))%Q.
Proof.
  unfold rne.
  pose proof (Qfloor_le x) as Hlo. pose proof (Qlt_floor x) as Hhi.
  rewrite inject_Z_succ in Hhi.
  destruct (Qcompare_spec (x - inject_Z (Qfloor x)) (1#2)) as [E|L|G].
  - destruct (Z.even (Qfloor x)); [|rewrite inject_Z_succ]; lra.
  - lra.
  - rewrite inject_Z_succ. lra.
Qed.

Lemma rne_comp x y : (x == y)%Q -> rne x = rne y.
Proof.
  intros E. unfold rne. rewrite (Qfloor_comp x y E).
  assert (Hc : ((x - inject_Z (Qfloor y) ?= 1#2) = (y - inject_Z (Qfloor y) ?= 1#2))%Q).
  { apply Qcompare_comp; [rewrite E|]; reflexivity. }
  rewrite Hc. reflexivity.
Qed.

Lemma rne_mono x y : (x <= y)%Q -> rne x <= rne y.
Proof.
  intros Hxy.
  destruct (Qeq_dec x y) as [E|NE].
  { rewrite (rne_comp x y E). lia. }
  assert (Hlt : (x < y)%Q) by (apply Qle_lteq in Hxy; tauto).
  pose proof (Qfloor_resp_le x y Hxy) as Hf.
  unfold rne.
  pose proof (Qfloor_le x) as Hxlo. pose proof (Qlt_floor x) as Hxhi.
  pose proof (Qfloor_le y) as Hylo. pose proof (Qlt_floor y) as Hyhi.
  rewrite inject_Z_succ in Hxhi, Hyhi.
  destruct (Z.eq_dec (Qfloor x) (Qfloor y)) as [Ef|Nf].
  - rewrite <- Ef in *.
    destruct (Qcompare_spec (x - inject_Z (Qfloor x)) (1#2)) as [E1|L1|G1];
    destruct (Qcompare_spec (y - inject_Z (Qfloor x)) (1#2)) as [E2|L2|G2];
    try lia; try (exfalso; lra);
    destruct (Z.even (Qfloor x)); lia.
  - assert (Qfloor x + 1 <= Qfloor y) by lia.
    destruct (Qcompare_spec (x - inject_Z (Qfloor x)) (1#2)) as [E1|L1|G1];
    destruct (Qcompare_spec (y - inject_Z (Qfloor y)) (1#2)) as [E2|L2|G2];
    try destruct (Z.even (Qfloor x)); try destruct (Z.even (Qfloor y)); lia.
Qed.

Lemma rne_Z n : rne (inject_Z n) = n.
Proof.
  unfold rne. rewrite Qfloor_Z.
  destruct (Qcompare_spec (inject_Z n - inject_Z n) (1#2)) as [E|L|G].
  - exfalso. lra.
  - reflexivity.
  - exfalso. lra.
Qed.

Lemma rne_Z' x n : (x == inject_Z n)%Q -> rne x = n.
Proof. intros E. rewrite (rne_comp _ _ E). apply rne_Z. Qed.

(** ilog2 *)
Lemma ilog2_spec x : (0 < x)%Q -> (pow2 (ilog2 x) <= x /\ x < pow2 (ilog2 x + 1))%Q.
Proof.
  intros Hx. destruct x as [n d]. 
  assert (Hn : 0 < n) by (unfold Qlt in Hx; simpl in Hx; lia).
  unfold ilog2. cbn [Qnum Qden].
  set (a := Z.log2 n). set (b := Z.log2 (Z.pos d)).
  destruct (Z.log2_spec n Hn) as [Ha1 Ha2]. fold a in Ha1, Ha2.
  destruct (Z.log2_spec (Z.pos d) ltac:(lia)) as [Hb1 Hb2]. fold b in Hb1, Hb2.
  assert (Ha0 : 0 <= a) by apply Z.log2_nonneg.
  assert (Hb0 : 0 <= b) by apply Z.log2_nonneg.
  assert (Hpa : 0 < 2 ^ a) by (apply Z.pow_pos_nonneg; lia).
  assert (Hpb : 0 < 2 ^ b) by (apply Z.pow_pos_nonneg; lia).
  rewrite Z.pow_succ_r in Ha2, Hb2 by lia.
  (* bounds in Q *)
  assert (Hlo : (pow2 (a - b - 1) <= n # d)%Q).
  { replace (a - b - 1) with (a - (b + 1)) by lia.
    rewrite Qpower_minus by discriminate.
    rewrite (pow2_Z a Ha0), (pow2_Z (b + 1)) by lia.
    rewrite Z.pow_add_r by lia. change (2 ^ 1) with 2.
    apply Qle_shift_div_r.
    { change 0%Q with (inject_Z 0). rewrite <- Zlt_Qlt. lia. }
    unfold Qle, Qmult, inject_Z. cbn [Qnum Qden]. nia. }
  assert (Hhi : (n # d < pow2 (a - b + 1))%Q).
  { replace (a - b + 1) with ((a + 1) - b) by lia.
    rewrite Qpower_minus by discriminate.
    rewrite (pow2_Z (a + 1)), (pow2_Z b) by lia.
    rewrite Z.pow_add_r by lia. change (2 ^ 1) with 2.
    apply Qlt_shift_div_l.
    { change 0%Q with (inject_Z 0). rewrite <- Zlt_Qlt. lia. }
    unfold Qlt, Qmult, inject_Z. cbn [Qnum Qden]. nia. }
  destruct (Qle_bool (pow2 (a - b)) (n # d)) eqn:Hc.
  - apply Qle_bool_iff in Hc. split; [exact Hc | exact Hhi].
  - split.
    + exact Hlo.
    + replace (a - b - 1 + 1) with (a - b) by lia.
      apply Qnot_le_lt. intros Hle. apply Qle_bool_iff in Hle. congruence.
Qed.

Lemma ilog2_mono x y : (0 < x)%Q -> (x <= y)%Q -> ilog2 x <= ilog2 y.
Proof.
  intros Hx Hxy.
  assert (Hy : (0 < y)%Q) by lra.
  destruct (ilog2_spec x Hx) as [H1 _]. destruct (ilog2_spec y Hy) as [_ H2].
  assert (H : (pow2 (ilog2 x) < pow2 (ilog2 y + 1))%Q) by lra.
  apply pow2_lt_inv in H. lia.
Qed.

Lemma ilog2_comp x y : (0 < x)%Q -> (x == y)%Q -> ilog2 x = ilog2 y.
Proof.
  intros Hx E. assert (Hy : (0 < y)%Q) by lra.
  pose proof (ilog2_mono x y Hx ltac:(lra)).
  pose proof (ilog2_mono y x Hy ltac:(lra)). lia.
Qed.

Lemma scaled_lt x : (0 < x)%Q -> (x / pow2 (expo x) < pow2 53)%Q.
Proof.
  intros Hx. destruct (ilog2_spec x Hx) as [_ H].
  apply Qlt_shift_div_r; [apply pow2_pos|].
  rewrite <- pow2_add.
  eapply Qlt_le_trans; [exact H|]. apply pow2_mono. unfold expo. lia.
Qed.

Lemma rne_pow2 k : 0 <= k -> rne (pow2 k) = 2 ^ k.
Proof. intros H. apply rne_Z'. apply pow2_Z, H. Qed.

Lemma round_pos_mono x y : (0 < x)%Q -> (x <= y)%Q -> (round_pos x <= round_pos y)%Q.
Proof.
  intros Hx Hxy. assert (Hy : (0 < y)%Q) by lra.
  unfold round_pos.
  pose proof (ilog2_mono x y Hx Hxy) as Hl.
  assert (He : expo x <= expo y) by (unfold expo; lia).
  destruct (Z.eq_dec (expo x) (expo y)) as [E|NE].
  - rewrite <- E.
    apply Qmult_le_compat_r; [|apply Qlt_le_weak, pow2_pos].
    rewrite <- Zle_Qle. apply rne_mono.
    apply Qmult_le_compat_r; [exact Hxy|].
    apply Qlt_le_weak, Qinv_lt_0_compat, pow2_pos.
  - assert (Hey : expo y = ilog2 y - 52) by (unfold expo in *; lia).
    apply Qle_trans with (pow2 (expo x + 53)).
      rewrite Z.add_comm, pow2_add.
      apply Qmult_le_compat_r; [|apply Qlt_le_weak, pow2_pos].
      rewrite (pow2_Z 53) by lia. rewrite <- Zle_Qle.
      rewrite <- (rne_pow2 53) by lia.
      apply rne_mono, Qlt_le_weak, scaled_lt, Hx.
    + apply Qle_trans with (pow2 (expo y + 52)); [apply pow2_mono; lia|].
      rewrite Z.add_comm, pow2_add.
      apply Qmult_le_compat_r; [|apply Qlt_le_weak, pow2_pos].
      rewrite (pow2_Z 52) by lia. rewrite <- Zle_Qle.
      rewrite <- (rne_pow2 52) by lia.
      apply rne_mono. apply Qle_shift_div_l; [apply pow2_pos|].
      rewrite <- pow2_add. destruct (ilog2_spec y Hy) as [H _].
      replace (52 + expo y) with (ilog2 y) by lia. exact H.
Qed.

Lemma Qnum_pos x : (0 < x)%Q -> exists p, Qnum x = Zpos p.
Proof.
  destruct x as [[|p|p] d]; unfold Qlt; simpl; intros H; try lia. eauto.
Qed.

Lemma rne_nonneg x : (0 <= x)%Q -> 0 <= rne x.
Proof. intros H. rewrite <- (rne_Z 0). apply rne_mono, H. Qed.

Lemma round_pos_nonneg x : (0 < x)%Q -> (0 <= round_pos x)%Q.
Proof.
  intros Hx. unfold round_pos.
  apply Qmult_le_0_compat; [|apply Qlt_le_weak, pow2_pos].
  change 0%Q with (inject_Z 0). rewrite <- Zle_Qle. apply rne_nonneg.
  apply Qlt_le_weak, Qlt_shift_div_l; [apply pow2_pos|lra].
Qed.

Lemma round_pos_comp x y : (0 < x)%Q -> (x == y)%Q -> (round_pos x == round_pos y)%Q.
Proof.
  intros Hx E. unfold round_pos, expo. rewrite (ilog2_comp x y Hx E).
  rewrite (rne_comp (x / _) (y / pow2 (Z.max (ilog2 y - 52) (-1074)))).
  - reflexivity.
  - rewrite E. reflexivity.
Qed.

Lemma round_of_pos x : (0 < x)%Q -> (round x == round_pos x)%Q.
Proof.
  intros Hx. unfold round. destruct (Qnum_pos x Hx) as [p ->]. apply Qred_correct.
Qed.

Lemma round_of_zero x : (x == 0)%Q -> round x = 0%Q.
Proof.
  intros E. unfold round.
  assert (Qnum x = 0) as ->; [|reflexivity].
  destruct x as [n d]. unfold Qeq in E. simpl in *. lia.
Qed.

Lemma round_comp x y : (x == y)%Q -> round x = round y.
Proof.
  intros E. unfold round. apply Qred_complete.
  destruct x as [[|p|p] d], y as [[|q|q] d']; cbn [Qnum];
    try reflexivity; try (exfalso; unfold Qeq in E; simpl in E; lia).
  - apply round_pos_comp; [reflexivity | exact E].
  - apply Qopp_comp, round_pos_comp; [reflexivity | rewrite E; reflexivity].
Qed.

Lemma round_nonneg x : (0 <= x)%Q -> (0 <= round x)%Q.
Proof.
  intros Hx. destruct (Qeq_dec x 0) as [E|NE].
  - rewrite (round_of_zero x E). lra.
  - assert (H : (0 < x)%Q) by (apply Qle_lteq in Hx; destruct Hx as [?|E]; [assumption|]; exfalso; apply NE; symmetry; exact E).
    rewrite (round_of_pos x H). apply round_pos_nonneg, H.
Qed.

Lemma round_mono x y : (0 <= x)%Q -> (x <= y)%Q -> (round x <= round y)%Q.
Proof.
  intros Hx Hxy. destruct (Qeq_dec x 0) as [E|NE].
  - rewrite (round_of_zero x E). apply round_nonneg. lra.
  - assert (H : (0 < x)%Q) by (apply Qle_lteq in Hx; destruct Hx as [?|E]; [assumption|]; exfalso; apply NE; symmetry; exact E).
    rewrite (round_of_pos x H), (round_of_pos y) by lra.
    apply round_pos_mono; assumption.
Qed.

Lemma round_1 : round 1 = 1%Q.
Proof. vm_compute. reflexivity. Qed.

Lemma of_int_40 : of_int 40 = 40%Q.
Proof. vm_compute. reflexivity. Qed.

Lemma of_int_100 : of_int 100 = 100%Q.
Proof. vm_compute. reflexivity. Qed.

Lemma of_int_mono a b : 0 <= a -> a <= b -> (of_int a <= of_int b)%Q.
Proof.
  intros Ha Hab. unfold of_int. apply round_mono.
  - change 0%Q with (inject_Z 0). rewrite <- Zle_Qle. exact Ha.
  - rewrite <- Zle_Qle. exact Hab.
Qed.

Lemma of_int_ge_1 n : 1 <= n -> (1 <= of_int n)%Q.
Proof.
  intros H. rewrite <- round_1. change (round 1) with (of_int 1).
  apply of_int_mono; lia.
Qed.

Lemma div_mono a b t : (0 <= a)%Q -> (a <= b)%Q -> (0 < t)%Q -> (div a t <= div b t)%Q.
Proof.
  intros Ha Hab Ht. unfold div. apply round_mono.
  - apply Qle_shift_div_l; [exact Ht | lra].
  - apply Qmult_le_compat_r; [exact Hab|]. apply Qlt_le_weak, Qinv_lt_0_compat, Ht.
Qed.

Lemma div_self t : (0 < t)%Q -> div t t = 1%Q.
Proof.
  intros Ht. unfold div. rewrite <- round_1. apply round_comp.
  field. lra.
Qed.

Lemma mul_mono_l a b k : (0 <= a)%Q -> (a <= b)%Q -> (0 <= k)%Q -> (mul a k <= mul b k)%Q.
Proof.
  intros Ha Hab Hk. unfold mul. apply round_mono.
  - apply Qmult_le_0_compat; assumption.
  - apply Qmult_le_compat_r; assumption.
Qed.

Lemma mul_mono_r a b k : (0 <= a)%Q -> (a <= b)%Q -> (0 <= k)%Q -> (mul k a <= mul k b)%Q.
Proof.
  intros Ha Hab Hk. unfold mul. apply round_mono.
  - apply Qmult_le_0_compat; assumption.
  - rewrite !(Qmult_comm k). apply Qmult_le_compat_r; assumption.
Qed.

End float64_facts.

(** ** The progress indicator *)

Import float64 float64_facts.

Lemma percentage_nonneg c t : 1 <= c -> 1 <= t -> (0 <= percentage c t)%Q.
Proof.
  intros Hc Ht. unfold percentage, div. apply round_nonneg.
  pose proof (of_int_ge_1 c Hc). pose proof (of_int_ge_1 t Ht).
  apply Qle_shift_div_l; lra.
Qed.

Lemma percentage_mono c1 c2 t :
  1 <= c1 -> c1 <= c2 -> 1 <= t -> (percentage c1 t <= percentage c2 t)%Q.
Proof.
  intros H1 H12 Ht. unfold percentage.
  pose proof (of_int_ge_1 c1 H1). pose proof (of_int_ge_1 t Ht).
  apply div_mono; [lra | apply of_int_mono; lia | lra].
Qed.

Lemma percentage_full t : 1 <= t -> percentage t t = 1%Q.
Proof.
  intros Ht. unfold percentage. apply div_self.
  pose proof (of_int_ge_1 t Ht). lra.
Qed.

Lemma percentage_le_1 c t : 1 <= c -> c <= t -> (percentage c t <= 1)%Q.
Proof.
  intros Hc Hct. rewrite <- (percentage_full t) by lia.
  apply percentage_mono; lia.
Qed.

Lemma progress_tenths_mono c1 c2 t :
  1 <= c1 -> c1 <= c2 -> 1 <= t -> progress_tenths c1 t <= progress_tenths c2 t.
Proof.
  intros H1 H12 Ht. unfold progress_tenths, fmt.fixed.
  apply rne_mono. apply Qmult_le_compat_r; [|discriminate].
  rewrite of_int_100. apply mul_mono_l.
  - apply percentage_nonneg; lia.
  - apply percentage_mono; lia.
  - discriminate.
Qed.

Lemma progress_tenths_full t : 1 <= t -> progress_tenths t t = 1000.
Proof.
  intros Ht. unfold progress_tenths. rewrite percentage_full by exact Ht.
  vm_compute. reflexivity.
Qed.

Lemma progress_text_full t : 1 <= t -> progress_text t t = "100.0".
Proof.
  intros Ht. unfold progress_text. rewrite percentage_full by exact Ht.
  vm_compute. reflexivity.
Qed.

Lemma to_int_nonneg x : (0 <= x)%Q -> to_int x = Qfloor x.
Proof.
  intros H. destruct x as [n d]. unfold to_int, Qfloor. cbn [Qnum Qden].
  apply Z.quot_div_nonneg; [|lia]. unfold Qle in H. simpl in H. lia.
Qed.

Lemma showProgress_prints c t :
  1 <= c -> c <= t -> exists line, showProgress c t = Some line.
Proof.
  intros Hc Hct. unfold showProgress.
  set (x := mul (of_int 40) (percentage c t)).
  assert (H0 : (0 <= x)%Q).
  { apply round_nonneg, Qmult_le_0_compat; [rewrite of_int_40; discriminate|].
    apply percentage_nonneg; lia. }
  assert (H40 : (x <= 40)%Q).
  { assert (E : mul (of_int 40) 1 = 40%Q) by (vm_compute; reflexivity).
    rewrite <- E. apply mul_mono_r.
    - apply percentage_nonneg; lia.
    - apply percentage_le_1; lia.
    - rewrite of_int_40. discriminate. }
  rewrite (to_int_nonneg x H0).
  pose proof (Qfloor_resp_le _ _ H0) as L. pose proof (Qfloor_resp_le _ _ H40) as U.
  change (Qfloor 0) with 0 in L. change (Qfloor 40) with 40 in U.
  destruct ((Qfloor x <? 0) || (40 - Qfloor x <? 0)) eqn:E.
  - exfalso. apply orb_true_iff in E. destruct E as [E|E]; apply Z.ltb_lt in E; lia.
  - eauto.
Qed.

Lemma filled_floor c t :
  1 <= c -> 1 <= t ->
  filled c t = Qfloor (mul (of_int 40) (percentage c t)).
Proof.
  intros Hc Ht. unfold filled. apply to_int_nonneg.
  apply round_nonneg, Qmult_le_0_compat; [rewrite of_int_40; discriminate|].
  apply percentage_nonneg; lia.
Qed.

Lemma filled_mono c1 c2 t :
  1 <= c1 -> c1 <= c2 -> 1 <= t -> filled c1 t <= filled c2 t.
Proof.
  intros H1 H12 Ht. rewrite !filled_floor by lia.
  apply Qfloor_resp_le, mul_mono_r.
  - apply percentage_nonneg; lia.
  - apply percentage_mono; lia.
  - rewrite of_int_40. discriminate.
Qed.

Lemma filled_full t : 1 <= t -> filled t t = 40.
Proof.
  intros Ht. unfold filled. rewrite percentage_full by exact Ht.
  vm_compute. reflexivity.
Qed.

Lemma filled_nonneg c t : 1 <= c -> 1 <= t -> 0 <= filled c t.
Proof.
  intros Hc Ht. rewrite filled_floor by lia.
  change 0 with (Qfloor 0). apply Qfloor_resp_le.
  apply round_nonneg, Qmult_le_0_compat; [rewrite of_int_40; discriminate|].
  apply percentage_nonneg; lia.
Qed.

Lemma showProgress_line c t :
  1 <= c -> c <= t ->
  showProgress c t = Some (progress_line (filled c t) c t).
Proof.
  intros Hc Hct. unfold showProgress. fold (filled c t).
  pose proof (filled_nonneg c t Hc ltac:(lia)) as H0.
  pose proof (filled_mono c t t Hc Hct ltac:(lia)) as H40.
  rewrite filled_full in H40 by lia.
  destruct ((filled c t <? 0) || (40 - filled c t <? 0)) eqn:E.
  - exfalso. apply orb_true_iff in E. destruct E as [E|E]; apply Z.ltb_lt in E; lia.
  - reflexivity.
Qed.

Lemma progress_value_nonneg c t :
  1 <= c -> 1 <= t -> (0 <= mul (percentage c t) (of_int 100))%Q.
Proof.
  intros Hc Ht. apply round_nonneg, Qmult_le_0_compat.
  - apply percentage_nonneg; lia.
  - rewrite of_int_100. discriminate.
Qed.

Lemma progress_tenths_bounds c t :
  1 <= c -> c <= t -> 0 <= progress_tenths c t <= 1000.
Proof.
  intros Hc Hct. split.
  - unfold progress_tenths, fmt.fixed. apply rne_nonneg.
    apply Qmult_le_0_compat; [apply progress_value_nonneg; lia | discriminate].
  - rewrite <- (progress_tenths_full t) by lia. apply progress_tenths_mono; lia.
Qed.

Lemma digit_length k : 0 <= k < 10 -> String.length (fmt.d k) = 1%nat.
Proof.
  intros H.
  assert (E : k = 0 \/ k = 1 \/ k = 2 \/ k = 3 \/ k = 4 \/ k = 5 \/ k = 6 \/ k = 7 \/
              k = 8 \/ k = 9) by lia.
  repeat (destruct E as [->|E]; [reflexivity|]). subst k. reflexivity.
Qed.

(** The text of the percentage is its number of tenths, written with
    one digit after the point. *)
Lemma progress_text_tenths c t :
  1 <= c -> c <= t ->
  progress_text c t =
  fmt.d (progress_tenths c t / 10) +:+ "." +:+ fmt.d (progress_tenths c t mod 10).
Proof.
  intros Hc Hct. pose proof (progress_tenths_bounds c t Hc Hct) as [H0 _].
  pose proof (progress_value_nonneg c t Hc ltac:(lia)) as Hx.
  unfold progress_text, fmt.f. cbv zeta. fold (progress_tenths c t).
  change (fmt.scale 1) with 10.
  assert (Hs : (Qnum (mul (percentage c t) (of_int 100)) <? 0) = false).
  { apply Z.ltb_ge. destruct (mul (percentage c t) (of_int 100)) as [n d].
    unfold Qle in Hx. simpl in Hx |- *. lia. }
  rewrite Hs, Z.abs_eq by exact H0.
  rewrite (digit_length (progress_tenths c t mod 10))
    by (apply Z.mod_pos_bound; lia).
  reflexivity.
Qed.

(** *** Rounding errors *)

Lemma inject_Z_nonneg n : 0 <= n -> (0 <= inject_Z n)%Q.
Proof. intros H. change 0%Q with (inject_Z 0). rewrite <- Zle_Qle. exact H. Qed.

Lemma of_int_exact n : 0 <= n < 2 ^ 53 -> (of_int n == inject_Z n)%Q.
Proof.
  intros [H0 H53]. unfold of_int.
  destruct (Z.eq_dec n 0) as [->|Hn]; [reflexivity|].
  assert (Hpos : (0 < inject_Z n)%Q).
  { change 0%Q with (inject_Z 0). rewrite <- Zlt_Qlt. lia. }
  rewrite (round_of_pos _ Hpos). unfold round_pos.
  destruct (ilog2_spec _ Hpos) as [Hlo _].
  assert (Hlog : ilog2 (inject_Z n) < 53).
  { apply pow2_lt_inv. eapply Qle_lt_trans; [exact Hlo|].
    rewrite (pow2_Z 53) by lia. rewrite <- Zlt_Qlt. exact H53. }
  set (e := expo (inject_Z n)).
  assert (He : e <= 0) by (unfold e, expo; lia).
  assert (Hinv : (pow2 (- e) * pow2 e == 1)%Q).
  { rewrite <- pow2_add. replace (- e + e) with 0 by lia. reflexivity. }
  assert (Hscaled : (inject_Z n / pow2 e == inject_Z (n * 2 ^ (- e)))%Q).
  { rewrite inject_Z_mult, <- (pow2_Z (- e)) by lia.
    pose proof (pow2_pos e) as Hp.
    apply Qmult_inj_r with (z := pow2 e); [lra|].
    rewrite <- Qmult_assoc, Hinv. field. lra. }
  rewrite (rne_Z' _ _ Hscaled), inject_Z_mult, <- (pow2_Z (- e)) by lia.
  rewrite <- Qmult_assoc, Hinv. ring.
Qed.

(** Rounding moves a value by at most half a unit in its last place. *)
Lemma round_pos_error x :
  (0 < x)%Q ->
  (x - pow2 (expo x) * (1 # 2) <= round_pos x <= x + pow2 (expo x) * (1 # 2))%Q.
Proof.
  intros Hx. unfold round_pos. set (e := expo x).
  pose proof (pow2_pos e) as Hp.
  pose proof (rne_bounds (x / pow2 e)) as [Hlo Hhi].
  assert (Elo : ((x / pow2 e - (1 # 2)) * pow2 e == x - pow2 e * (1 # 2))%Q) by (field; lra).
  assert (Ehi : ((x / pow2 e + (1 # 2)) * pow2 e == x + pow2 e * (1 # 2))%Q) by (field; lra).
  rewrite <- Elo, <- Ehi.
  split; apply Qmult_le_compat_r; lra.
Qed.

Lemma round_error_small x :
  (0 <= x)%Q -> (x < pow2 36)%Q ->
  (x - pow2 (-18) <= round x <= x + pow2 (-18))%Q.
Proof.
  intros H0 H36.
  destruct (Qeq_dec x 0) as [E|Hne].
  - rewrite (round_of_zero x E), E. split; vm_compute; discriminate.
  - assert (Hx : (0 < x)%Q) by lra.
    rewrite (round_of_pos x Hx).
    pose proof (round_pos_error x Hx) as [Hlo Hhi].
    destruct (ilog2_spec x Hx) as [Hl _].
    assert (Hlog : ilog2 x < 36).
    { apply pow2_lt_inv. eapply Qle_lt_trans; [exact Hl | exact H36]. }
    assert (He : (pow2 (expo x) <= pow2 (-17))%Q).
    { apply pow2_mono. unfold expo. lia. }
    assert (E17 : (pow2 (-17) * (1 # 2) == pow2 (-18))%Q) by (vm_compute; reflexivity).
    pose proof (pow2_pos (expo x)).
    revert Hlo Hhi He E17 H.
    generalize (pow2 (expo x)) (pow2 (-17)) (pow2 (-18)) (round_pos x).
    intros a b c r Hlo Hhi He E17 H. clear - Hlo Hhi He E17 H. split; lra.
Qed.

(** The percentage printed is the share of the endpoints checked, to
    within a tenth of a percent. *)
Lemma progress_tenths_accurate c t :
  1 <= c -> c <= t -> t < 2 ^ 53 ->
  (progress_tenths c t - 1) * t <= 1000 * c <= (progress_tenths c t + 1) * t.
Proof.
  intros Hc Hct Ht.
  assert (Ec := of_int_exact c ltac:(lia)). assert (Et := of_int_exact t ltac:(lia)).
  assert (HC : (1 <= inject_Z c)%Q)
    by (change 1%Q with (inject_Z 1); rewrite <- Zle_Qle; lia).
  assert (HCT : (inject_Z c <= inject_Z t)%Q) by (rewrite <- Zle_Qle; lia).
  set (p := (inject_Z c / inject_Z t)%Q).
  assert (Hp0 : (0 <= p)%Q) by (apply Qle_shift_div_l; lra).
  assert (Hp1 : (p <= 1)%Q) by (apply Qle_shift_div_r; lra).
  assert (E18 : (pow2 (-18) == 1 # 262144)%Q) by (vm_compute; reflexivity).
  assert (E36 : (pow2 36 == 68719476736)%Q) by (vm_compute; reflexivity).
  assert (Ex1 : percentage c t = round p).
  { unfold percentage, div. apply round_comp. unfold p. rewrite Ec, Et. reflexivity. }
  pose proof (round_error_small p Hp0 ltac:(lra)) as [L1 U1].
  rewrite <- Ex1 in L1, U1.
  pose proof (percentage_nonneg c t Hc ltac:(lia)) as Hx1.
  pose proof (round_error_small (percentage c t * 100)) as [L2 U2]; [lra | lra |].
  pose proof (rne_bounds (round (percentage c t * 100) * 10)) as [L3 U3].
  assert (En : progress_tenths c t = rne (round (percentage c t * 100) * 10)).
  { unfold progress_tenths, fmt.fixed, mul. rewrite of_int_100. reflexivity. }
  rewrite <- En in L3, U3.
  assert (Hlo : (inject_Z (progress_tenths c t) - 1 <= 1000 * p)%Q).
  { revert L1 U1 L2 U2 L3 U3 E18.
    generalize (pow2 (-18)) (percentage c t) (round (percentage c t * 100))
               (inject_Z (progress_tenths c t)).
    intros e x1 x2 n. intros. lra. }
  assert (Hhi : (1000 * p <= inject_Z (progress_tenths c t) + 1)%Q).
  { revert L1 U1 L2 U2 L3 U3 E18.
    generalize (pow2 (-18)) (percentage c t) (round (percentage c t * 100))
               (inject_Z (progress_tenths c t)).
    intros e x1 x2 n. intros. lra. }
  assert (HT : (0 < inject_Z t)%Q) by lra.
  assert (Ep : (p * inject_Z t == inject_Z c)%Q) by (unfold p; field; lra).
  split.
  - unfold Z.sub. rewrite Zle_Qle, !inject_Z_mult, inject_Z_plus.
    change (inject_Z (- (1))) with (- (1))%Q. change (inject_Z 1000) with 1000%Q.
    rewrite <- Ep, Qmult_assoc. apply Qmult_le_compat_r; lra.
  - rewrite Zle_Qle, !inject_Z_mult, inject_Z_plus.
    change (inject_Z 1) with 1%Q. change (inject_Z 1000) with 1000%Q.
    rewrite <- Ep, Qmult_assoc. apply Qmult_le_compat_r; lra.
Qed.

(** The indicator can read 100.0 before the last result: with ten
    thousand endpoints, 99.99 percent prints as 100.0. *)
Example progress_rounds_up : progress_text 9999 10000 = "100.0".
Proof. vm_compute. reflexivity. Qed.

Example progress_one_third :
  showProgress 1 3 =
  Some (String "013"
          "检测进度: [█████████████░░░░░░░░░░░░░░░░░░░░░░░░░░░] 1/3 (33.3%)").
Proof. vm_compute. reflexivity. Qed.

(** ** Agreement of [float64] with the IEEE-754 specification *)

Example float64_agrees_on_percentages :
  forallb (fun total =>
             forallb (fun current => ieee.agree_percent current total)
                     (ieee.upto (Z.to_nat total)))
          (ieee.upto 40) = true.
Proof. vm_compute. reflexivity. Qed.

Example float64_agrees_on_large_counts :
  forallb (fun current => ieee.agree_percent current 9223372036854775807)
          [1; 3; 9007199254740993; 4611686018427387904; 9223372036854775806;
           9223372036854775807] = true.
Proof. vm_compute. reflexivity. Qed.

Example float64_agrees_on_Seconds :
  forallb ieee.agree_Seconds
          [0; 1; 1234567; 50000000; 999999999; 1000000000; 10000000000;
           123456789012; 9223372036854775807] = true.
Proof. vm_compute. reflexivity. Qed.

(** ** The worker pool: what holds in every reachable state *)

Section PoolFacts.

Variable numWorkers : Z.
Variable hosts : list string.

Lemma Inv_start : Inv numWorkers hosts (start hosts).
Proof.
  split; simpl; try reflexivity; try constructor; try lia; try discriminate; try tauto.
  - unfold in_flight. simpl. rewrite app_nil_r. reflexivity.
Qed.

Lemma lookup_split {A} (l : list A) i x :
  l !! i = Some x ->
  exists l1 l2, l = l1 ++ x :: l2 /\ length l1 = i /\ forall y, <[i := y]> l = l1 ++ y :: l2.
Proof.
  intros H. exists (take i l), (drop (S i) l).
  pose proof (lookup_lt_Some _ _ _ H) as Hlt.
  split; [symmetry; apply take_drop_middle, H|]. split.
  - rewrite length_take. lia.
  - intros y. apply insert_take_drop, Hlt.
Qed.

Lemma live_count_app l1 l2 : live_count (l1 ++ l2) = live_count l1 + live_count l2.
Proof. induction l1; simpl; lia. Qed.

Lemma live_count_nonneg l : 0 <= live_count l.
Proof. induction l as [|w l IH]; simpl; [lia|]. destruct w; simpl; lia. Qed.

Lemma live_count_zero l : live_count l = 0 -> Forall (fun w => w = WReturned) l.
Proof.
  induction l as [|w l IH]; simpl; intros H; constructor.
  - pose proof (live_count_nonneg l). destruct w; simpl in H; try lia. reflexivity.
  - apply IH. pose proof (live_count_nonneg l). destruct w; simpl in H; lia.
Qed.

Ltac inv_open H :=
  destruct H as [Hhosts Hprobed Hpid Hcj Hcr Hjc Hwg Hsp Hcl Hcw Hrc Hret Hdone Hnp Hcnt Hprog];
  unfold in_flight, answered in Hhosts, Hprobed.

Ltac field_done :=
  solve [ assumption | reflexivity | discriminate | lia | tauto | congruence
        | intros; discriminate | intros; assumption ].

Ltac inv_worker_fields Hws Hins :=
  split; unfold in_flight, answered in *; simpl in *; rewrite ?Hins; rewrite Hws in *;
  repeat match goal with H : buf ?c = _ |- context [buf ?c] => rewrite H end;
  rewrite ?flat_map_app, ?length_app, ?live_count_app, ?map_app in *; simpl in *;
  rewrite ?app_nil_r in *; try field_done.

Ltac perm_via H := etransitivity; [exact H | solve_Permutation].

Ltac inv_fields Hpc :=
  split; unfold in_flight, answered in *; simpl in *; rewrite ?Hpc in *; simpl in *;
  repeat match goal with H : buf ?c = _ |- context [buf ?c] => rewrite H end;
  try field_done;
  rewrite ?flat_map_app, ?length_app, ?live_count_app, ?map_app in *; simpl in *;
  rewrite ?app_nil_r in *; try field_done.

Lemma Inv_step_main s s' :
  Inv numWorkers hosts s -> step_main numWorkers hosts s = Some s' -> Inv numWorkers hosts s'.
Proof.
  intros HI E. inv_open HI. unfold step_main in E.
  destruct (pc s) eqn:Hpc.
  - (* MSpawn *)
    destruct (i <? numWorkers) eqn:Hi; injection E as <-.
    + apply Z.ltb_lt in Hi. inv_fields Hpc.
      * eapply Forall_impl; [exact Hpid | simpl; intros; lia].
      * destruct (closer s); simpl in *; discriminate.
      * intros H. apply in_app_iff in H. destruct H as [H|[H|[]]]; [|discriminate].
        destruct (Hret H). congruence.
    + apply Z.ltb_ge in Hi. inv_fields Hpc.
  - (* MSend *)
    destruct rest as [|host rest].
    + injection E as <-. inv_fields Hpc.
    + unfold send in E. rewrite Hjc in E. simpl in E.
      destruct (length (buf (jobs s)) <? cap (jobs s))%nat eqn:Hlen; [|discriminate].
      injection E as <-. inv_fields Hpc.
      * perm_via Hhosts.
      * intros H. destruct (Hret H). congruence.
  - (* MClose *)
    rewrite Hjc in E. simpl in E. injection E as <-. inv_fields Hpc.
  - (* MGo *)
    injection E as <-.
    destruct (closer s) eqn:Hc; try discriminate. inv_fields Hpc.
  - (* MCollect *)
    unfold recv in E. destruct (buf (results s)) as [|result rest] eqn:Hbuf.
    + destruct (closed (results s)) eqn:Hcl'; [|discriminate].
      injection E as <-. inv_fields Hpc.
    + assert (Hlen : (length (allResults s) + 1 <= length hosts)%nat).
      { apply Permutation_length in Hhosts.
        repeat (rewrite ?length_app, ?length_map in Hhosts; simpl in Hhosts). lia. }
      destruct (showProgress_prints (resultCount s + 1) (Z.of_nat (length hosts)))
        as [line Hline]; [lia | lia |].
      rewrite Hline in E. injection E as <-. inv_fields Hpc.
      * perm_via Hhosts.
      * (rewrite Hprobed; solve_Permutation).
      * replace (length (allResults s) + 1)%nat with (S (length (allResults s))) by lia.
        rewrite seq_S.
        apply Forall2_app; [exact Hprog|]. constructor; [|constructor].
        rewrite <- Hline. f_equal. lia.
  - discriminate.
Qed.

Lemma all_returned_at (l1 l2 : list WorkerPC) w :
  Forall (fun w => w = WReturned) (l1 ++ w :: l2) -> w = WReturned.
Proof.
  intros H. apply Forall_app in H. destruct H as [_ H].
  apply Forall_cons in H. tauto.
Qed.

Lemma returned_elsewhere (l1 l2 : list WorkerPC) w w' :
  w' <> WReturned -> In WReturned (l1 ++ w' :: l2) -> In WReturned (l1 ++ w :: l2).
Proof.
  intros Hne H. apply in_app_iff in H. apply in_app_iff.
  destruct H as [H|[H|H]]; [left; exact H | congruence | right; right; exact H].
Qed.

Ltac pid_done Hpid :=
  try (apply Forall_app; split; [|repeat constructor; simpl; lia]);
  eapply Forall_impl; [exact Hpid | simpl; intros; lia].

Ltac worker_finish Hhosts Hprobed Hpid Hcw Hret :=
  rewrite ?Host_worker_body;
  first
    [ field_done
    | perm_via Hhosts
    | rewrite Hprobed; solve_Permutation
    | pid_done Hpid
    | let H := fresh in
      intros H; apply Hcw, all_returned_at in H; discriminate
    | let H := fresh in
      intros H; eapply Hret, returned_elsewhere; [|exact H]; discriminate
    | idtac ].

Lemma Inv_step_get id got s s' :
  Inv numWorkers hosts s -> step_get id got s = Some s' -> Inv numWorkers hosts s'.
Proof.
  intros HI E. inv_open HI. unfold step_get in E.
  destruct (workers s !! id) as [w|] eqn:Hw; [|discriminate].
  destruct w; try discriminate. injection E as <-.
  pose proof (lookup_lt_Some _ _ _ Hw) as Hid.
  destruct (lookup_split _ _ _ Hw) as (l1 & l2 & Hws & Hl1 & Hins).
  inv_worker_fields Hws Hins; worker_finish Hhosts Hprobed Hpid Hcw Hret.
Qed.

Lemma Inv_step_worker id s s' :
  Inv numWorkers hosts s -> step_worker id s = Some s' -> Inv numWorkers hosts s'.
Proof.
  intros HI E. inv_open HI. unfold step_worker in E.
  destruct (workers s !! id) as [w|] eqn:Hw; [|discriminate].
  pose proof (lookup_lt_Some _ _ _ Hw) as Hid.
  destruct (lookup_split _ _ _ Hw) as (l1 & l2 & Hws & Hl1 & Hins).
  destruct w; try discriminate.
  - (* WRange *)
    unfold recv in E. destruct (buf (jobs s)) as [|host rest] eqn:Hbuf.
    + destruct (closed (jobs s)) eqn:Hjcl; [|discriminate].
      assert (Hlive : 1 <= wg s).
      { rewrite Hwg, Hws, live_count_app. simpl.
        pose proof (live_count_nonneg l1). pose proof (live_count_nonneg l2). lia. }
      destruct (wg s - 1 <? 0) eqn:Hneg; [apply Z.ltb_lt in Hneg; lia|].
      injection E as <-.
      inv_worker_fields Hws Hins; worker_finish Hhosts Hprobed Hpid Hcw Hret.
    + injection E as <-.
      inv_worker_fields Hws Hins; worker_finish Hhosts Hprobed Hpid Hcw Hret.
      intros H. exfalso.
      assert (In WReturned (l1 ++ WRange :: l2)) as H'
        by (eapply returned_elsewhere; [|exact H]; discriminate).
      destruct (Hret H'). discriminate.
  - (* WSend *)
    assert (Hopen : closed (results s) = false).
    { rewrite Hrc. destruct (closer s) eqn:Hc; try reflexivity.
      assert (H : closer_past_wait CReturned = true) by reflexivity.
      rewrite Hws in Hcw. apply Hcw, all_returned_at in H. discriminate. }
    unfold send in E. rewrite Hopen in E.
    destruct (length (buf (results s)) <? cap (results s))%nat eqn:Hlen; [|discriminate].
    injection E as <-.
    inv_worker_fields Hws Hins; worker_finish Hhosts Hprobed Hpid Hcw Hret.
    intros H. destruct (Hdone H). congruence.
Qed.

Lemma Inv_step_closer s s' :
  Inv numWorkers hosts s -> step_closer s = Some s' -> Inv numWorkers hosts s'.
Proof.
  intros HI E. inv_open HI. unfold step_closer in E.
  destruct (closer s) eqn:Hc; try discriminate.
  - (* CWait *)
    destruct (wg s =? 0) eqn:Hz; [|discriminate]. apply Z.eqb_eq in Hz.
    injection E as <-. split; simpl; rewrite ?Hc; try field_done.
    intros _. apply live_count_zero. lia.
  - (* CClose *)
    rewrite Hrc in E. injection E as <-.
    split; simpl; rewrite ?Hc; try field_done.
Qed.

Lemma Inv_exec a s s' :
  Inv numWorkers hosts s -> exec numWorkers hosts a s = Some s' -> Inv numWorkers hosts s'.
Proof.
  intros HI E. unfold exec in E.
  destruct (panicked s); [discriminate|].
  destruct a; destruct (pc s) eqn:Hpc; try discriminate;
    eauto using Inv_step_main, Inv_step_worker, Inv_step_get, Inv_step_closer.
Qed.

Lemma Inv_run schedule : forall s s',
  Inv numWorkers hosts s -> run numWorkers hosts schedule s = Some s' ->
  Inv numWorkers hosts s'.
Proof.
  induction schedule as [|a schedule IH]; simpl; intros s s' HI E.
  - injection E as <-. exact HI.
  - destruct (exec numWorkers hosts a s) as [s1|] eqn:E1; [|discriminate].
    eapply IH; [|exact E]. eapply Inv_exec; eassumption.
Qed.

Lemma Inv_reachable schedule s :
  run numWorkers hosts schedule (start hosts) = Some s -> Inv numWorkers hosts s.
Proof. apply Inv_run, Inv_start. Qed.

(** What the invariant says once [main] has left its last loop *)
Lemma holding_returned ws :
  Forall (fun w => w = WReturned) ws -> flat_map holding ws = [].
Proof. induction 1 as [|w ws -> _ IH]; simpl; [reflexivity | exact IH]. Qed.

Lemma sending_returned ws :
  Forall (fun w => w = WReturned) ws -> flat_map sending ws = [].
Proof. induction 1 as [|w ws -> _ IH]; simpl; [reflexivity | exact IH]. Qed.

Lemma Inv_done s :
  1 <= numWorkers -> Inv numWorkers hosts s -> pc s = MDone ->
  Permutation (map Host (allResults s)) hosts /\
  Permutation (map snd (probed s)) hosts /\
  Forall (fun w => w = WReturned) (workers s) /\
  buf (jobs s) = [] /\ buf (results s) = [].
Proof.
  intros HN HI Hpc. inv_open HI. rewrite Hpc in *. simpl in *.
  destruct (Hdone eq_refl) as [Hclosed Hempty].
  assert (Hc : closer s = CReturned).
  { destruct (closer s); try reflexivity; rewrite Hclosed in Hrc; discriminate. }
  assert (Hall : Forall (fun w => w = WReturned) (workers s)).
  { apply Hcw. rewrite Hc. reflexivity. }
  assert (Hjobs : buf (jobs s) = []).
  { destruct (workers s) as [|w ws] eqn:Hws; [simpl in Hsp; lia|].
    apply Forall_cons in Hall. destruct Hall as [-> _].
    apply Hret. left. reflexivity. }
  rewrite Hjobs, Hempty, (holding_returned _ Hall) in Hhosts.
  rewrite Hempty, (sending_returned _ Hall) in Hprobed.
  simpl in Hhosts, Hprobed.
  repeat split; try assumption.
  - symmetry. exact Hhosts.
  - rewrite Hprobed. symmetry. exact Hhosts.
Qed.

(** No deadlock *)
Lemma live_worker ws :
  live_count ws <> 0 -> exists id w, ws !! id = Some w /\ w <> WReturned.
Proof.
  induction ws as [|w ws IH]; simpl; intros H; [lia|].
  assert (Hw : w = WReturned \/ w <> WReturned)
    by (destruct w; first [left; reflexivity | right; discriminate]).
  destruct Hw as [->|Hw].
  - destruct IH as (id & w' & Hl & Hne); [simpl in H; lia|].
    exists (S id), w'. split; assumption.
  - exists 0%nat, w. split; [reflexivity | exact Hw].
Qed.

Lemma Inv_can_step s :
  Inv numWorkers hosts s -> pc s <> MDone ->
  exists a s', exec numWorkers hosts a s = Some s'.
Proof.
  intros HI Hpc. inv_open HI. unfold exec. rewrite Hnp.
  destruct (pc s) eqn:Ep; try congruence; simpl in *.
  - exists RunMain. unfold step_main. rewrite Ep.
    destruct (i <? numWorkers); eauto.
  - exists RunMain. unfold step_main. rewrite Ep.
    destruct rest as [|host rest]; [eauto|].
    unfold send. rewrite Hjc.
    apply Permutation_length in Hhosts.
    repeat (rewrite ?length_app, ?length_map in Hhosts; simpl in Hhosts).
    assert (Hlt : (length (buf (jobs s)) <? cap (jobs s))%nat = true)
      by (apply Nat.ltb_lt; lia).
    rewrite Hlt. eauto.
  - exists RunMain. unfold step_main. rewrite Ep, Hjc. eauto.
  - exists RunMain. unfold step_main. rewrite Ep. eauto.
  - destruct (buf (results s)) as [|result rest] eqn:Hbuf.
    + destruct (closed (results s)) eqn:Hclosed.
      { exists RunMain. unfold step_main, recv. rewrite Ep, Hbuf, Hclosed. eauto. }
      destruct (closer s) eqn:Hc; try discriminate.
      * (* CWait *)
        destruct (wg s =? 0) eqn:Hz.
        { exists RunCloser. unfold step_closer. rewrite Hc, Hz. eauto. }
        apply Z.eqb_neq in Hz. rewrite Hwg in Hz.
        destruct (live_worker _ Hz) as (id & w & Hl & Hne).
        destruct w; try congruence.
        -- exists (RunWorker id). unfold step_worker, recv. rewrite Hl, Hjc.
           destruct (buf (jobs s)); [|eauto].
           destruct (wg s - 1 <? 0); eauto.
        -- exists (GetReturns id (GetResponse 200 0)). unfold step_get.
           rewrite Hl. eauto.
        -- exists (RunWorker id). unfold step_worker, send.
           rewrite Hl, Hclosed, Hbuf. simpl.
           destruct (lookup_split _ _ _ Hl) as (l1 & l2 & Hws & _).
           rewrite Hws in Hhosts. apply Permutation_length in Hhosts.
           repeat (rewrite ?length_app, ?length_map, ?flat_map_app in Hhosts; simpl in Hhosts).
           assert (Hlt : (0 <? cap (results s))%nat = true) by (apply Nat.ltb_lt; lia).
           rewrite Hlt. eauto.
      * (* CClose *)
        exists RunCloser. unfold step_closer. rewrite Hc, Hclosed. eauto.
    + exists RunMain. unfold step_main, recv. rewrite Ep, Hbuf.
      destruct (showProgress _ _); eauto.
Qed.
End PoolFacts.

(** ** The worker pool: every run ends

    Each step lowers the rank of the state, so a run from a state has at
    most as many steps as the rank of that state. *)
Section Termination.
Variable numWorkers : Z.
Variable hosts : list string.

Lemma rank_workers_app l1 l2 :
  rank_workers (l1 ++ l2) = (rank_workers l1 + rank_workers l2)%nat.
Proof. induction l1; simpl; lia. Qed.

Lemma rank_step_main s s' :
  panicked s = false ->
  step_main numWorkers hosts s = Some s' ->
  (rank numWorkers hosts s' < rank numWorkers hosts s)%nat.
Proof.
  intros Hnp E. unfold step_main in E. unfold rank. rewrite Hnp.
  destruct (pc s) eqn:Hpc.
  - destruct (i <? numWorkers) eqn:Hi; injection E as <-; simpl; rewrite Hnp.
    + apply Z.ltb_lt in Hi. rewrite rank_workers_app. simpl. lia.
    + apply Z.ltb_ge in Hi. simpl. lia.
  - destruct rest as [|host rest]; [injection E as <-; simpl; rewrite Hnp; lia|].
    unfold send in E. destruct (closed (jobs s)).
    { injection E as <-. simpl. rewrite Hpc. simpl. lia. }
    destruct (length (buf (jobs s)) <? cap (jobs s))%nat; [|discriminate].
    injection E as <-. simpl. rewrite Hnp, length_app. simpl. lia.
  - destruct (closed (jobs s)); injection E as <-; simpl; rewrite ?Hnp, ?Hpc; simpl; lia.
  - injection E as <-. simpl. rewrite Hnp. destruct (closer s); simpl; lia.
  - unfold recv in E. destruct (buf (results s)) as [|result rest] eqn:Hbuf.
    + destruct (closed (results s)); [|discriminate].
      injection E as <-. simpl. rewrite Hnp, Hbuf. simpl. lia.
    + destruct (showProgress _ _); injection E as <-; simpl;
        rewrite ?Hnp, ?Hbuf, ?Hpc; simpl; lia.
  - discriminate.
Qed.

Lemma rank_step_worker id s s' :
  panicked s = false ->
  step_worker id s = Some s' ->
  (rank numWorkers hosts s' < rank numWorkers hosts s)%nat.
Proof.
  intros Hnp E. unfold step_worker in E. unfold rank. rewrite Hnp.
  destruct (workers s !! id) as [w|] eqn:Hw; [|discriminate].
  destruct (lookup_split _ _ _ Hw) as (l1 & l2 & Hws & Hl1 & Hins).
  destruct w; try discriminate.
  - unfold recv in E. destruct (buf (jobs s)) as [|host rest] eqn:Hbuf.
    + destruct (closed (jobs s)); [|discriminate].
      destruct (wg s - 1 <? 0); injection E as <-; simpl; rewrite ?Hnp, ?Hbuf; [simpl; lia|].
      rewrite Hins, Hws, !rank_workers_app. simpl. lia.
    + injection E as <-. simpl. rewrite Hnp, Hins, Hws, !rank_workers_app. simpl. lia.
  - unfold send in E. destruct (closed (results s)).
    { injection E as <-. simpl. lia. }
    destruct (length (buf (results s)) <? cap (results s))%nat; [|discriminate].
    injection E as <-. simpl. rewrite Hnp, Hins, Hws, !rank_workers_app, length_app. simpl. lia.
Qed.

Lemma rank_step_get id got s s' :
  panicked s = false ->
  step_get id got s = Some s' ->
  (rank numWorkers hosts s' < rank numWorkers hosts s)%nat.
Proof.
  intros Hnp E. unfold step_get in E. unfold rank. rewrite Hnp.
  destruct (workers s !! id) as [w|] eqn:Hw; [|discriminate].
  destruct (lookup_split _ _ _ Hw) as (l1 & l2 & Hws & Hl1 & Hins).
  destruct w; try discriminate.
  injection E as <-. simpl. rewrite Hnp, Hins, Hws, !rank_workers_app. simpl. lia.
Qed.

Lemma rank_step_closer s s' :
  panicked s = false ->
  step_closer s = Some s' ->
  (rank numWorkers hosts s' < rank numWorkers hosts s)%nat.
Proof.
  intros Hnp E. unfold step_closer in E. unfold rank. rewrite Hnp.
  destruct (closer s) eqn:Hc; try discriminate.
  - destruct (wg s =? 0); [|discriminate]. injection E as <-. simpl. rewrite Hnp. lia.
  - destruct (closed (results s)); injection E as <-; simpl; rewrite ?Hnp, ?Hc; simpl; lia.
Qed.

Lemma rank_exec a s s' :
  exec numWorkers hosts a s = Some s' ->
  (rank numWorkers hosts s' < rank numWorkers hosts s)%nat.
Proof.
  unfold exec. destruct (panicked s) eqn:Hnp; [discriminate|].
  destruct a; destruct (pc s) eqn:Hpc; try discriminate;
    eauto using rank_step_main, rank_step_worker, rank_step_get, rank_step_closer.
Qed.

Lemma rank_run schedule : forall s s',
  run numWorkers hosts schedule s = Some s' ->
  (length schedule + rank numWorkers hosts s' <= rank numWorkers hosts s)%nat.
Proof.
  induction schedule as [|a schedule IH]; simpl; intros s s' E.
  - injection E as <-. lia.
  - destruct (exec numWorkers hosts a s) as [s1|] eqn:E1; [|discriminate].
    apply rank_exec in E1. apply IH in E. lia.
Qed.

End Termination.

(** ** The worker pool: every result was built by [worker] *)

Lemma send_Sent {A} (c c' : Chan A) v : send c v = Sent c' -> buf c' = buf c ++ [v].
Proof.
  unfold send. destruct (closed c); [discriminate|].
  destruct (length (buf c) <? cap c)%nat; [|discriminate].
  intros H. injection H as <-. reflexivity.
Qed.

Lemma recv_Received {A} (c c' : Chan A) v : recv c = Received v c' -> buf c = v :: buf c'.
Proof.
  unfold recv. destruct (buf c) as [|v' rest]; [destruct (closed c); discriminate|].
  intros H. injection H as <- <-. reflexivity.
Qed.

Section PoolResults.
Variable numWorkers : Z.
Variable hosts : list string.

Lemma Produced_start : Produced (start hosts).
Proof. split; constructor. Qed.

Lemma Produced_step_main s s' :
  Produced s -> step_main numWorkers hosts s = Some s' -> Produced s'.
Proof.
  intros [Hc Hb Hw] E. unfold step_main in E.
  destruct (pc s) eqn:Hpc.
  - destruct (i <? numWorkers); injection E as <-; split; simpl; try assumption.
    apply Forall_app. split; [assumption | repeat constructor].
  - destruct rest as [|host rest]; [injection E as <-; split; assumption|].
    destruct (send (jobs s) host); try discriminate; injection E as <-; split; assumption.
  - destruct (closed (jobs s)); injection E as <-; split; assumption.
  - injection E as <-. split; assumption.
  - destruct (recv (results s)) as [result c| |] eqn:Hr; try discriminate.
    + apply recv_Received in Hr. rewrite Hr in Hb. apply Forall_cons in Hb.
      destruct Hb as [Hres Hb].
      destruct (showProgress _ _); injection E as <-; split; simpl; try assumption.
      * apply Forall_app. split; [assumption | repeat constructor; assumption].
      * rewrite Hr. constructor; assumption.
    + injection E as <-. split; assumption.
  - discriminate.
Qed.

Lemma Produced_step_worker id s s' :
  Produced s -> step_worker id s = Some s' -> Produced s'.
Proof.
  intros [Hc Hb Hw] E. unfold step_worker in E.
  destruct (workers s !! id) as [w|] eqn:Hl; [|discriminate].
  pose proof (Forall_lookup_1 _ _ _ _ Hw Hl) as Hid.
  destruct w; try discriminate.
  - destruct (recv (jobs s)) as [host c| |]; try discriminate.
    + injection E as <-. split; simpl; try assumption.
      apply Forall_insert; [assumption | exact I].
    + destruct (wg s - 1 <? 0); injection E as <-; split; simpl; try assumption.
      apply Forall_insert; [assumption | exact I].
  - destruct (send (results s) result) as [c| |] eqn:Hs; try discriminate.
    + apply send_Sent in Hs. injection E as <-. split; simpl; try assumption.
      * rewrite Hs. apply Forall_app. split; [assumption | repeat constructor; exact Hid].
      * apply Forall_insert; [assumption | exact I].
    + injection E as <-. split; assumption.
Qed.

Lemma Produced_step_get id got s s' :
  Produced s -> step_get id got s = Some s' -> Produced s'.
Proof.
  intros [Hc Hb Hw] E. unfold step_get in E.
  destruct (workers s !! id) as [w|] eqn:Hl; [|discriminate].
  destruct w; try discriminate. injection E as <-. split; simpl; try assumption.
  apply Forall_insert; [assumption|]. exists host, got. reflexivity.
Qed.

Lemma Produced_step_closer s s' :
  Produced s -> step_closer s = Some s' -> Produced s'.
Proof.
  intros [Hc Hb Hw] E. unfold step_closer in E.
  destruct (closer s); try discriminate.
  - destruct (wg s =? 0); [|discriminate]. injection E as <-. split; assumption.
  - destruct (closed (results s)); injection E as <-; split; assumption.
Qed.

Lemma Produced_exec a s s' :
  Produced s -> exec numWorkers hosts a s = Some s' -> Produced s'.
Proof.
  intros HP E. unfold exec in E.
  destruct (panicked s); [discriminate|].
  destruct a; destruct (pc s) eqn:Hpc; try discriminate;
    eauto using Produced_step_main, Produced_step_worker, Produced_step_get,
                Produced_step_closer.
Qed.

Lemma Produced_run schedule : forall s s',
  Produced s -> run numWorkers hosts schedule s = Some s' -> Produced s'.
Proof.
  induction schedule as [|a schedule IH]; simpl; intros s s' HP E.
  - injection E as <-. exact HP.
  - destruct (exec numWorkers hosts a s) as [s1|] eqn:E1; [|discriminate].
    eapply IH; [|exact E]. eapply Produced_exec; eassumption.
Qed.

Lemma collected_produced schedule s :
  run numWorkers hosts schedule (start hosts) = Some s ->
  Forall produced (allResults s).
Proof.
  intros E. apply (produced_collected s), (Produced_run schedule _ _ Produced_start E).
Qed.

(** ** The worker pool: every run can be completed *)

Lemma run_app schedule1 : forall schedule2 s s1,
  run numWorkers hosts schedule1 s = Some s1 ->
  run numWorkers hosts (schedule1 ++ schedule2) s = run numWorkers hosts schedule2 s1.
Proof.
  induction schedule1 as [|a schedule1 IH]; simpl; intros schedule2 s s1 E.
  - injection E as <-. reflexivity.
  - destruct (exec numWorkers hosts a s) as [s'|]; [|discriminate].
    apply IH, E.
Qed.

Lemma Inv_completes (n : nat) : forall s,
  (rank numWorkers hosts s <= n)%nat -> Inv numWorkers hosts s ->
  exists schedule s',
    run numWorkers hosts schedule s = Some s' /\ pc s' = MDone.
Proof.
  induction n as [|n IH]; intros s Hn HI.
  - destruct (pc s) eqn:Hpc;
      try (exists [], s; split; [reflexivity | exact Hpc]);
      destruct (Inv_can_step numWorkers hosts s HI ltac:(congruence)) as (a & s1 & E);
      apply rank_exec in E; lia.
  - destruct (pc s) eqn:Hpc;
      try (exists [], s; split; [reflexivity | exact Hpc]);
      destruct (Inv_can_step numWorkers hosts s HI ltac:(congruence)) as (a & s1 & E);
      pose proof (rank_exec _ _ _ _ _ E) as Hr;
      destruct (IH s1 ltac:(lia) (Inv_exec _ _ _ _ _ HI E)) as (schedule & s' & Hrun & Hd);
      exists (a :: schedule), s'; simpl; rewrite E; split; assumption.
Qed.

Lemma run_completes schedule s :
  run numWorkers hosts schedule (start hosts) = Some s ->
  exists rest s',
    run numWorkers hosts (schedule ++ rest) (start hosts) = Some s' /\ pc s' = MDone.
Proof.
  intros E.
  destruct (Inv_completes (rank numWorkers hosts s) s (le_n _)
              (Inv_reachable _ _ _ _ E)) as (rest & s' & Hrun & Hd).
  exists rest, s'. split; [|exact Hd].
  rewrite (run_app _ _ _ _ E). exact Hrun.
Qed.

(** ** The worker pool without workers *)

Lemma Inv_no_workers s :
  numWorkers <= 0 -> Inv numWorkers hosts s ->
  workers s = [] /\ probed s = [] /\ buf (results s) = [] /\ allResults s = [] /\
  progress s = [] /\ resultCount s = 0.
Proof.
  intros HN HI. destruct HI as [Hhosts Hprobed Hpid Hcj Hcr Hjc Hwg Hsp Hcl Hcw Hrc Hret Hdone Hnp Hcnt Hprog].
  assert (Hws : workers s = []).
  { destruct (workers s) as [|w ws]; [reflexivity|]. exfalso.
    destruct (pc s); simpl in Hsp; lia. }
  assert (Hp : probed s = []).
  { rewrite Hws in Hpid. destruct (probed s) as [|p ps]; [reflexivity|].
    apply Forall_cons in Hpid. simpl in Hpid. lia. }
  unfold answered in Hprobed. rewrite Hws, Hp in Hprobed. simpl in Hprobed.
  apply Permutation_nil in Hprobed. apply app_eq_nil in Hprobed.
  destruct Hprobed as [Hb Ha]. apply map_eq_nil in Hb, Ha.
  rewrite Ha in Hprog, Hcnt. simpl in Hprog, Hcnt.
  apply Forall2_nil_inv_l in Hprog.
  repeat split; assumption.
Qed.

End PoolResults.

(** ** Rows of the report *)

Lemma seconds_text_not_literal (a : string) : a +:+ "s" <> timeout_literal.
Proof.
  unfold timeout_literal. intros H.
  do 6 (destruct a as [|? a]; simpl in H; [discriminate H|]; injection H as _ H).
  destruct a; discriminate H.
Qed.

Lemma render_row_timeout result :
  produced result ->
  cell_timeStr (render_row result) = timeout_literal ->
  cell_statusCode (render_row result) = "-".
Proof.
  intros HP. unfold render_row. cbn [cell_timeStr cell_statusCode].
  destruct (IsTimeout result) eqn:Ht; simpl.
  - intros _. destruct (produced_timeout result HP Ht) as [-> _]. reflexivity.
  - intros H. exfalso. exact (seconds_text_not_literal _ H).
Qed.

Lemma report_rows_produced sorter listSuccess l :
  Forall produced l ->
  Forall (fun row => exists result, produced result /\ row = render_row result)
         (rows (report sorter listSuccess l)).
Proof.
  intros HP. unfold report. cbn [rows].
  apply List.Forall_forall. intros row Hrow.
  apply in_map_iff in Hrow. destruct Hrow as (result & <- & Hin).
  exists result. split; [|reflexivity].
  apply (Permutation_in _ (displayResults_Permutation sorter listSuccess l)) in Hin.
  assert (Hl : In result l).
  { destruct listSuccess; [apply filter_In in Hin; tauto | exact Hin]. }
  clear Hin. revert result Hl. apply List.Forall_forall, HP.
Qed.

Lemma report_nothing sorter listSuccess :
  report sorter listSuccess [] = {| rows := []; summary_success := 0; summary_total := 0 |}.
Proof.
  unfold report.
  assert (Ht : displayResults sorter true [] = []).
  { apply Permutation_nil. symmetry. apply (displayResults_Permutation sorter true []). }
  assert (Hf : displayResults sorter false [] = []).
  { apply Permutation_nil. symmetry. apply (displayResults_Permutation sorter false []). }
  unfold allResults_after_sort. destruct listSuccess; rewrite ?Ht, ?Hf; reflexivity.
Qed.

(** ** The claims about a run of the pool *)

(** C1.  Take a non-empty endpoint list and at least one worker, and any
    interleaving of the goroutines from the start of the pool.  Nothing
    panics; the run has at most [rank] steps; as long as [main] has not
    left its last loop some goroutine can step, and the run can be
    continued until it has; never more results are collected than
    endpoints were dispatched.  Once [main] has left the loop, it has
    collected exactly one result per dispatched endpoint, duplicates
    included; each endpoint was checked exactly once, by one of the
    workers; and the workers have returned with both channels drained. *)
Theorem pool_delivers_every_endpoint (numWorkers : Z) (hosts : list string)
  (schedule : list Action) (s : State) :
  hosts <> [] -> 1 <= numWorkers ->
  run numWorkers hosts schedule (start hosts) = Some s ->
  panicked s = false /\
  (length schedule <= rank numWorkers hosts (start hosts))%nat /\
  (length (allResults s) <= length hosts)%nat /\
  (pc s <> MDone -> exists a s', exec numWorkers hosts a s = Some s') /\
  (exists rest s',
      run numWorkers hosts (schedule ++ rest) (start hosts) = Some s' /\
      pc s' = MDone) /\
  Forall (fun p => (fst p < Z.to_nat numWorkers)%nat) (probed s) /\
  (pc s = MDone ->
   length (allResults s) = length hosts /\
   resultCount s = Z.of_nat (length hosts) /\
   Permutation (map Host (allResults s)) hosts /\
   Permutation (map snd (probed s)) hosts /\
   Forall produced (allResults s) /\
   Forall (fun w => w = WReturned) (workers s) /\
   buf (jobs s) = [] /\ buf (results s) = []).
Proof.
  intros Hne HN E.
  pose proof (Inv_reachable numWorkers hosts schedule s E) as HI.
  split; [apply (inv_no_panic _ _ _ HI)|].
  split; [pose proof (rank_run _ _ _ _ _ E); lia|].
  assert (Hlen : (length (allResults s) <= length hosts)%nat).
  { pose proof (inv_hosts _ _ _ HI) as HP. apply Permutation_length in HP.
    unfold in_flight in HP.
    repeat (rewrite ?length_app, ?length_map in HP; simpl in HP). lia. }
  split; [exact Hlen|].
  split; [exact (Inv_can_step numWorkers hosts s HI)|].
  split; [exact (run_completes numWorkers hosts schedule s E)|].
  split.
  { eapply Forall_impl; [apply (inv_probed_id _ _ _ HI)|].
    intros p Hp. simpl in Hp. pose proof (inv_spawned _ _ _ HI) as Hsp.
    destruct (pc s); lia. }
  intros Hd.
  destruct (Inv_done numWorkers hosts s HN HI Hd) as (Hall & Hpr & Hret & Hj & Hr).
  assert (Hk : length (allResults s) = length hosts).
  { apply Permutation_length in Hall. rewrite length_map in Hall. exact Hall. }
  split; [exact Hk|].
  split; [rewrite (inv_count _ _ _ HI), Hk; reflexivity|].
  split; [exact Hall|]. split; [exact Hpr|].
  split; [apply (collected_produced numWorkers hosts schedule s E)|].
  split; [exact Hret|]. split; assumption.
Qed.

Lemma pool_delivers_every_endpoint_witness :
  exists s,
    run 2 demo_hosts demo_schedule (start demo_hosts) = Some s /\
    pc s = MDone /\
    length (allResults s) = 2%nat /\
    Permutation (map Host (allResults s)) demo_hosts.
Proof.
  eexists. split; [vm_compute; reflexivity|].
  match goal with
  | |- pc ?s = _ /\ _ =>
    destruct (pool_delivers_every_endpoint 2 demo_hosts demo_schedule s)
      as (_ & _ & _ & _ & _ & _ & Hdone);
      [discriminate | lia | vm_compute; reflexivity |]
  end.
  split; [reflexivity|].
  destruct (Hdone eq_refl) as (Hk & _ & HP & _).
  split; [exact Hk | exact HP].
Defined.

(** C10.  With a worker count of zero or less no worker is started.
    Every send of [main] still finds room in the job queue, nothing
    panics, a goroutine can always step until [main] has left its last
    loop, and the run ends.  No endpoint is ever checked and no result is
    collected: at the end all endpoints sit in the closed job queue,
    [results] is closed and empty, and the report has no row and counts
    0 successes out of 0. *)
Theorem no_workers_no_outcomes (numWorkers : Z) (hosts : list string)
  (schedule : list Action) (s : State) :
  numWorkers <= 0 ->
  run numWorkers hosts schedule (start hosts) = Some s ->
  panicked s = false /\
  (length schedule <= rank numWorkers hosts (start hosts))%nat /\
  (pc s <> MDone -> exists a s', exec numWorkers hosts a s = Some s') /\
  (exists rest s',
      run numWorkers hosts (schedule ++ rest) (start hosts) = Some s' /\
      pc s' = MDone) /\
  workers s = [] /\ probed s = [] /\ allResults s = [] /\ buf (results s) = [] /\
  (pc s = MDone ->
   Permutation (buf (jobs s)) hosts /\
   closed (jobs s) = true /\ closed (results s) = true /\
   forall sorter listSuccess,
     report sorter listSuccess (allResults s) =
     {| rows := []; summary_success := 0; summary_total := 0 |}).
Proof.
  intros HN E.
  pose proof (Inv_reachable numWorkers hosts schedule s E) as HI.
  destruct (Inv_no_workers numWorkers hosts s HN HI)
    as (Hws & Hp & Hb & Ha & _ & _).
  split; [apply (inv_no_panic _ _ _ HI)|].
  split; [pose proof (rank_run _ _ _ _ _ E); lia|].
  split; [exact (Inv_can_step numWorkers hosts s HI)|].
  split; [exact (run_completes numWorkers hosts schedule s E)|].
  split; [exact Hws|]. split; [exact Hp|]. split; [exact Ha|]. split; [exact Hb|].
  intros Hd.
  pose proof (inv_hosts _ _ _ HI) as HP. unfold in_flight in HP.
  rewrite Hd, Hws, Hb, Ha in HP. simpl in HP. rewrite app_nil_r in HP.
  split; [symmetry; exact HP|].
  split; [rewrite (inv_jobs_closed _ _ _ HI), Hd; reflexivity|].
  split; [apply (inv_done _ _ _ HI Hd)|].
  intros sorter listSuccess. rewrite Ha. apply report_nothing.
Qed.

Lemma no_workers_no_outcomes_witness :
  exists s,
    run 0 demo_hosts idle_schedule (start demo_hosts) = Some s /\
    pc s = MDone /\ allResults s = [] /\ probed s = [] /\
    report insertion_sorter false (allResults s) =
    {| rows := []; summary_success := 0; summary_total := 0 |}.
Proof.
  eexists. split; [vm_compute; reflexivity|].
  match goal with
  | |- pc ?s = _ /\ _ =>
    destruct (no_workers_no_outcomes 0 demo_hosts idle_schedule s)
      as (_ & _ & _ & _ & _ & Hp & Ha & _ & Hdone);
      [lia | vm_compute; reflexivity |]
  end.
  split; [reflexivity|]. split; [exact Ha|]. split; [exact Hp|].
  apply (Hdone eq_refl).
Defined.

(** C4.  A result built by [worker] is never both reachable and timed
    out, and is not reachable when its status code is 0; so it is for
    every result collected in any run of the pool. *)
Theorem outcome_invariants :
  (forall host got,
      let result := worker_body host got in
      Available result && IsTimeout result = false /\
      (StatusCode result = 0 -> Available result = false)) /\
  (forall numWorkers hosts schedule s,
      run numWorkers hosts schedule (start hosts) = Some s ->
      Forall (fun result =>
                Available result && IsTimeout result = false /\
                (StatusCode result = 0 -> Available result = false))
             (allResults s)).
Proof.
  assert (H : forall result, produced result ->
                Available result && IsTimeout result = false /\
                (StatusCode result = 0 -> Available result = false)).
  { intros result HP. split;
      [apply produced_not_both | apply produced_status_zero]; exact HP. }
  split.
  - intros host got result. apply H. exists host, got. reflexivity.
  - intros numWorkers hosts schedule s E.
    eapply Forall_impl; [apply (collected_produced numWorkers hosts schedule s E)|].
    exact H.
Qed.

(** C9.  A result built by [worker] with the timeout flag set has status
    code 0 and no elapsed time, and a row whose time column shows the
    timeout literal shows '-' as its status code; so it is for every row
    of the report of any run of the pool. *)
Theorem timeout_has_no_status :
  (forall host got,
      let result := worker_body host got in
      (IsTimeout result = true -> StatusCode result = 0 /\ Time result = 0) /\
      (cell_timeStr (render_row result) = timeout_literal ->
       cell_statusCode (render_row result) = "-")) /\
  (forall sorter listSuccess numWorkers hosts schedule s,
      run numWorkers hosts schedule (start hosts) = Some s ->
      Forall (fun row =>
                cell_timeStr row = timeout_literal -> cell_statusCode row = "-")
             (rows (report sorter listSuccess (allResults s)))).
Proof.
  split.
  - intros host got result.
    assert (HP : produced result) by (exists host, got; reflexivity).
    split; [apply produced_timeout | apply render_row_timeout]; exact HP.
  - intros sorter listSuccess numWorkers hosts schedule s E.
    eapply Forall_impl;
      [apply report_rows_produced,
             (collected_produced numWorkers hosts schedule s E)|].
    intros row (result & HP & ->). apply render_row_timeout, HP.
Qed.

(** C8.  For a run over [total] endpoints, the percentage printed after
    the [c1]-th recorded result is at most the one printed after any
    later, [c2]-th, one, and the percentage printed when the count
    reaches [total] is exactly 100.0.  In every run of the pool the
    n-th line printed is the one [showProgress] makes for the count n,
    one line per collected result.  That line shows the bar, the count,
    the total and the percentage: the number of tenths of a percent,
    written with one digit after the point.  The number lies between 0
    and 1000 and, for totals a float64 holds exactly, within one tenth
    of a percent of the share of the endpoints checked. *)
Theorem progress_percentage_monotone (total c1 c2 : Z) :
  1 <= c1 -> c1 <= c2 -> c2 <= total ->
  progress_tenths c1 total <= progress_tenths c2 total /\
  progress_tenths total total = 1000 /\
  progress_text total total = "100.0" /\
  (forall numWorkers hosts schedule s,
      Z.of_nat (length hosts) = total ->
      run numWorkers hosts schedule (start hosts) = Some s ->
      Forall2 (fun n line => showProgress (Z.of_nat n) total = Some line)
              (seq 1 (length (allResults s))) (progress s)) /\
  (forall c,
      1 <= c -> c <= total ->
      showProgress c total =
        Some (String "013" ("检测进度: [" +:+ bar (filled c total) +:+ "] " +:+
                            fmt.d c +:+ "/" +:+ fmt.d total +:+ " (" +:+
                            fmt.d (progress_tenths c total / 10) +:+ "." +:+
                            fmt.d (progress_tenths c total mod 10) +:+ "%)")) /\
      0 <= filled c total <= 40 /\
      0 <= progress_tenths c total <= 1000 /\
      (total < 2 ^ 53 ->
       (progress_tenths c total - 1) * total <= 1000 * c
       <= (progress_tenths c total + 1) * total)).
Proof.
  intros H1 H12 H2. split; [|split; [|split; [|split]]].
  - apply progress_tenths_mono; lia.
  - apply progress_tenths_full. lia.
  - apply progress_text_full. lia.
  - intros numWorkers hosts schedule s <- E.
    apply (inv_progress _ _ _ (Inv_reachable numWorkers hosts schedule s E)).
  - intros c Hc Hct. split; [|split; [|split]].
    + rewrite (showProgress_line c total Hc Hct). unfold progress_line.
      rewrite (progress_text_tenths c total Hc Hct), !append_assoc. reflexivity.
    + split; [apply filled_nonneg; lia|].
      rewrite <- (filled_full total) by lia. apply filled_mono; lia.
    + apply progress_tenths_bounds; assumption.
    + intros H53. apply progress_tenths_accurate; assumption.
Qed.

Lemma progress_percentage_monotone_witness :
  progress_tenths 1 3 <= progress_tenths 2 3 /\
  progress_tenths 3 3 = 1000 /\
  progress_text 3 3 = "100.0".
Proof.
  destruct (progress_percentage_monotone 3 1 2) as (Hm & Hf & Ht & _); [lia | lia | lia |].
  split; [exact Hm|]. split; [exact Hf | exact Ht].
Defined.

(** ** The progress bar *)

Lemma percentage_below_one c t :
  1 <= c -> c < t -> t < 2 ^ 53 -> (percentage c t <= round below_one)%Q.
Proof.
  intros Hc Hct Ht. unfold percentage, div.
  assert (Ec := of_int_exact c ltac:(lia)). assert (Et := of_int_exact t ltac:(lia)).
  assert (Hc' : (1 <= inject_Z c)%Q) by (change 1%Q with (inject_Z 1); rewrite <- Zle_Qle; lia).
  assert (Ht' : (inject_Z c + 1 <= inject_Z t)%Q).
  { rewrite <- inject_Z_succ, <- Zle_Qle. lia. }
  assert (Ht53 : (inject_Z t <= pow2 53)%Q).
  { rewrite (pow2_Z 53) by lia. rewrite <- Zle_Qle. lia. }
  pose proof (pow2_pos 53) as Hp.
  apply round_mono.
  - apply Qle_shift_div_l; lra.
  - rewrite Ec, Et. unfold below_one.
    apply Qle_shift_div_r; [lra|].
    assert (E : ((1 - 1 / pow2 53) * inject_Z t == inject_Z t - inject_Z t / pow2 53)%Q)
      by (field; lra).
    rewrite E.
    assert (Hq : (inject_Z t / pow2 53 <= 1)%Q) by (apply Qle_shift_div_r; lra).
    lra.
Qed.

Lemma filled_below c t :
  1 <= c -> c < t -> t < 2 ^ 53 -> filled c t <= 39.
Proof.
  intros Hc Hct Ht. rewrite filled_floor by lia.
  assert (E : Qfloor (mul (of_int 40) (round below_one)) = 39) by (vm_compute; reflexivity).
  rewrite <- E. apply Qfloor_resp_le, mul_mono_r.
  - apply percentage_nonneg; lia.
  - apply percentage_below_one; lia.
  - rewrite of_int_40. discriminate.
Qed.

Lemma append_length (s t : string) :
  String.length (s +:+ t) = (String.length s + String.length t)%nat.
Proof.
  induction s as [|c s IH]; [reflexivity|]. rewrite append_cons. simpl. rewrite IH. reflexivity.
Qed.

Lemma Repeat_length s n : String.length (strings.Repeat s n) = (n * String.length s)%nat.
Proof.
  induction n as [|n IH]; simpl; [reflexivity|].
  rewrite append_length, IH. reflexivity.
Qed.

Lemma bar_length cells : 0 <= cells <= 40 -> String.length (bar cells) = 120%nat.
Proof.
  intros H. unfold bar. rewrite append_length, !Repeat_length.
  change (String.length "█") with 3%nat. change (String.length "░") with 3%nat. lia.
Qed.

(** X1.  While the count of recorded results is between 1 and the total,
    [showProgress] does not panic: the number of filled cells it computes
    in float64 lies between 0 and 40, and the line it prints holds a bar
    of exactly 40 cells (120 bytes), the filled ones first. *)
Theorem progress_bar_has_forty_cells (current total : Z) :
  1 <= current -> current <= total ->
  0 <= filled current total <= 40 /\
  showProgress current total = Some (progress_line (filled current total) current total) /\
  String.length (bar (filled current total)) = 120%nat.
Proof.
  intros Hc Hct.
  assert (H : 0 <= filled current total <= 40).
  { split; [apply filled_nonneg; lia|].
    rewrite <- (filled_full total) by lia. apply filled_mono; lia. }
  split; [exact H|]. split; [apply showProgress_line; assumption | apply bar_length, H].
Qed.

Lemma progress_bar_has_forty_cells_witness :
  0 <= filled 1 3 <= 40 /\
  showProgress 1 3 = Some (progress_line (filled 1 3) 1 3) /\
  String.length (bar (filled 1 3)) = 120%nat.
Proof. apply (progress_bar_has_forty_cells 1 3); lia. Defined.

(** X2.  Over a run with fewer than 2^53 endpoints the bar never
    shrinks, and it is completely filled exactly when the count has
    reached the total. *)
Theorem progress_bar_full_at_the_end (total c1 c2 : Z) :
  1 <= c1 -> c1 <= c2 -> c2 <= total -> total < 2 ^ 53 ->
  filled c1 total <= filled c2 total /\
  (filled c2 total = 40 <-> c2 = total).
Proof.
  intros H1 H12 H2 Ht. split; [apply filled_mono; lia|]. split.
  - intros H. destruct (Z.eq_dec c2 total) as [E|E]; [exact E|].
    pose proof (filled_below c2 total ltac:(lia) ltac:(lia) Ht). lia.
  - intros ->. apply filled_full. lia.
Qed.

Lemma progress_bar_full_at_the_end_witness :
  filled 1 3 <= filled 2 3 /\ (filled 2 3 = 40 <-> 2 = 3).
Proof. apply (progress_bar_full_at_the_end 3 1 2); lia. Defined.

(** ** The time column *)

Lemma of_int_nonneg n : 0 <= n -> (0 <= of_int n)%Q.
Proof. intros H. apply round_nonneg, inject_Z_nonneg, H. Qed.

Lemma add_mono a b c d :
  (0 <= a)%Q -> (0 <= b)%Q -> (a <= c)%Q -> (b <= d)%Q -> (add a b <= add c d)%Q.
Proof. intros Ha Hb Hac Hbd. unfold add. apply round_mono; lra. Qed.

(** The fraction of a second is a float64 between 0 and 1. *)
Lemma fraction_bounds r :
  0 <= r < 1000000000 ->
  (0 <= div (of_int r) (of_int 1000000000) <= 1)%Q.
Proof.
  intros Hr.
  assert (E9 : (of_int 1000000000 == 1000000000)%Q) by (vm_compute; reflexivity).
  pose proof (of_int_nonneg r ltac:(lia)) as H0.
  pose proof (of_int_mono r 1000000000 ltac:(lia) ltac:(lia)) as H1.
  split.
  - apply round_nonneg. apply Qle_shift_div_l; lra.
  - rewrite <- round_1. unfold div. apply round_mono.
    + apply Qle_shift_div_l; lra.
    + apply Qle_shift_div_r; lra.
Qed.

Lemma Seconds_mono t1 t2 :
  0 <= t1 -> t1 <= t2 -> t2 < 2 ^ 64 -> (Seconds t1 <= Seconds t2)%Q.
Proof.
  intros H1 H12 H2. unfold Seconds.
  assert (Hq1 : 0 <= Z.quot t1 1000000000) by (apply Z.quot_pos; lia).
  assert (Hq12 : Z.quot t1 1000000000 <= Z.quot t2 1000000000)
    by (apply Z.quot_le_mono; lia).
  assert (Hr1 : 0 <= Z.rem t1 1000000000 < 1000000000) by (apply Z.rem_bound_pos; lia).
  assert (Hr2 : 0 <= Z.rem t2 1000000000 < 1000000000) by (apply Z.rem_bound_pos; lia).
  pose proof (fraction_bounds _ Hr1) as [F1 F1'].
  pose proof (fraction_bounds _ Hr2) as [F2 F2'].
  assert (E9 : (of_int 1000000000 == 1000000000)%Q) by (vm_compute; reflexivity).
  destruct (Z.eq_dec (Z.quot t1 1000000000) (Z.quot t2 1000000000)) as [Eq|Ne].
  - rewrite Eq. apply add_mono; [apply of_int_nonneg; lia | exact F1 | lra |].
    apply div_mono; [apply of_int_nonneg; lia | | lra].
    apply of_int_mono; [lia|].
    pose proof (Z.quot_rem' t1 1000000000). pose proof (Z.quot_rem' t2 1000000000). lia.
  - assert (Hq2 : Z.quot t2 1000000000 < 2 ^ 53).
    { apply Z.quot_lt_upper_bound; lia. }
    pose proof (of_int_exact (Z.quot t1 1000000000) ltac:(lia)) as E1.
    pose proof (of_int_exact (Z.quot t2 1000000000) ltac:(lia)) as E2.
    unfold add. apply round_mono.
    + pose proof (of_int_nonneg _ Hq1). lra.
    + rewrite E1, E2.
      assert (Hs : (inject_Z (Z.quot t1 1000000000) + 1 <= inject_Z (Z.quot t2 1000000000))%Q).
      { rewrite <- inject_Z_succ, <- Zle_Qle. lia. }
      lra.
Qed.

Lemma Seconds_nonneg t : 0 <= t -> (0 <= Seconds t)%Q.
Proof.
  intros H. unfold Seconds, add.
  assert (Hr : 0 <= Z.rem t 1000000000 < 1000000000) by (apply Z.rem_bound_pos; lia).
  pose proof (fraction_bounds _ Hr) as [F _].
  pose proof (of_int_nonneg (Z.quot t 1000000000) ltac:(apply Z.quot_pos; lia)).
  apply round_nonneg. lra.
Qed.

Lemma hundredths_mono t1 t2 :
  0 <= t1 -> t1 <= t2 -> t2 < 2 ^ 64 ->
  fmt.fixed 2 (Seconds t1) <= fmt.fixed 2 (Seconds t2).
Proof.
  intros H1 H12 H2. unfold fmt.fixed. apply rne_mono.
  apply Qmult_le_compat_r; [apply Seconds_mono; assumption | discriminate].
Qed.

Lemma rne_near x n :
  (inject_Z n - (1 # 2) < x)%Q -> (x < inject_Z n + (1 # 2))%Q -> rne x = n.
Proof.
  intros Hlo Hhi. pose proof (rne_bounds x) as [Rlo Rhi].
  assert (H1 : (inject_Z (rne x) < inject_Z (n + 1))%Q) by (rewrite inject_Z_succ; lra).
  assert (H2 : (inject_Z (n - 1) < inject_Z (rne x))%Q).
  { replace n with ((n - 1) + 1) in Hlo by lia. rewrite inject_Z_succ in Hlo. lra. }
  rewrite <- Zlt_Qlt in H1, H2. lia.
Qed.

Lemma fraction_hundredths j :
  0 <= j < 100 ->
  let f := div (of_int (j * 10000000)) (of_int 1000000000) in
  (inject_Z j / 100 - pow2 (-50) <= f <= inject_Z j / 100 + pow2 (-50))%Q.
Proof.
  intros Hj f.
  assert (All : forallb fraction_ok (map Z.of_nat (seq 0 100)) = true)
    by (vm_compute; reflexivity).
  rewrite forallb_forall in All.
  assert (Hin : In j (map Z.of_nat (seq 0 100))).
  { apply in_map_iff. exists (Z.to_nat j). split; [lia|]. apply in_seq. lia. }
  specialize (All j Hin). unfold fraction_ok in All.
  apply andb_true_iff in All. destruct All as [A B].
  apply Qle_bool_iff in A, B. split; assumption.
Qed.

Lemma hundredths_exact k :
  0 <= k -> k * 10000000 < 2 ^ 64 -> fmt.fixed 2 (Seconds (k * 10000000)) = k.
Proof.
  intros H0 H64.
  set (q := k / 100). set (j := k mod 100).
  assert (Hk : k = 100 * q + j) by (unfold q, j; apply Z.div_mod; lia).
  assert (Hj : 0 <= j < 100) by (unfold j; apply Z.mod_pos_bound; lia).
  assert (Hq : 0 <= q) by (unfold q; apply Z.div_pos; lia).
  clearbody q j. subst k.
  assert (Et : (100 * q + j) * 10000000 = q * 1000000000 + j * 10000000) by lia.
  assert (Equot : Z.quot ((100 * q + j) * 10000000) 1000000000 = q).
  { rewrite Z.quot_div_nonneg by lia. rewrite Et.
    rewrite Z.add_comm, Z.div_add by lia. rewrite Z.div_small by lia. lia. }
  assert (Erem : Z.rem ((100 * q + j) * 10000000) 1000000000 = j * 10000000).
  { rewrite Z.rem_mod_nonneg by lia. rewrite Et.
    rewrite Z.add_comm, Z.mod_add by lia. apply Z.mod_small. lia. }
  unfold Seconds. rewrite Equot, Erem.
  pose proof (fraction_hundredths j Hj) as [Flo Fhi]. cbv zeta in Flo, Fhi.
  set (f := div (of_int (j * 10000000)) (of_int 1000000000)) in *.
  assert (Hq36 : q < 2 ^ 35) by lia.
  pose proof (of_int_exact q ltac:(lia)) as Eq.
  assert (Hqq : (0 <= inject_Z q)%Q) by (apply inject_Z_nonneg; exact Hq).
  assert (Hq35 : (inject_Z q < pow2 35)%Q).
  { rewrite (pow2_Z 35) by lia. rewrite <- Zlt_Qlt. exact Hq36. }
  assert (Hjq : (0 <= inject_Z j / 100 <= 1)%Q).
  { assert (A : (0 <= inject_Z j)%Q) by (apply inject_Z_nonneg; lia).
    assert (B : (inject_Z j <= 100)%Q).
    { change 100%Q with (inject_Z 100). rewrite <- Zle_Qle. lia. }
    split; [apply Qle_shift_div_l | apply Qle_shift_div_r]; lra. }
  assert (P50 : (pow2 (-50) == 1 # 1125899906842624)%Q) by (vm_compute; reflexivity).
  assert (P18 : (pow2 (-18) == 1 # 262144)%Q) by (vm_compute; reflexivity).
  assert (P35 : (pow2 36 == 2 * pow2 35)%Q) by (vm_compute; reflexivity).
  assert (P35' : (1 <= pow2 35)%Q) by (vm_compute; discriminate).
  assert (Hf0 : (0 <= f)%Q).
  { apply round_nonneg. apply Qle_shift_div_l; [vm_compute; reflexivity|].
    pose proof (of_int_nonneg (j * 10000000) ltac:(lia)). lra. }
  unfold add.
  pose proof (round_error_small (of_int q + f)%Q ltac:(lra) ltac:(lra)) as [Rlo Rhi].
  unfold fmt.fixed. change (inject_Z (fmt.scale 2)) with 100%Q.
  apply rne_near.
  - rewrite inject_Z_plus, inject_Z_mult. change (inject_Z 100) with 100%Q.
    assert (E : (inject_Z j == 100 * (inject_Z j / 100))%Q) by (field).
    lra.
  - rewrite inject_Z_plus, inject_Z_mult. change (inject_Z 100) with 100%Q.
    assert (E : (inject_Z j == 100 * (inject_Z j / 100))%Q) by (field).
    lra.
Qed.

Lemma hundredths_accurate t :
  0 <= t -> t < 2 ^ 63 ->
  t / 10000000 <= fmt.fixed 2 (Seconds t) <= t / 10000000 + 1.
Proof.
  intros H0 H63. set (k := t / 10000000).
  assert (Hk : 0 <= k) by (unfold k; apply Z.div_pos; lia).
  assert (Hlo : k * 10000000 <= t) by (unfold k; pose proof (Z.mul_div_le t 10000000); lia).
  assert (Hhi : t < (k + 1) * 10000000).
  { unfold k. pose proof (Z.mul_succ_div_gt t 10000000 ltac:(lia)). lia. }
  split.
  - rewrite <- (hundredths_exact k Hk ltac:(lia)) at 1.
    apply hundredths_mono; lia.
  - rewrite <- (hundredths_exact (k + 1) ltac:(lia) ltac:(lia)).
    apply hundredths_mono; lia.
Qed.

Lemma fmt_f_nonneg prec x :
  (0 <= x)%Q ->
  let t := fmt.fixed prec x in
  fmt.f prec x =
  fmt.d (t / fmt.scale prec) +:+ "." +:+
  fmt.zeros (prec - String.length (fmt.d (t mod fmt.scale prec))) +:+
  fmt.d (t mod fmt.scale prec).
Proof.
  intros Hx t. unfold fmt.f. fold t.
  assert (Hn : (Qnum x <? 0) = false).
  { apply Z.ltb_ge. unfold Qle in Hx. simpl in Hx. lia. }
  assert (Ht : 0 <= t).
  { unfold t, fmt.fixed. apply rne_nonneg.
    apply Qmult_le_0_compat; [exact Hx|]. apply inject_Z_nonneg.
    unfold fmt.scale. apply Z.pow_nonneg. lia. }
  rewrite Hn, (Z.abs_eq t Ht), append_nil_l. reflexivity.
Qed.

(** X3.  For a measured duration of [t1] nanoseconds the time column
    shows the seconds with two decimals: the number of hundredths printed
    is [t1] rounded down or up to a hundredth of a second, never further
    off, and a longer duration never prints a smaller number. *)
Theorem time_column_is_accurate (t1 t2 : Duration) :
  0 <= t1 -> t1 <= t2 -> t2 < 2 ^ 63 ->
  let hundredths := fmt.fixed 2 (Seconds t1) in
  t1 / 10000000 <= hundredths <= t1 / 10000000 + 1 /\
  hundredths <= fmt.fixed 2 (Seconds t2) /\
  forall result,
    Time result = t1 -> IsTimeout result = false ->
    cell_timeStr (render_row result) =
    fmt.d (hundredths / 100) +:+ "." +:+
    fmt.zeros (2 - String.length (fmt.d (hundredths mod 100))) +:+
    fmt.d (hundredths mod 100) +:+ "s".
Proof.
  intros H0 H12 H2 hundredths.
  split; [apply hundredths_accurate; lia|].
  split; [apply hundredths_mono; lia|].
  intros result Ht Hto. unfold render_row. cbn [cell_timeStr]. rewrite Hto, Ht. simpl negb.
  cbv iota. rewrite (fmt_f_nonneg 2 (Seconds t1) (Seconds_nonneg t1 H0)). cbv zeta.
  fold hundredths. change (fmt.scale 2) with 100.
  rewrite !append_assoc. reflexivity.
Qed.

Lemma time_column_is_accurate_witness :
  5 <= fmt.fixed 2 (Seconds 50000000) <= 6 /\
  fmt.fixed 2 (Seconds 50000000) <= fmt.fixed 2 (Seconds 1234567890).
Proof.
  destruct (time_column_is_accurate 50000000 1234567890) as (Ha & Hm & _); [lia | lia | lia |].
  split; [exact Ha | exact Hm].
Defined.

(** ** Reading the endpoint list again *)

Lemma TrimRightSpace_idempotent s :
  strings.TrimRightSpace (strings.TrimRightSpace s) = strings.TrimRightSpace s.
Proof.
  unfold strings.TrimRightSpace. rewrite rev_involutive.
  rewrite (clean_end_rev_fixed _ (clean_end_TrimRightSpace_rev _ _ (le_n _))).
  reflexivity.
Qed.

Lemma TrimSpace_idempotent s :
  strings.TrimSpace (strings.TrimSpace s) = strings.TrimSpace s.
Proof.
  unfold strings.TrimSpace.
  assert (H : strings.TrimLeftSpace (strings.TrimRightSpace (strings.TrimLeftSpace s)) =
              strings.TrimRightSpace (strings.TrimLeftSpace s)).
  { apply clean_start_fixed.
    destruct (TrimRightSpace_prefix (strings.TrimLeftSpace s)) as [cut E].
    apply (clean_start_prefix _ cut). rewrite <- E.
    apply (clean_start_TrimLeftSpace _ _ (le_n _)). }
  rewrite H. apply TrimRightSpace_idempotent.
Qed.

Lemma kept_line line :
  ignored line = false ->
  let host := strings.TrimSpace line in
  host <> "" /\ strings.HasPrefix host "#" = false /\ strings.TrimSpace host = host /\
  ignored host = false.
Proof.
  intros H host. unfold ignored in H. cbv zeta in H. fold host in H.
  apply orb_false_iff in H. destruct H as [H1 H2].
  assert (Hi : strings.TrimSpace host = host) by apply TrimSpace_idempotent.
  split; [apply String.eqb_neq, H1|]. split; [exact H2|]. split; [exact Hi|].
  unfold ignored. cbv zeta. rewrite Hi, H1, H2. reflexivity.
Qed.

Lemma scan_hosts_kept lines :
  Forall (fun host => host <> "" /\ strings.HasPrefix host "#" = false /\
                      strings.TrimSpace host = host /\ ignored host = false)
         (scan_hosts lines).
Proof.
  unfold scan_hosts. rewrite (scan_hosts_acc lines []). simpl.
  induction lines as [|line lines IH]; simpl; [constructor|].
  destruct (ignored line) eqn:E; simpl; [exact IH|].
  constructor; [apply kept_line, E | exact IH].
Qed.

Lemma scan_hosts_fixed lines : scan_hosts (scan_hosts lines) = scan_hosts lines.
Proof.
  pose proof (scan_hosts_kept lines) as H.
  unfold scan_hosts at 1. rewrite (scan_hosts_acc (scan_hosts lines) []). simpl.
  induction H as [|host hosts (_ & _ & Ht & Hi) _ IH]; simpl; [reflexivity|].
  rewrite Hi. simpl. rewrite Ht, IH. reflexivity.
Qed.

(** X4.  Reading the list of endpoints again, one endpoint per line,
    gives the same list: an endpoint is never dropped and trimming it
    changes nothing, as trimming twice is trimming once. *)
Theorem endpoint_list_reads_back (lines : list string) :
  scan_hosts (scan_hosts lines) = scan_hosts lines /\
  Forall (fun host => ignored host = false /\ strings.TrimSpace host = host)
         (scan_hosts lines) /\
  forall line, strings.TrimSpace (strings.TrimSpace line) = strings.TrimSpace line.
Proof.
  split; [apply scan_hosts_fixed|]. split; [|apply TrimSpace_idempotent].
  eapply Forall_impl; [apply scan_hosts_kept|]. simpl. tauto.
Qed.

(** ** The status column and the counts of the report *)

Lemma string_of_uint_head d :
  d <> Decimal.Nil ->
  exists c rest, NilZero.string_of_uint d = String c rest /\ c <> "-"%char.
Proof.
  destruct d; intros H; try congruence; simpl; eexists; eexists;
    (split; [reflexivity | discriminate]).
Qed.

Lemma fmt_d_not_dash n : fmt.d n <> "-".
Proof.
  unfold fmt.d. destruct n as [|p|p]; simpl.
  - discriminate.
  - destruct (string_of_uint_head (Pos.to_uint p) (DecimalPos.Unsigned.to_uint_nonnil p))
      as (c & rest & -> & Hc). congruence.
  - destruct (string_of_uint_head (Pos.to_uint p) (DecimalPos.Unsigned.to_uint_nonnil p))
      as (c & rest & -> & _). discriminate.
Qed.

Lemma read_decimal_fmt_d n : read_decimal (fmt.d n) = Some n.
Proof.
  unfold read_decimal, fmt.d. rewrite NilZero.isi.
  - simpl. rewrite DecimalZ.of_to. reflexivity.
  - destruct n as [|p|p]; simpl; try discriminate.
    intros H. injection H as H. exact (DecimalPos.Unsigned.to_uint_nonnil p H).
  - destruct n as [|p|p]; simpl; try discriminate.
    intros H. injection H as H. exact (DecimalPos.Unsigned.to_uint_nonnil p H).
Qed.

Lemma statusCode_cell result :
  (cell_statusCode (render_row result) = "-" <-> StatusCode result = 0) /\
  (StatusCode result <> 0 ->
   read_decimal (cell_statusCode (render_row result)) = Some (StatusCode result)).
Proof.
  unfold render_row. cbn [cell_statusCode].
  destruct (StatusCode result =? 0) eqn:E.
  - apply Z.eqb_eq in E. split; [tauto | congruence].
  - apply Z.eqb_neq in E. split.
    + split; [intros H; exfalso; exact (fmt_d_not_dash _ H) | congruence].
    + intros _. apply read_decimal_fmt_d.
Qed.

Lemma successCount_acc l : forall n,
  fold_left (fun n result => if succeeded result then n + 1 else n) l n =
  n + Z.of_nat (length (List.filter succeeded l)).
Proof.
  induction l as [|r l IH]; intros n; simpl; [lia|].
  rewrite IH. destruct (succeeded r); simpl; lia.
Qed.

Lemma successCount_filter l :
  successCount l = Z.of_nat (length (List.filter succeeded l)).
Proof. unfold successCount. rewrite successCount_acc. lia. Qed.

Lemma filter_length_le {A} (p : A -> bool) l :
  (length (List.filter p l) <= length l)%nat.
Proof. induction l as [|x l IH]; simpl; [lia|]. destruct (p x); simpl; lia. Qed.

Lemma allResults_after_sort_Permutation sorter listSuccess l :
  Permutation (allResults_after_sort sorter listSuccess l) l.
Proof.
  unfold allResults_after_sort. destruct listSuccess; [reflexivity|].
  apply (displayResults_Permutation sorter false l).
Qed.

Lemma report_counts sorter listSuccess l :
  let r := report sorter listSuccess l in
  summary_total r = Z.of_nat (length l) /\
  summary_success r = Z.of_nat (length (List.filter succeeded l)) /\
  0 <= summary_success r <= summary_total r /\
  Z.of_nat (length (rows r)) = (if listSuccess then summary_success r else summary_total r).
Proof.
  intros r. unfold r, report. cbn [summary_total summary_success rows].
  pose proof (allResults_after_sort_Permutation sorter listSuccess l) as HP.
  assert (Ht : length (allResults_after_sort sorter listSuccess l) = length l)
    by (apply Permutation_length, HP).
  assert (Hs : length (List.filter succeeded (allResults_after_sort sorter listSuccess l)) =
               length (List.filter succeeded l))
    by (apply Permutation_length, filter_Permutation', HP).
  rewrite successCount_filter, Ht, Hs.
  pose proof (filter_length_le succeeded l) as Hle.
  split; [reflexivity|]. split; [reflexivity|]. split; [lia|].
  rewrite length_map.
  pose proof (Permutation_length (displayResults_Permutation sorter listSuccess l)) as Hd.
  rewrite Hd. destruct listSuccess; reflexivity.
Qed.

Lemma produced_succeeded result :
  produced result -> succeeded result = Available result.
Proof.
  intros HP. pose proof (produced_not_both result HP) as H.
  unfold succeeded. destruct (Available result), (IsTimeout result); try reflexivity.
  discriminate H.
Qed.

Lemma marked_reachable_row result :
  marked_reachable (render_row result) = Available result.
Proof.
  unfold marked_reachable, render_row. cbn [cell_status].
  destruct (Available result); reflexivity.
Qed.

Lemma marked_rows l :
  Forall produced l ->
  List.filter marked_reachable (map render_row l) =
  map render_row (List.filter succeeded l).
Proof.
  induction 1 as [|r l Hr _ IH]; simpl; [reflexivity|].
  rewrite marked_reachable_row, (produced_succeeded r Hr), IH.
  destruct (Available r); reflexivity.
Qed.

(** X5.  The summary counts every collected result and, among them, the
    reachable ones that did not time out, whatever the sort did to the
    slice; the table has as many rows as the total, and with [-l] as many
    as the successes. *)
Theorem report_counts_agree (sorter : sort.Sorter) (listSuccess : bool)
  (arrived : list CheckResult) :
  let r := report sorter listSuccess arrived in
  summary_total r = Z.of_nat (length arrived) /\
  summary_success r = Z.of_nat (length (List.filter succeeded arrived)) /\
  0 <= summary_success r <= summary_total r /\
  Z.of_nat (length (rows r)) = (if listSuccess then summary_success r else summary_total r).
Proof. apply report_counts. Qed.

(** X6.  In the report of a run of the pool the rows marked as reachable
    are as many as the successes the summary counts, and they are the
    rows the table shows under [-l]: a result built by [worker] is never
    reachable and timed out at once. *)
Theorem reachable_marks_are_the_successes (numWorkers : Z) (hosts : list string)
  (schedule : list Action) (s : State) (sorter : sort.Sorter) :
  run numWorkers hosts schedule (start hosts) = Some s ->
  let full := report sorter false (allResults s) in
  let shown := report sorter true (allResults s) in
  Z.of_nat (length (List.filter marked_reachable (rows full))) = summary_success full /\
  Permutation (List.filter marked_reachable (rows full)) (rows shown).
Proof.
  intros E full shown.
  pose proof (collected_produced numWorkers hosts schedule s E) as HP.
  assert (HPd : Forall produced (displayResults sorter false (allResults s))).
  { apply List.Forall_forall. intros x Hx.
    apply (Permutation_in _ (displayResults_Permutation sorter false _)) in Hx.
    revert x Hx. apply List.Forall_forall, HP. }
  assert (Hrows : Permutation (List.filter marked_reachable (rows full)) (rows shown)).
  { unfold full, shown, report. cbn [rows].
    rewrite (marked_rows _ HPd). apply Permutation_map.
    symmetry. apply successes_of_full. }
  split; [|exact Hrows].
  rewrite (Permutation_length Hrows).
  destruct (report_counts sorter true (allResults s)) as (_ & Hs & _ & Hr).
  destruct (report_counts sorter false (allResults s)) as (_ & Hs' & _).
  fold shown in Hs, Hr. fold full in Hs'. rewrite Hr, Hs, Hs'. reflexivity.
Qed.

Lemma reachable_marks_are_the_successes_witness :
  exists s,
    run 2 demo_hosts demo_schedule (start demo_hosts) = Some s /\
    Z.of_nat (length (List.filter marked_reachable
                        (rows (report insertion_sorter false (allResults s))))) =
    summary_success (report insertion_sorter false (allResults s)).
Proof.
  eexists. split; [vm_compute; reflexivity|].
  match goal with
  | |- context [allResults ?s] =>
    destruct (reachable_marks_are_the_successes 2 demo_hosts demo_schedule s insertion_sorter)
      as [H _]; [vm_compute; reflexivity | exact H]
  end.
Defined.

(** X7.  The status column shows '-' exactly when the status code is 0,
    and otherwise the decimal text of the code: reading it back gives the
    code. *)
Theorem status_column_reads_back (result : CheckResult) :
  (cell_statusCode (render_row result) = "-" <-> StatusCode result = 0) /\
  (StatusCode result <> 0 ->
   read_decimal (cell_statusCode (render_row result)) = Some (StatusCode result)).
Proof. apply statusCode_cell. Qed.

(** ** The worker pool: sends, bounds and order *)

Section PoolMore.
Variable numWorkers : Z.
Variable hosts : list string.

Lemma Inv_in_flight_length s :
  Inv numWorkers hosts s ->
  length hosts =
  (length (unsent hosts (pc s)) + length (buf (jobs s)) +
   length (flat_map holding (workers s)) + length (buf (results s)) +
   length (allResults s))%nat.
Proof.
  intros HI. pose proof (inv_hosts _ _ _ HI) as HP.
  apply Permutation_length in HP. unfold in_flight in HP.
  rewrite !length_app, !length_map in HP. lia.
Qed.

Lemma holding_at ws id w :
  ws !! id = Some w -> (length (holding w) <= length (flat_map holding ws))%nat.
Proof.
  revert id. induction ws as [|w' ws IH]; intros id H; [discriminate|].
  simpl. rewrite length_app. destruct id as [|id]; simpl in H.
  - injection H as ->. lia.
  - specialize (IH id H). lia.
Qed.

Lemma Inv_send_jobs s host rest :
  Inv numWorkers hosts s -> pc s = MSend (host :: rest) ->
  exists c, send (jobs s) host = Sent c.
Proof.
  intros HI Hpc. pose proof (Inv_in_flight_length s HI) as HL.
  rewrite Hpc in HL. simpl in HL.
  unfold send. rewrite (inv_jobs_closed _ _ _ HI), Hpc. simpl.
  rewrite (inv_cap_jobs _ _ _ HI).
  destruct (length (buf (jobs s)) <? length hosts)%nat eqn:E; [eauto|].
  apply Nat.ltb_ge in E. lia.
Qed.

Lemma Inv_send_results s id result :
  Inv numWorkers hosts s -> workers s !! id = Some (WSend result) ->
  exists c, send (results s) result = Sent c.
Proof.
  intros HI Hw. pose proof (Inv_in_flight_length s HI) as HL.
  pose proof (holding_at _ _ _ Hw) as Hh. simpl in Hh.
  assert (Hopen : closed (results s) = false).
  { rewrite (inv_results_closed _ _ _ HI). destruct (closer s) eqn:Hc; try reflexivity.
    assert (H : closer_past_wait (closer s) = true) by (rewrite Hc; reflexivity).
    apply (inv_closer_waited _ _ _ HI) in H.
    rewrite Forall_lookup in H. specialize (H id _ Hw). discriminate H. }
  unfold send. rewrite Hopen, (inv_cap_results _ _ _ HI).
  destruct (length (buf (results s)) <? length hosts)%nat eqn:E; [eauto|].
  apply Nat.ltb_ge in E. lia.
Qed.

Lemma getting_holding ws :
  (length (List.filter getting ws) <= length (flat_map holding ws))%nat.
Proof.
  induction ws as [|w ws IH]; simpl; [lia|].
  rewrite length_app. destruct w; simpl; lia.
Qed.

Lemma Inv_workers_bound s :
  Inv numWorkers hosts s -> (length (workers s) <= Z.to_nat numWorkers)%nat.
Proof.
  intros HI. pose proof (inv_spawned _ _ _ HI) as H. destruct (pc s); lia.
Qed.

End PoolMore.

Section OneWorker.
Variable hosts : list string.

Lemma one_worker (ws : list WorkerPC) :
  (length ws <= 1)%nat -> ws = [] \/ exists w, ws = [w].
Proof.
  destruct ws as [|w [|w' ws]]; simpl; intros H; [left; reflexivity | right; eauto | lia].
Qed.

Lemma pipeline_start : pipeline hosts (start hosts) = hosts.
Proof. reflexivity. Qed.

Ltac pipeline_bufs :=
  repeat match goal with Hs : buf ?c = _ |- context [buf ?c] => rewrite Hs end.

Ltac pipeline_same Hpc Hws HP :=
  simpl; rewrite ?Hpc, ?Hws; simpl; pipeline_bufs; rewrite ?Host_worker_body; exact HP.

Ltac pipeline_moved Hpc Hws HP :=
  simpl; rewrite ?Hpc, ?Hws; simpl; pipeline_bufs; rewrite ?map_app; simpl;
  (etransitivity; [|exact HP]); rewrite <- ?app_assoc; reflexivity.

Lemma pipeline_exec a s s' :
  Inv 1 hosts s -> exec 1 hosts a s = Some s' ->
  pipeline hosts s = hosts -> pipeline hosts s' = hosts.
Proof.
  intros HI E HP.
  pose proof (Inv_workers_bound 1 hosts s HI) as Hb.
  unfold exec in E. destruct (panicked s); [discriminate|].
  unfold pipeline in *.
  destruct (one_worker _ Hb) as [Hws|[w Hws]];
    rewrite Hws in HP; simpl in HP;
    destruct (pc s) eqn:Hpc; try discriminate; simpl in HP;
    destruct a; simpl in E.
  all: unfold step_main, step_worker, step_get, step_closer in E;
    rewrite ?Hpc, ?Hws in E; simpl in E.
  all: try (destruct id as [|[|id]]; simpl in E); try discriminate E.
  all: try (destruct w; try discriminate E).
  all: repeat match type of E with
       | context [send ?c ?v] =>
         let Hs := fresh "Hs" in
         destruct (send c v) eqn:Hs; [apply send_Sent in Hs; rewrite ?Hs| |]
       | context [recv ?c] =>
         let Hr := fresh "Hr" in
         destruct (recv c) eqn:Hr; [apply recv_Received in Hr; rewrite Hr in HP| |]
       | context [if ?b then _ else _] => destruct b
       | context [match ?x with _ => _ end] => destruct x
       end; try discriminate E.
  all: injection E as <-.
  all: first [ pipeline_same Hpc Hws HP | pipeline_moved Hpc Hws HP | idtac ].
Qed.

Lemma pipeline_run schedule : forall s s',
  Inv 1 hosts s -> run 1 hosts schedule s = Some s' ->
  pipeline hosts s = hosts -> pipeline hosts s' = hosts.
Proof.
  induction schedule as [|a schedule IH]; simpl; intros s s' HI E HP.
  - injection E as <-. exact HP.
  - destruct (exec 1 hosts a s) as [s1|] eqn:E1; [|discriminate].
    apply (IH s1 s'); [eapply Inv_exec; eassumption | exact E |].
    eapply pipeline_exec; eassumption.
Qed.

End OneWorker.

(** X8.  In a run of the pool no send ever waits: whenever [main] is
    about to put an endpoint on [jobs], and whenever a worker is about to
    put its result on [results], the channel is open and has room. *)
Theorem sends_never_block (numWorkers : Z) (hosts : list string)
  (schedule : list Action) (s : State) :
  run numWorkers hosts schedule (start hosts) = Some s ->
  (forall host rest, pc s = MSend (host :: rest) ->
     exists c, send (jobs s) host = Sent c) /\
  (forall id result, workers s !! id = Some (WSend result) ->
     exists c, send (results s) result = Sent c).
Proof.
  intros E. pose proof (Inv_reachable numWorkers hosts schedule s E) as HI. split.
  - intros host rest Hpc. exact (Inv_send_jobs numWorkers hosts s host rest HI Hpc).
  - intros id result Hw. exact (Inv_send_results numWorkers hosts s id result HI Hw).
Qed.

Lemma sends_never_block_witness :
  exists s,
    run 2 demo_hosts (firstn 9 demo_schedule) (start demo_hosts) = Some s /\
    exists result c,
      workers s !! 0%nat = Some (WSend result) /\ send (results s) result = Sent c.
Proof.
  eexists. split; [vm_compute; reflexivity|].
  eexists.
  match goal with
  | |- exists c, ?ws !! _ = Some (WSend ?r) /\ send (results ?s) _ = _ =>
    destruct (sends_never_block 2 demo_hosts (firstn 9 demo_schedule) s) as [_ H];
      [vm_compute; reflexivity|];
      destruct (H 0%nat _ eq_refl) as [c Hc];
      exists c; split; [reflexivity | exact Hc]
  end.
Defined.

(** X9.  At no moment of a run are more checks under way than workers
    were asked for, nor more than there are endpoints; no more workers
    exist than were asked for. *)
Theorem checks_under_way_are_bounded (numWorkers : Z) (hosts : list string)
  (schedule : list Action) (s : State) :
  run numWorkers hosts schedule (start hosts) = Some s ->
  (length (workers s) <= Z.to_nat numWorkers)%nat /\
  (length (List.filter getting (workers s)) <= Z.to_nat numWorkers)%nat /\
  (length (List.filter getting (workers s)) <= length hosts)%nat.
Proof.
  intros E. pose proof (Inv_reachable numWorkers hosts schedule s E) as HI.
  pose proof (Inv_workers_bound numWorkers hosts s HI) as Hb.
  pose proof (filter_length_le getting (workers s)) as Hf.
  pose proof (getting_holding (workers s)) as Hg.
  pose proof (Inv_in_flight_length numWorkers hosts s HI) as Hl.
  split; [exact Hb|]. split; lia.
Qed.

Lemma checks_under_way_are_bounded_witness :
  exists s,
    run 2 demo_hosts (firstn 9 demo_schedule) (start demo_hosts) = Some s /\
    length (List.filter getting (workers s)) = 1%nat /\
    (length (List.filter getting (workers s)) <= Z.to_nat 2)%nat.
Proof.
  eexists. split; [vm_compute; reflexivity|]. split; [reflexivity|].
  match goal with
  | |- (length (List.filter getting (workers ?s)) <= _)%nat =>
    destruct (checks_under_way_are_bounded 2 demo_hosts (firstn 9 demo_schedule) s)
      as (_ & H & _); [vm_compute; reflexivity | exact H]
  end.
Defined.

(** X10.  With a single worker the endpoints run through the pool in
    the order of the file: at every moment the results collected so far
    are those of the first endpoints, in order, and at the end the
    results stand in the order of the endpoint list. *)
Theorem single_worker_keeps_the_order (hosts : list string)
  (schedule : list Action) (s : State) :
  run 1 hosts schedule (start hosts) = Some s ->
  pipeline hosts s = hosts /\
  (exists rest, hosts = map Host (allResults s) ++ rest) /\
  (pc s = MDone -> map Host (allResults s) = hosts).
Proof.
  intros E.
  assert (HP : pipeline hosts s = hosts).
  { apply (pipeline_run hosts schedule (start hosts) s);
      [apply Inv_start | exact E | apply pipeline_start]. }
  split; [exact HP|]. split.
  - eexists. symmetry. exact HP.
  - intros Hd.
    destruct (Inv_done 1 hosts s ltac:(lia) (Inv_reachable 1 hosts schedule s E) Hd)
      as (_ & _ & Hret & Hj & Hr).
    unfold pipeline in HP.
    rewrite Hr, Hj, (holding_returned _ Hret), Hd in HP. simpl in HP.
    rewrite app_nil_r in HP. exact HP.
Qed.

Lemma single_worker_keeps_the_order_witness :
  exists s,
    run 1 demo_hosts single_schedule (start demo_hosts) = Some s /\
    pc s = MDone /\ map Host (allResults s) = demo_hosts.
Proof.
  eexists. split; [vm_compute; reflexivity|]. split; [reflexivity|].
  match goal with
  | |- map Host (allResults ?s) = _ =>
    destruct (single_worker_keeps_the_order demo_hosts single_schedule s)
      as (_ & _ & H); [vm_compute; reflexivity | exact (H eq_refl)]
  end.
Defined.

(** ** Programs and their runs *)

Lemma interp_Runs {A} (p : Prog A) : forall w n,
  Runs p (fst (interp p w n)) (snd (interp p w n)).
Proof.
  induction p as [a|c k IH|]; intros w n; simpl.
  - split; reflexivity.
  - specialize (IH (w n c) w (S n)).
    destruct (interp (k (w n c)) w (S n)) as [events o]. simpl in *.
    exists (w n c), events. split; [reflexivity | exact IH].
  - split; reflexivity.
Qed.

Lemma trace_Runs {A} (p : Prog A) w : Runs p (trace p w) (outcome p w).
Proof. apply interp_Runs. Qed.

Lemma Runs_bind {A B} (p : Prog A) (f : A -> Prog B) : forall events o,
  Runs (bind p f) events o ->
  (exists a t1 t2, Runs p t1 (Returned a) /\ Runs (f a) t2 o /\ events = t1 ++ t2) \/
  (Runs p events Panicked /\ o = Panicked).
Proof.
  induction p as [a|c k IH|]; intros events o H; simpl in H.
  - left. exists a, [], events. repeat split. exact H.
  - destruct H as (r & rest & -> & H). destruct (IH r rest o H) as [(a & t1 & t2 & H1 & H2 & ->)|[H1 ->]].
    + left. exists a, ({| called := c; answer := r |} :: t1), t2.
      split; [exists r, t1; split; [reflexivity | exact H1]|]. split; [exact H2 | reflexivity].
    + right. split; [|reflexivity]. exists r, rest. split; [reflexivity | exact H1].
  - right. destruct H as [-> ->]. split; [split|]; reflexivity.
Qed.

Lemma Runs_bind_assoc {A B C} (p : Prog A) (g : A -> Prog B) (f : B -> Prog C) :
  forall events o,
    Runs (bind (bind p g) f) events o -> Runs (bind p (fun a => bind (g a) f)) events o.
Proof.
  induction p as [a|c k IH|]; intros events o H; simpl in *.
  - exact H.
  - destruct H as (r & rest & -> & H). exists r, rest. split; [reflexivity | apply IH, H].
  - exact H.
Qed.

Ltac destruct_answer H :=
  match type of H with
  | context [match ?x with _ => _ end] => is_var x; destruct x
  end.

Ltac destruct_test H :=
  match type of H with
  | context [match ?x with _ => _ end] => destruct x eqn:?
  end.

Ltac run_step H :=
  unfold mbind, mret, Prog_bind, Prog_ret, Println, call in H;
  cbn [bind call Println negb] in H;
  first
    [ destruct_answer H
    | lazymatch type of H with
      | Runs (Ret _) _ _ => destruct H as [-> ->]
      | Runs Panic _ _ => destruct H as [-> ->]
      | Runs (Do _ _) _ _ =>
        let r := fresh "r" in
        let rest := fresh "rest" in
        destruct H as (r & rest & -> & H)
      end
    | destruct_test H ].

Ltac run_all H := repeat run_step H.

Lemma harmless_app t1 t2 : Forall harmless t1 -> Forall harmless t2 -> Forall harmless (t1 ++ t2).
Proof. intros. apply Forall_app. split; assumption. Qed.

Ltac harmless_event := repeat split; reflexivity.

Lemma readDaemonConfig_runs events o :
  Runs readDaemonConfig events o ->
  Forall harmless events /\ exists read, o = Returned read.
Proof.
  intros H. unfold readDaemonConfig in H. run_all H;
    (split; [repeat (constructor; [harmless_event|]); constructor | eexists; reflexivity]).
Qed.

Lemma flat_map_harmless t :
  Forall harmless t ->
  flat_map executed t = [] /\ flat_map written t = [] /\ flat_map marshalled t = [] /\
  flat_map scanned t = [] /\ flat_map fetched t = [] /\ flat_map read t = [] /\
  flat_map printed_row t = [] /\
  Forall (fun e => changes (called e) = false) t.
Proof.
  induction 1 as [|e t (He & Hw & Hm & Hs & Hf & Hr & Hp & Hc) _
                    (IHe & IHw & IHm & IHs & IHf & IHr & IHp & IHc)]; simpl.
  - repeat split; constructor.
  - rewrite He, Hw, Hm, Hs, Hf, Hr, Hp, IHe, IHw, IHm, IHs, IHf, IHr, IHp. repeat split.
    constructor; assumption.
Qed.

Lemma menu_events_harmless rs : forall i, Forall harmless (menu_events i rs).
Proof.
  induction rs as [|r rs IH]; intros i; simpl; constructor; [harmless_event | apply IH].
Qed.

Lemma menu_events_printed rs : forall start i result,
  rs !! i = Some result ->
  In (menu_line (start + Z.of_nat i) result) (flat_map printed (menu_events start rs)).
Proof.
  induction rs as [|r rs IH]; intros start i result H; [discriminate|].
  destruct i as [|i]; cbn [menu_events flat_map printed called app].
  - injection H as ->. left. f_equal. simpl. lia.
  - right. replace (start + Z.of_nat (S i)) with ((start + 1) + Z.of_nat i) by lia.
    exact (IH (start + 1) i result H).
Qed.

Lemma menu_runs rs : forall i events o,
  Runs (range_from i rs (fun i result => call (Print (menu_line i result)))) events o ->
  events = menu_events i rs /\ o = Returned tt.
Proof.
  induction rs as [|r rs IH]; intros i events o H; cbn [range_from] in H.
  - destruct H as [-> ->]. split; reflexivity.
  - run_step H. destruct r0. apply IH in H. destruct H as [-> ->]. split; reflexivity.
Qed.

Lemma all_mirrors rs : forall acc,
  fold_left (fun newMirrors result => newMirrors ++ [mirror result]) rs acc =
  acc ++ map mirror rs.
Proof.
  induction rs as [|r rs IH]; intros acc; simpl; [rewrite app_nil_r; reflexivity|].
  rewrite IH, <- app_assoc. reflexivity.
Qed.

(** The runs of the [switch] over the choice. *)
Lemma choose_runs choice rs events o :
  Runs (choose choice rs) events o ->
  Forall (fun e => executed e = [] /\ written e = [] /\ marshalled e = [] /\
                   fetched e = [] /\ read e = [] /\ printed_row e = [] /\
                   changes (called e) = false) events /\
  ((o = Returned (inr "无效的选择")) \/
   (choice = "1" /\ events = [] /\ o = Returned (inl (map mirror rs))) \/
   (choice = "2" /\ exists index result,
       flat_map scanned events = [index] /\ 1 <= index <= Z.of_nat (length rs) /\
       rs !! Z.to_nat (index - 1) = Some result /\
       flat_map printed events =
         (nl +:+ "可用的镜像源：" +:+ nl) :: flat_map printed (menu_events 0 rs) ++
         ["请选择镜像源编号: "] /\
       o = Returned (inl [mirror result]))).
Proof.
  intros H. unfold choose in H.
  destruct (choice =? "1")%string eqn:E1.
  - apply String.eqb_eq in E1. destruct H as [-> ->]. split; [constructor|].
    right. left. split; [exact E1|]. split; [reflexivity|].
    rewrite all_mirrors. reflexivity.
  - destruct (choice =? "2")%string eqn:E2.
    + apply String.eqb_eq in E2.
      run_step H. destruct r.
      apply Runs_bind in H. destruct H as [(a & t1 & t2 & H1 & H & ->)|[H1 ->]];
        apply menu_runs in H1; destruct H1 as [-> Ho]; [|discriminate].
      run_step H. destruct r. run_step H.
      destruct ((r <? 1) || (r >? Z.of_nat (length rs))) eqn:Hr.
      * destruct H as [-> ->]. split; [|left; reflexivity].
        constructor; [harmless_event|]. apply Forall_app. split.
        -- eapply Forall_impl; [apply menu_events_harmless|]. unfold harmless. tauto.
        -- repeat (constructor; [harmless_event|]). constructor.
      * apply orb_false_iff in Hr. destruct Hr as [H1 H2].
        apply Z.ltb_ge in H1. rewrite Z.gtb_ltb in H2. apply Z.ltb_ge in H2.
        destruct (rs !! Z.to_nat (r - 1)) as [result|] eqn:Hl.
        -- destruct H as [-> ->]. split.
           ++ constructor; [harmless_event|]. apply Forall_app. split.
              ** eapply Forall_impl; [apply menu_events_harmless|]. unfold harmless. tauto.
              ** repeat (constructor; [harmless_event|]). constructor.
           ++ right. right. split; [exact E2|]. exists r, result.
              split.
              { simpl. rewrite flat_map_app.
                destruct (flat_map_harmless _ (menu_events_harmless rs 0)) as (_ & _ & _ & -> & _).
                reflexivity. }
              split; [lia|]. split; [exact Hl|]. split; [|reflexivity].
              simpl. rewrite flat_map_app. reflexivity.
        -- exfalso. apply lookup_ge_None in Hl. lia.
    + destruct H as [-> ->]. split; [constructor | left; reflexivity].
Qed.

(** Upper case and white space around the answer do not matter. *)
Example consents_to_yes :
  consents ("  YES " +:+ nl) /\ consents ("y" +:+ String "013" nl) /\ ~ consents "yep".
Proof.
  split; [|split].
  - intros _. vm_compute. reflexivity.
  - intros _. vm_compute. reflexivity.
  - intros H. specialize (H eq_refl). vm_compute in H. discriminate H.
Qed.

(** On Linux, with the report of the design's scenario: the user
    agrees, replaces all mirrors and declines the restart. *)
Example replace_all_mirrors :
  let events := trace (main_report insertion_sorter false "linux" scenario_results)
                      (typing (user "1") 0) in
  flat_map written events =
    [("/etc/docker/daemon.json",
      json_text {| RegistryMirrors := ["https://mirror-a.example"] |}, 420, None)] /\
  flat_map executed events =
    [("docker", ["--version"], None); ("sh", ["-c"; "systemctl daemon-reload"], None)].
Proof. vm_compute. split; reflexivity. Qed.

(** Elsewhere nothing is asked and nothing is changed. *)
Example no_configuration_elsewhere :
  let events := trace (main_report insertion_sorter false "darwin" scenario_results)
                      (typing (user "1") 0) in
  flat_map read events = [] /\ flat_map written events = [] /\
  flat_map executed events = [].
Proof. vm_compute. repeat split. Qed.

(** A first start without [docker.txt]: the list is downloaded, and the
    scan of the sample world finds no endpoint in it. *)
Example first_start :
  let events := trace (main_open 10000000000 8 false) (typing (user "1") 0) in
  flat_map fetched events = [(docker_txt_url, inl 200)] /\
  flat_map opened events = [("docker.txt", None)] /\
  outcome (main_open 10000000000 8 false) (typing (user "1") 0) = Returned None.
Proof. vm_compute. repeat split. Qed.

(** ** Configuring the mirrors *)

Ltac run_sub H lemma :=
  let a := fresh "a" in
  let t1 := fresh "t" in
  let t2 := fresh "rest" in
  let H1 := fresh "Hsub" in
  apply Runs_bind in H;
  destruct H as [(a & t1 & t2 & H1 & H & ->)|[H1 ->]];
  apply lemma in H1.

Ltac linux_step H :=
  unfold mbind, mret, Prog_bind, Prog_ret, Println, call in H;
  cbn [bind call Println negb] in H;
  first
    [ lazymatch type of H with
      | Runs (bind readDaemonConfig _) _ _ =>
        run_sub H readDaemonConfig_runs;
        [ match goal with Hs : _ /\ (exists _, _) |- _ =>
            let Hq := fresh "Hquiet" in
            let x := fresh "read" in
            destruct Hs as [Hq [x Hs]]; injection Hs as <- end
        | match goal with Hs : _ /\ (exists _, _) |- _ =>
            destruct Hs as [_ [? Hs]]; discriminate Hs end ]
      | Runs (bind (choose _ _) _) _ _ =>
        run_sub H choose_runs;
        [ match goal with Hs : _ /\ _ |- _ =>
            let Hc := fresh "Hchoose" in
            let Hw := fresh "Hways" in
            destruct Hs as [Hc Hw] end
        | match goal with Hs : _ /\ _ |- _ =>
            destruct Hs as [_ [Hs|[(_ & _ & Hs)|(_ & ? & ? & _ & _ & _ & _ & Hs)]]];
            discriminate Hs end ]
      end
    | run_step H ].

Ltac linux_paths H :=
  unfold handleLinuxSystem, checkDockerInstalled, writeDaemonConfig, execCommand, ToLower in H;
  repeat linux_step H.

Lemma flat_map_calm t :
  Forall (fun e => executed e = [] /\ written e = [] /\ marshalled e = [] /\
                   fetched e = [] /\ read e = [] /\ printed_row e = [] /\
                   changes (called e) = false) t ->
  flat_map executed t = [] /\ flat_map written t = [] /\ flat_map marshalled t = [] /\
  flat_map fetched t = [] /\ flat_map read t = [] /\ flat_map printed_row t = [] /\
  Forall (fun e => changes (called e) = false) t.
Proof.
  induction 1 as [|e t (He & Hw & Hm & Hf & Hr & Hp & Hc) _
                    (IHe & IHw & IHm & IHf & IHr & IHp & IHc)]; simpl.
  - repeat split; constructor.
  - rewrite He, Hw, Hm, Hf, Hr, Hp, IHe, IHw, IHm, IHf, IHr, IHp. repeat split.
    constructor; assumption.
Qed.

Ltac leaf_facts :=
  repeat match goal with
  | Hq : Forall harmless ?t |- _ =>
    let Qe := fresh "Qe" in let Qw := fresh "Qw" in let Qm := fresh "Qm" in
    let Qs := fresh "Qs" in let Qf := fresh "Qf" in let Qr := fresh "Qr" in
    let Qp := fresh "Qp" in let Qc := fresh "Qc" in
    pose proof (flat_map_harmless t Hq) as (Qe & Qw & Qm & Qs & Qf & Qr & Qp & Qc); clear Hq
  | Hc : Forall (fun e => executed e = [] /\ _) ?t |- _ =>
    let Qe := fresh "Qe" in let Qw := fresh "Qw" in let Qm := fresh "Qm" in
    let Qf := fresh "Qf" in let Qr := fresh "Qr" in let Qp := fresh "Qp" in
    let Qc := fresh "Qc" in
    pose proof (flat_map_calm t Hc) as (Qe & Qw & Qm & Qf & Qr & Qp & Qc); clear Hc
  end.

Ltac observe :=
  repeat first
    [ progress simpl
    | rewrite flat_map_app
    | match goal with E : flat_map _ ?t = [] |- _ => rewrite E end ].

(** No run of [handleLinuxSystem] panics: the index into
    [successResults] is in range. *)
Lemma handleLinuxSystem_returns rs events o :
  Runs (handleLinuxSystem rs) events o -> exists err, o = Returned err.
Proof. intros H. linux_paths H; eexists; reflexivity. Qed.


(** What the [switch] made of the choice. *)
Ltac ways :=
  try match goal with
  | Hw : _ \/ _ \/ _ |- _ =>
    destruct Hw as [Hw|[(? & -> & Hw)|(? & ?index & ?result & ? & ? & ? & ? & Hw)]];
    [discriminate Hw | injection Hw as -> | injection Hw as ->]
  end.

Lemma handleLinuxSystem_written rs events o :
  Runs (handleLinuxSystem rs) events o ->
  flat_map written events = [] \/
  exists data err mirrors,
    flat_map written events = [("/etc/docker/daemon.json", data, 420, err)] /\
    selection rs mirrors /\
    In ({| RegistryMirrors := mirrors |}, inl data) (flat_map marshalled events).
Proof.
  intros H. linux_paths H; ways; leaf_facts; observe;
    try (left; reflexivity);
    right; do 3 eexists; (split; [reflexivity|]);
    (split; [|left; reflexivity]);
    first [left; reflexivity | right; eauto].
Qed.

Lemma handleLinuxSystem_success rs events :
  Runs (handleLinuxSystem rs) events (Returned None) ->
  (exists data, flat_map written events = [("/etc/docker/daemon.json", data, 420, None)]) /\
  In ("sh", ["-c"; "systemctl daemon-reload"], None) (flat_map executed events).
Proof.
  intros H. remember (Returned None) as o eqn:Ho.
  linux_paths H; try discriminate Ho; ways; leaf_facts; observe;
    (split; [eexists; reflexivity | tauto]).
Qed.

Ltac other_error :=
  match goal with
  | E : Returned _ = Returned _ |- _ =>
    exfalso;
    first [ discriminate E
          | injection E as E; apply (f_equal (String.get 0)) in E;
            vm_compute in E; discriminate E ]
  end.

Lemma handleLinuxSystem_invalid rs events :
  Runs (handleLinuxSystem rs) events (Returned (Some "无效的选择")) ->
  Forall (fun e => changes (called e) = false) events.
Proof.
  intros H. remember (Returned (Some "无效的选择")) as o eqn:Ho.
  linux_paths H; try other_error; leaf_facts;
    repeat first [ apply Forall_cons; split; [reflexivity|]
                 | apply Forall_app; split; [assumption|]
                 | apply Forall_nil_2
                 | assumption ].
Qed.


Lemma handleLinuxSystem_menu rs events o :
  Runs (handleLinuxSystem rs) events o ->
  forall index v text,
    In index (flat_map scanned events) ->
    In (v, text) (flat_map marshalled events) ->
    exists result,
      1 <= index <= Z.of_nat (length rs) /\
      rs !! Z.to_nat (index - 1) = Some result /\
      RegistryMirrors v = [mirror result] /\
      In (menu_line (index - 1) result) (flat_map printed events).
Proof.
  intros H index v text. linux_paths H; ways; leaf_facts; observe;
    repeat match goal with E : flat_map scanned _ = _ |- _ => rewrite E; clear E end;
    simpl; intros Hs Hm;
    repeat match goal with
           | Hin : _ \/ _ |- _ => destruct Hin as [Hin|Hin]
           | Hin : False |- _ => destruct Hin
           end;
    try discriminate; subst;
    repeat match goal with E : (_, _) = (_, _) |- _ => injection E as <- <- end;
    eexists; (split; [eassumption|]); (split; [eassumption|]); (split; [reflexivity|]);
    repeat match goal with E : flat_map printed _ = _ |- _ => rewrite E; clear E end;
    match goal with
    | Hl : ?rs !! Z.to_nat (?i - 1) = Some ?r |- _ =>
      pose proof (menu_events_printed rs 0 _ _ Hl) as Hp;
      replace (0 + Z.of_nat (Z.to_nat (i - 1))) with (i - 1) in Hp by lia
    end;
    repeat first [rewrite in_app_iff | progress cbn [In]]; tauto.
Qed.

Lemma handleLinuxSystem_marshalled rs events o :
  Runs (handleLinuxSystem rs) events o ->
  flat_map printed_row events = [] /\
  forall v text,
    In (v, text) (flat_map marshalled events) -> selection rs (RegistryMirrors v).
Proof.
  intros H. linux_paths H; ways; leaf_facts; observe;
    (split; [reflexivity|]); intros v text Hin;
    repeat match goal with
           | Hin : _ \/ _ |- _ => destruct Hin as [Hin|Hin]
           | Hin : False |- _ => destruct Hin
           end;
    injection Hin as <- <-; simpl;
    first [left; reflexivity | right; eauto].
Qed.


(** X12.  [handleLinuxSystem] writes at most one file, [daemon.json]
    with mode 0644, and what it writes is the text marshalled from a
    configuration whose mirrors are the addresses of all the successful
    results or of one of them; nothing of the configuration read before
    is kept.  When it returns the error of an invalid choice it has
    changed nothing; when it returns no error the file was written and
    the daemon reloaded. *)
Theorem linux_configuration_written (successResults : list CheckResult) (w : World) :
  let events := trace (handleLinuxSystem successResults) w in
  let returned := outcome (handleLinuxSystem successResults) w in
  (flat_map written events = [] \/
   exists data err mirrors,
     flat_map written events = [("/etc/docker/daemon.json", data, 420, err)] /\
     selection successResults mirrors /\
     In ({| RegistryMirrors := mirrors |}, inl data) (flat_map marshalled events)) /\
  (returned = Returned (Some "无效的选择") ->
   Forall (fun e => changes (called e) = false) events) /\
  (returned = Returned None ->
   (exists data,
       flat_map written events = [("/etc/docker/daemon.json", data, 420, None)]) /\
   In ("sh", ["-c"; "systemctl daemon-reload"], None) (flat_map executed events)).
Proof.
  intros events returned.
  pose proof (trace_Runs (handleLinuxSystem successResults) w) as H.
  fold events in H. fold returned in H.
  split; [exact (handleLinuxSystem_written _ _ _ H)|]. split.
  - intros E. rewrite E in H. exact (handleLinuxSystem_invalid _ _ H).
  - intros E. rewrite E in H. exact (handleLinuxSystem_success _ _ H).
Qed.

(** X13.  When a number was read at the menu and a configuration was
    made, the number is that of an entry of the menu, the line printed
    for that entry carries it, and the configuration holds the address of
    that entry and nothing else. *)
Theorem menu_number_selects_its_entry (successResults : list CheckResult) (w : World)
  (index : Z) (v : DaemonConfig) (text : string + string) :
  let events := trace (handleLinuxSystem successResults) w in
  In index (flat_map scanned events) ->
  In (v, text) (flat_map marshalled events) ->
  exists result,
    1 <= index <= Z.of_nat (length successResults) /\
    successResults !! Z.to_nat (index - 1) = Some result /\
    RegistryMirrors v = [mirror result] /\
    In (menu_line (index - 1) result) (flat_map printed events).
Proof.
  intros events.
  pose proof (trace_Runs (handleLinuxSystem successResults) w) as H. fold events in H.
  exact (handleLinuxSystem_menu _ _ _ H index v text).
Qed.

Lemma menu_number_selects_its_entry_witness :
  exists result,
    1 <= 2 <= Z.of_nat (length scenario_results) /\
    scenario_results !! Z.to_nat (2 - 1) = Some result /\
    RegistryMirrors {| RegistryMirrors := ["https://mirror-a.example"] |} = [mirror result] /\
    In (menu_line (2 - 1) result)
       (flat_map printed
          (trace (handleLinuxSystem scenario_results)
                 (typing (fun n => if (n =? 6)%nat then "2" else "n") 2))).
Proof.
  apply (menu_number_selects_its_entry scenario_results
           (typing (fun n => if (n =? 6)%nat then "2" else "n") 2) 2
           {| RegistryMirrors := ["https://mirror-a.example"] |}
           (inl (json_text {| RegistryMirrors := ["https://mirror-a.example"] |}))).
  - vm_compute. left. reflexivity.
  - vm_compute. left. reflexivity.
Defined.

(** ** Fetching the endpoint list *)


Lemma main_open_runs timeout numWorkers update events o :
  Runs (main_open timeout numWorkers update) events o ->
  (exists r, o = Returned r) /\
  (forall hosts, o = Returned (Some hosts) ->
     hosts <> [] /\ flat_map opened events = [("docker.txt", None)] /\
     exists lines, flat_map scans events = [(lines, None)] /\ hosts = scan_hosts lines) /\
  (forall lines, flat_map scans events = [(lines, None)] -> scan_hosts lines <> [] ->
     o = Returned (Some (scan_hosts lines))) /\
  (flat_map fetched events <> [] ->
     update = true \/ flat_map stat events = [("docker.txt", stat_NotExist)]) /\
  (flat_map opened events <> [] ->
     flat_map fetched events = [] \/ flat_map copied events = [("docker.txt", None)]) /\
  (flat_map opened events = [("docker.txt", None)] -> o = Returned None ->
     last (map called events) = Some (file_Close "docker.txt")).
Proof.
  intros H. unfold main_open, downloadFromGithub, waitForKeyPress in H. run_all H.
  all: split; [eexists; reflexivity|].
  all: split;
    [intros hosts E;
     first [ discriminate E
           | injection E as <-; split; [discriminate|]; split; [reflexivity|];
             eexists; split; [reflexivity|]; congruence ]|].
  all: split;
    [simpl; intros lines E Hne;
     first [ discriminate E | injection E as <-; congruence ]|].
  all: split;
    [simpl; intros Hne; first [congruence | left; reflexivity | right; reflexivity]|].
  all: split;
    [simpl; intros Hne; first [congruence | left; reflexivity | right; reflexivity]|].
  all: simpl; intros E1 E2; first [discriminate E1 | discriminate E2 | reflexivity].
Qed.


(** X15.  [main] starts the pool only on the non-empty list scanned
    without error from the opened [docker.txt], and always does so then.
    It goes to the network only when [-update] is given or [docker.txt]
    does not exist; it opens the file only if no download was made or the
    download was copied without error; and when it returns after opening
    the file, closing the file is the last thing it does. *)
Theorem main_opens_the_endpoint_list (timeout : Duration) (numWorkers : Z)
  (update : bool) (w : World) :
  let events := trace (main_open timeout numWorkers update) w in
  let returned := outcome (main_open timeout numWorkers update) w in
  (exists r, returned = Returned r) /\
  (forall hosts, returned = Returned (Some hosts) ->
     hosts <> [] /\ flat_map opened events = [("docker.txt", None)] /\
     exists lines, flat_map scans events = [(lines, None)] /\ hosts = scan_hosts lines) /\
  (forall lines, flat_map scans events = [(lines, None)] -> scan_hosts lines <> [] ->
     returned = Returned (Some (scan_hosts lines))) /\
  (flat_map fetched events <> [] ->
     update = true \/ flat_map stat events = [("docker.txt", stat_NotExist)]) /\
  (flat_map opened events <> [] ->
     flat_map fetched events = [] \/ flat_map copied events = [("docker.txt", None)]) /\
  (flat_map opened events = [("docker.txt", None)] -> returned = Returned None ->
     last (map called events) = Some (file_Close "docker.txt")).
Proof.
  intros events returned.
  exact (main_open_runs timeout numWorkers update _ _
           (trace_Runs (main_open timeout numWorkers update) w)).
Qed.

(** ** The end of [main] *)

Lemma rows_runs l : forall events o,
  Runs (range l (fun result => call (Printf_row (render_row result)))) events o ->
  events = row_events l /\ o = Returned tt.
Proof.
  induction l as [|r l IH]; intros events o H; cbn [range] in H.
  - destruct H as [-> ->]. split; reflexivity.
  - run_step H. destruct r0. apply IH in H. destruct H as [-> ->]. split; reflexivity.
Qed.

Lemma row_events_facts l :
  flat_map printed_row (row_events l) = map render_row l /\
  flat_map executed (row_events l) = [] /\
  flat_map marshalled (row_events l) = [] /\
  flat_map read (row_events l) = [] /\
  flat_map printed (row_events l) = [] /\
  Forall (fun e => changes (called e) = false) (row_events l).
Proof.
  induction l as [|r l (IH1 & IH2 & IH3 & IH4 & IH5 & IH6)]; simpl.
  - repeat split; constructor.
  - rewrite IH1, IH2, IH3, IH4, IH5. repeat split. constructor; [reflexivity | exact IH6].
Qed.

Ltac report_step H :=
  unfold mbind, mret, Prog_bind, Prog_ret, Println, call in H;
  cbn [bind call Println negb] in H;
  first
    [ lazymatch type of H with
      | Runs (bind (bind _ _) _) _ _ => apply Runs_bind_assoc in H
      | Runs (bind (range _ _) _) _ _ =>
        run_sub H rows_runs;
        match goal with Hs : _ /\ _ |- _ =>
          destruct Hs as [-> Hs]; first [discriminate Hs | injection Hs as ->] end
      | Runs (bind (handleLinuxSystem _) _) _ _ =>
        let Hl := fresh "Hlinux" in
        let Hr := fresh "Hret" in
        apply Runs_bind in H;
        destruct H as [(?err & ?t & ?rest & Hl & H & ->)|[Hl ->]];
        [|destruct (handleLinuxSystem_returns _ _ _ Hl) as [? Hr]; discriminate Hr]
      end
    | run_step H ].

Ltac report_paths H :=
  unfold main_report, waitForKeyPress, ToLower in H; repeat report_step H.

Lemma last_cons_app {A} (x y : A) l1 l2 : last (x :: l1 ++ y :: l2) = last (y :: l2).
Proof. apply (last_app_cons (x :: l1) l2 y). Qed.

Ltac last_call :=
  repeat first [ progress cbn [map] | rewrite map_app
               | rewrite last_cons_cons | rewrite last_cons_app | rewrite last_app_cons ];
  reflexivity.

Ltac unit_outcome :=
  match goal with |- Returned ?x = Returned tt => destruct x; reflexivity end.

Ltac linux_facts :=
  repeat match goal with
  | Hl : Runs (handleLinuxSystem _) ?t _ |- _ =>
    let Hm := fresh "Hmarshalled" in
    let Hp := fresh "Qp" in
    pose proof (handleLinuxSystem_marshalled _ _ _ Hl) as [Hp Hm]; clear Hl
  end.

Lemma main_report_runs sorter listSuccess GOOS arrived events o :
  Runs (main_report sorter listSuccess GOOS arrived) events o ->
  o = Returned tt /\
  last (map called events) = Some (file_Close "docker.txt") /\
  flat_map printed_row events = rows (report sorter listSuccess arrived) /\
  In (summary_line (report sorter listSuccess arrived)) (flat_map printed events) /\
  (forall v text,
      In (v, text) (flat_map marshalled events) ->
      selection (select_success (allResults_after_sort sorter listSuccess arrived))
                (RegistryMirrors v)).
Proof.
  intros H. report_paths H.
  all: split; [unit_outcome|].
  all: split; [last_call|].
  all: linux_facts;
    destruct (row_events_facts (displayResults sorter listSuccess arrived))
      as (R1 & R2 & R3 & R4 & R5 & R6).
  all: split; [observe; rewrite ?R1, ?app_nil_r; reflexivity|].
  all: split; [observe; rewrite ?R5; simpl; right; right; left; reflexivity|].
  all: intros v text; observe; rewrite ?R3; simpl; rewrite ?app_nil_r; try tauto.
  all: first [ rewrite in_app_iff; simpl; intros [Hin|[]]; eauto | eauto ].
Qed.


(** X16.  After the pool [main] always returns, and closing [docker.txt]
    is the last thing it does.  The rows it prints are the rows of
    [report], in that order, and the summary line carries the two counts
    of [report]. *)
Theorem main_prints_the_report (sorter : sort.Sorter) (listSuccess : bool)
  (GOOS : string) (arrived : list CheckResult) (w : World) :
  let events := trace (main_report sorter listSuccess GOOS arrived) w in
  outcome (main_report sorter listSuccess GOOS arrived) w = Returned tt /\
  last (map called events) = Some (file_Close "docker.txt") /\
  flat_map printed_row events = rows (report sorter listSuccess arrived) /\
  In (summary_line (report sorter listSuccess arrived)) (flat_map printed events).
Proof.
  intros events.
  destruct (main_report_runs sorter listSuccess GOOS arrived _ _
              (trace_Runs (main_report sorter listSuccess GOOS arrived) w))
    as (H1 & H2 & H3 & H4 & _).
  repeat split; assumption.
Qed.



(** X18.  From the endpoint list to [daemon.json]: after a run of the
    pool with at least one worker, every configuration [main] makes holds
    the addresses of results collected in this run that were reachable
    and not timed out, each the address of an endpoint of the list.
    Without [-l] they stand in ascending order of endpoint, because the
    sort of the table has reordered the collected results too; with [-l]
    they are all the successes in the order of their arrival, or one of
    them. *)
Theorem configured_mirrors_are_successes (numWorkers : Z) (hosts : list string)
  (schedule : list Action) (s : State) (sorter : sort.Sorter) (listSuccess : bool)
  (GOOS : string) (w : World) (v : DaemonConfig) (text : string + string) :
  1 <= numWorkers ->
  run numWorkers hosts schedule (start hosts) = Some s -> pc s = MDone ->
  In (v, text)
     (flat_map marshalled (trace (main_report sorter listSuccess GOOS (allResults s)) w)) ->
  exists chosen,
    RegistryMirrors v = map mirror chosen /\
    Forall (fun result => In result (allResults s) /\ succeeded result = true /\
                          In (Host result) hosts) chosen /\
    (listSuccess = false -> StronglySorted Host_le chosen) /\
    (listSuccess = true ->
     chosen = List.filter succeeded (allResults s) \/ exists result, chosen = [result]).
Proof.
  intros HN E Hd Hin.
  destruct (main_report_runs sorter listSuccess GOOS (allResults s) _ _
              (trace_Runs (main_report sorter listSuccess GOOS (allResults s)) w))
    as (_ & _ & _ & _ & Hsel).
  specialize (Hsel v text Hin). rewrite select_success_filter in Hsel.
  destruct (Inv_done numWorkers hosts s HN (Inv_reachable numWorkers hosts schedule s E) Hd)
    as (Hhosts & _).
  set (after := allResults_after_sort sorter listSuccess (allResults s)) in *.
  assert (Hperm : Permutation after (allResults s))
    by apply allResults_after_sort_Permutation.
  assert (Hall : Forall (fun result => In result (allResults s) /\ succeeded result = true /\
                                       In (Host result) hosts)
                        (List.filter succeeded after)).
  { apply List.Forall_forall. intros result Hr. apply filter_In in Hr.
    destruct Hr as [Hr Hs]. apply (Permutation_in _ Hperm) in Hr.
    split; [exact Hr|]. split; [exact Hs|].
    apply (Permutation_in _ Hhosts), in_map, Hr. }
  destruct Hsel as [Hm|(i & result & Hl & Hm)].
  - exists (List.filter succeeded after). split; [exact Hm|]. split; [exact Hall|]. split.
    + intros ->. apply filter_StronglySorted. apply displayResults_sorted.
    + intros ->. left. reflexivity.
  - exists [result]. split; [exact Hm|]. split.
    + constructor; [|constructor].
      apply list_elem_of_lookup_2, list_elem_of_In in Hl.
      exact (proj1 (List.Forall_forall _ _) Hall result Hl).
    + split; [intros _; repeat constructor | intros _; right; eauto].
Qed.

Lemma configured_mirrors_are_successes_witness :
  exists s chosen,
    run 2 demo_hosts demo_schedule (start demo_hosts) = Some s /\
    map mirror chosen = ["https://mirror-a.example"] /\
    Forall (fun result => In result (allResults s) /\ succeeded result = true /\
                          In (Host result) demo_hosts) chosen.
Proof.
  eexists.
  match goal with
  | |- exists chosen, run _ _ _ _ = Some ?s /\ _ =>
    assert (E : run 2 demo_hosts demo_schedule (start demo_hosts) = Some s)
      by (vm_compute; reflexivity);
    destruct (configured_mirrors_are_successes 2 demo_hosts demo_schedule s
                insertion_sorter false "linux" (typing (user "1") 0)
                {| RegistryMirrors := ["https://mirror-a.example"] |}
                (inl (json_text {| RegistryMirrors := ["https://mirror-a.example"] |})))
      as (chosen & Hm & Hall & _);
      [lia | exact E | reflexivity | vm_compute; left; reflexivity |];
    exists chosen; split; [exact E|]; split; [symmetry; exact Hm | exact Hall]
  end.
Defined.
